(** * doc_bot_support: name and phone normalizers, folder resolution, stage history

    A shallow embedding of the pure core of [main.py]: the name and phone
    normalizers, the folder-title codec, the three-tier folder search over
    the document store, and the stage-history reducer; further the choice
    of the plan file, the base address and the domain of the CRM, the
    lookup of a contact by phone, the names of the stages with their cache,
    and the routing of a message to the check.

    Python strings are sequences of Unicode code points; they are modelled
    as lists of code points.  The tables of the Python runtime that the
    code consults (white space, decimal digits, NFKC, case mapping) are an
    interface, [Unicode], whose laws fix the rows for ASCII and basic
    Cyrillic; [py_tables] is a concrete instance.  A second interface,
    [UnicodeMarks], fixes the rows for the acute accent and the no-break
    space.  The document store is an oracle from the text of a query to
    pages; [store_drive] is a store that reads the text as the query
    language of the store has it.  The one float of the code, the seconds
    of a duration, is the nearest float to the exact quotient. *)

From Stdlib Require Import NArith ZArith List Lia Bool Ascii Sorted.
From Stdlib Require String.
Import (notations) String.
From stdpp Require Import base list gmap.

(** ** Python strings *)

Definition char := N.
Definition str := list char.

Definition chr_eqb (a b : char) : bool := N.eqb a b.

Fixpoint str_eqb (a b : str) : bool :=
  match a, b with
  | [], [] => true
  | x :: a', y :: b' => chr_eqb x y && str_eqb a' b'
  | _, _ => false
  end.

(** Source literals are written as text and decoded from UTF-8. *)
Fixpoint utf8_decode (bs : list N) : str :=
  match bs with
  | [] => []
  | b :: r =>
      if (b <? 128)%N then b :: utf8_decode r
      else if (b <? 224)%N then
        match r with
        | c :: r' => ((b - 192) * 64 + (c - 128))%N :: utf8_decode r'
        | _ => []
        end
      else if (b <? 240)%N then
        match r with
        | c :: d :: r' =>
            ((b - 224) * 4096 + (c - 128) * 64 + (d - 128))%N :: utf8_decode r'
        | _ => []
        end
      else
        match r with
        | c :: d :: e :: r' =>
            ((b - 240) * 262144 + (c - 128) * 4096 + (d - 128) * 64 + (e - 128))%N
              :: utf8_decode r'
        | _ => []
        end
  end.

Definition U (s : String.string) : str :=
  utf8_decode (map N_of_ascii (String.list_ascii_of_string s)).
Arguments U s%_string.

Definition ch (s : String.string) : char := hd 0%N (U s).
Arguments ch s%_string.

(** [s[:n]], [s[n:]], [s[-n:]] and [s[i:j]] for non-negative [i], [j]. *)
Definition slice_to (n : nat) (s : str) : str := take n s.
Definition slice_from (n : nat) (s : str) : str := drop n s.
Definition slice_last (n : nat) (s : str) : str := drop (length s - n) s.
Definition slice (i j : nat) (s : str) : str := take (j - i) (drop i s).

(** [s.startswith(p)] *)
Fixpoint startswith (p s : str) : bool :=
  match p, s with
  | [], _ => true
  | x :: p', y :: s' => chr_eqb x y && startswith p' s'
  | _ :: _, [] => false
  end.

(** [c in chars] for a one-character [c] *)
Definition char_in (chars : str) (c : char) : bool := existsb (chr_eqb c) chars.

Fixpoint drop_while {A} (p : A -> bool) (l : list A) : list A :=
  match l with
  | [] => []
  | x :: l' => if p x then drop_while p l' else l
  end.

(** [s.lstrip(chars)]: the argument is a set of characters, not a prefix. *)
Definition lstrip_chars (chars : str) (s : str) : str := drop_while (char_in chars) s.

(** [needle in hay] *)
Fixpoint contains (needle hay : str) : bool :=
  startswith needle hay ||
  match hay with
  | [] => false
  | _ :: hay' => contains needle hay'
  end.

(** [s.replace(a, b)] for a one-character [a]. *)
Definition replace1 (a : char) (b : str) (s : str) : str :=
  flat_map (fun c => if chr_eqb c a then b else [c]) s.

(** The pieces of [s] between the characters of a class; never the empty
    list. *)
Fixpoint split_where (cls : char -> bool) (s : str) : list str :=
  match s with
  | [] => [[]]
  | c :: s' =>
      if cls c then [] :: split_where cls s'
      else match split_where cls s' with
           | [] => [[c]]
           | w :: ws => (c :: w) :: ws
           end
  end.

(** [s.split(sep)] for a one-character separator. *)
Definition split_on (sep : char) (s : str) : list str :=
  split_where (fun c => chr_eqb c sep) s.

(** [sep.join(parts)] *)
Fixpoint join (sep : str) (parts : list str) : str :=
  match parts with
  | [] => []
  | [p] => p
  | p :: ps => p ++ sep ++ join sep ps
  end.

(** [re.sub] with a pattern that is one character class repeated one or
    more times: every maximal run of characters of the class is replaced
    by one copy of [rep]. *)
Fixpoint sub_runs_from (cls : char -> bool) (rep : str) (in_run : bool) (s : str) : str :=
  match s with
  | [] => []
  | c :: s' =>
      if cls c then
        (if in_run then [] else rep) ++ sub_runs_from cls rep true s'
      else c :: sub_runs_from cls rep false s'
  end.

Definition sub_runs (cls : char -> bool) (rep : str) (s : str) : str :=
  sub_runs_from cls rep false s.

(** [re.sub] deleting every character outside a class (the pattern is the
    complement class, the replacement is empty). *)
Definition keep (cls : char -> bool) (s : str) : str := List.filter cls s.

(** [str(n)] for a non-negative integer. *)
Fixpoint decimal_fuel (fuel : nat) (n : N) (acc : str) : str :=
  match fuel with
  | O => acc
  | S fuel' =>
      let acc' := (48 + N.modulo n 10)%N :: acc in
      if (n <? 10)%N then acc' else decimal_fuel fuel' (N.div n 10) acc'
  end.

Definition str_of_N (n : N) : str := decimal_fuel (S (N.to_nat (N.log2 n))) n [].

(** Python compares strings code point by code point. *)
Fixpoint str_leb (a b : str) : bool :=
  match a, b with
  | [], _ => true
  | _ :: _, [] => false
  | x :: a', y :: b' => (x <? y)%N || (chr_eqb x y && str_leb a' b')
  end.


Definition is_empty (s : str) : bool := match s with [] => true | _ => false end.

(** [s.strip()] for a white-space class [cls]. *)
Definition lstrip (cls : char -> bool) (s : str) : str := drop_while cls s.
Definition rstrip (cls : char -> bool) (s : str) : str := rev (drop_while cls (rev s)).
Definition strip (cls : char -> bool) (s : str) : str := rstrip cls (lstrip cls s).

(** [s.split()] without argument: the maximal runs of characters outside
    the white-space class. *)
Definition split_ws (cls : char -> bool) (s : str) : list str :=
  List.filter (fun t => negb (is_empty t)) (split_where cls s).

(** [re.findall] for a class repeated [lo] to [hi] times: greedy, left to
    right, without overlap; [cur] is the run matched so far. *)
Fixpoint findall_runs (cls : char -> bool) (lo hi : nat) (cur : str) (s : str) : list str :=
  match s with
  | [] => if (lo <=? length cur)%nat then [cur] else []
  | c :: s' =>
      if cls c then
        let cur' := cur ++ [c] in
        if (length cur' =? hi)%nat then cur' :: findall_runs cls lo hi [] s'
        else findall_runs cls lo hi cur' s'
      else
        (if (lo <=? length cur)%nat then [cur] else []) ++ findall_runs cls lo hi [] s'
  end.

(** The text before the first [sep] and the text after it. *)
Fixpoint split_first (sep : char) (s : str) : option (str * str) :=
  match s with
  | [] => None
  | c :: s' =>
      if chr_eqb c sep then Some ([], s')
      else match split_first sep s' with
           | Some (l, r) => Some (c :: l, r)
           | None => None
           end
  end.

Definition LF : char := 10%N.

Definition drop_final_lf (s : str) : str :=
  match rev s with
  | c :: r => if chr_eqb c LF then rev r else s
  | [] => s
  end.

(** [re.match] of a lazy group, a comma and a greedy group anchored at both
    ends: the text before the first comma and the text after it.  The dot
    does not match a line feed, and the end anchor also matches just before
    a line feed that ends the string. *)
Definition match_name_comma_rest (s : str) : option (str * str) :=
  match split_first (ch ",") s with
  | None => None
  | Some (l, r) =>
      let r' := drop_final_lf r in
      if existsb (chr_eqb LF) l || existsb (chr_eqb LF) r' then None
      else Some (l, r')
  end.

(** ** The runtime's Unicode tables *)

(** The alphabet on which the tables are fixed by the laws below: ASCII,
    the Cyrillic letters U+0400..U+045F, and the letters U+0490, U+0491. *)
Definition plain (c : char) : bool :=
  (c <? 128)%N || ((1024 <=? c)%N && (c <=? 1119)%N) || (c =? 1168)%N || (c =? 1169)%N.

Definition is_plain (s : str) : bool := forallb plain s.

Definition plain_space (c : char) : bool :=
  ((9 <=? c)%N && (c <=? 13)%N) || ((28 <=? c)%N && (c <=? 32)%N).

Definition plain_digit (c : char) : bool := (48 <=? c)%N && (c <=? 57)%N.

Definition plain_upper (c : char) : char :=
  if ((97 <=? c)%N && (c <=? 122)%N) then (c - 32)%N
  else if ((1072 <=? c)%N && (c <=? 1103)%N) then (c - 32)%N
  else if ((1104 <=? c)%N && (c <=? 1119)%N) then (c - 80)%N
  else if (c =? 1169)%N then 1168%N
  else c.

Definition plain_lower (c : char) : char :=
  if ((65 <=? c)%N && (c <=? 90)%N) then (c + 32)%N
  else if ((1040 <=? c)%N && (c <=? 1071)%N) then (c + 32)%N
  else if ((1024 <=? c)%N && (c <=? 1039)%N) then (c + 80)%N
  else if (c =? 1168)%N then 1169%N
  else c.

(** What the code asks of the Python runtime.  [isspace] is the class of
    [\s], [str.strip()] and [str.split()]; [isdecimal] is the class of
    [\d]; [nfkc] is [unicodedata.normalize] to the form NFKC; [upper] and [lower]
    are [str.upper] and [str.lower], which may change the length. *)
Class Unicode := {
  isspace : char -> bool;
  isdecimal : char -> bool;
  nfkc : str -> str;
  upper : str -> str;
  lower : str -> str;
  isspace_plain : forall c, plain c = true -> isspace c = plain_space c;
  isdecimal_plain : forall c, plain c = true -> isdecimal c = plain_digit c;
  nfkc_plain : forall s, is_plain s = true -> nfkc s = s;
  upper_plain : forall s, is_plain s = true -> upper s = map plain_upper s;
  lower_plain : forall s, is_plain s = true -> lower s = map plain_lower s;
}.

(** A concrete instance: the tables of CPython on U+0000..U+00FF and on the
    Cyrillic part of [plain], together with the white space of the other
    blocks.  Code points outside are left as they are. *)
Definition py_isspace (c : char) : bool :=
  plain_space c || char_in [133; 160; 5760; 8232; 8233; 8239; 8287; 12288]%N c
  || ((8192 <=? c)%N && (c <=? 8202)%N).

Definition py_isdecimal (c : char) : bool := plain_digit c.

Definition py_nfkc_char (c : char) : str :=
  if (c =? 160)%N then [32]%N
  else if (c =? 168)%N then [32; 776]%N
  else if (c =? 170)%N then [97]%N
  else if (c =? 175)%N then [32; 772]%N
  else if (c =? 178)%N then [50]%N
  else if (c =? 179)%N then [51]%N
  else if (c =? 180)%N then [32; 769]%N
  else if (c =? 181)%N then [956]%N
  else if (c =? 184)%N then [32; 807]%N
  else if (c =? 185)%N then [49]%N
  else if (c =? 186)%N then [111]%N
  else if (c =? 188)%N then [49; 8260; 52]%N
  else if (c =? 189)%N then [49; 8260; 50]%N
  else if (c =? 190)%N then [51; 8260; 52]%N
  else [c].

Definition py_upper_char (c : char) : str :=
  if (c =? 223)%N then [83; 83]%N
  else if (c =? 181)%N then [924]%N
  else if (c =? 255)%N then [376]%N
  else if ((224 <=? c)%N && (c <=? 254)%N && negb (c =? 247)%N) then [(c - 32)%N]
  else [plain_upper c].

Definition py_lower_char (c : char) : str :=
  if ((192 <=? c)%N && (c <=? 222)%N && negb (c =? 215)%N) then [(c + 32)%N]
  else [plain_lower c].

Definition py_nfkc (s : str) : str := flat_map py_nfkc_char s.
Definition py_upper (s : str) : str := flat_map py_upper_char s.
Definition py_lower (s : str) : str := flat_map py_lower_char s.

(** Case analysis on the comparisons of code points in a goal. *)
Ltac cmp_cases :=
  repeat match goal with
    | |- context [(?a <? ?b)%N] => destruct (N.ltb_spec a b); try lia
    | |- context [(?a <=? ?b)%N] => destruct (N.leb_spec a b); try lia
    | |- context [(?a =? ?b)%N] => destruct (N.eqb_spec a b); try lia
    end;
  simpl; try reflexivity; try congruence; try lia.

Lemma plain_cases c :
  plain c = true ->
  (c < 128 \/ (1024 <= c /\ c <= 1119) \/ c = 1168 \/ c = 1169)%N.
Proof.
  unfold plain. intros H.
  repeat (apply orb_true_iff in H; destruct H as [H|H]).
  - apply N.ltb_lt in H. lia.
  - apply andb_true_iff in H. destruct H as [H1 H2].
    apply N.leb_le in H1. apply N.leb_le in H2. lia.
  - apply N.eqb_eq in H. lia.
  - apply N.eqb_eq in H. lia.
Qed.

Lemma is_plain_cons c s : is_plain (c :: s) = true <-> plain c = true /\ is_plain s = true.
Proof. unfold is_plain. simpl. apply andb_true_iff. Qed.

Lemma py_isspace_plain c : plain c = true -> py_isspace c = plain_space c.
Proof.
  intros H. apply plain_cases in H.
  unfold py_isspace, plain_space, char_in, chr_eqb. simpl. cmp_cases.
Qed.

Lemma py_nfkc_plain s : is_plain s = true -> py_nfkc s = s.
Proof.
  induction s as [|c s IH]; [reflexivity|].
  rewrite is_plain_cons. intros [Hc Hs]. apply plain_cases in Hc.
  unfold py_nfkc in *. simpl. rewrite (IH Hs).
  unfold py_nfkc_char. cmp_cases.
Qed.

Lemma py_upper_plain s : is_plain s = true -> py_upper s = map plain_upper s.
Proof.
  induction s as [|c s IH]; [reflexivity|].
  rewrite is_plain_cons. intros [Hc Hs]. apply plain_cases in Hc.
  unfold py_upper in *. simpl. rewrite (IH Hs).
  unfold py_upper_char. cmp_cases.
Qed.

Lemma py_lower_plain s : is_plain s = true -> py_lower s = map plain_lower s.
Proof.
  induction s as [|c s IH]; [reflexivity|].
  rewrite is_plain_cons. intros [Hc Hs]. apply plain_cases in Hc.
  unfold py_lower in *. simpl. rewrite (IH Hs).
  unfold py_lower_char. cmp_cases.
Qed.

Definition py_tables : Unicode := {|
  isspace := py_isspace;
  isdecimal := py_isdecimal;
  nfkc := py_nfkc;
  upper := py_upper;
  lower := py_lower;
  isspace_plain := py_isspace_plain;
  isdecimal_plain := fun c _ => eq_refl;
  nfkc_plain := py_nfkc_plain;
  upper_plain := py_upper_plain;
  lower_plain := py_lower_plain;
|}.

(** ** Name and phone normalization *)

Definition APOSTROPHES : list char :=
  Eval vm_compute in [ch "’"; ch "`"; ch "ʼ"; ch "ʹ"; ch "′"; ch "＇"; ch "ꞌ"].

Definition APOSTROPHE : str := Eval vm_compute in U "'".
Definition SPACE : str := Eval vm_compute in U " ".
Definition NBSP : char := 160%N.
Definition UA_PREFIX : str := Eval vm_compute in U "+380".
Definition UA_CODE : str := Eval vm_compute in U "380".
Definition ZERO : str := Eval vm_compute in U "0".
Definition COMMA_SPACE : str := Eval vm_compute in U ", ".

Definition _unify_apostrophes (s : str) : str :=
  if is_empty s then []
  else fold_left (fun s a => replace1 a APOSTROPHE s) APOSTROPHES s.

Section Normalizers.
Context {UT : Unicode}.

Definition normalize_spaces (s : str) : str :=
  let s := nfkc s in
  let s := replace1 NBSP SPACE s in
  strip isspace (sub_runs isspace SPACE s).

(** [x[:1].upper() + x[1:].lower() if x else x] *)
Definition title_part (x : str) : str :=
  if is_empty x then x else upper (slice_to 1 x) ++ lower (slice_from 1 x).

Definition _smart_title (token : str) : str :=
  let token := strip isspace token in
  if is_empty token then []
  else
    join (U "-")
      (map (fun part => join APOSTROPHE (map title_part (split_on (ch "'") part)))
         (split_on (ch "-") token)).

(** The class of commas, periods and semicolons. *)
Definition is_punct (c : char) : bool := char_in (U ",.;") c.

Definition normalize_fio_string (raw : str) : str :=
  let s := normalize_spaces (_unify_apostrophes raw) in
  let s := sub_runs is_punct SPACE s in
  let s := normalize_spaces s in
  let tokens := List.filter (fun t => negb (is_empty t)) (split_on (ch " ") s) in
  let tokens := map _smart_title tokens in
  join SPACE tokens.

(** The body of [normalize_phone_e164_ua] before its last nine characters
    are taken, from the digits of the input. *)
Definition national_body (digits : str) : str :=
  let digits := if startswith ZERO digits then UA_CODE ++ digits else digits in
  if startswith UA_CODE digits then slice_from 3 digits
  else lstrip_chars UA_CODE digits.

(** A phone that is [None] is read as the empty string. *)
Definition normalize_phone_e164_ua (phone : str) : str :=
  let digits := keep isdecimal phone in
  if is_empty digits then UA_PREFIX
  else
    let body := national_body digits in
    let body := slice_last 9 body in
    UA_PREFIX ++ body.

Definition build_folder_title (fio phone_e164 : str) : str :=
  normalize_fio_string fio ++ COMMA_SPACE ++ normalize_phone_e164_ua phone_e164.

Definition normalize_folder_title_for_compare (title : str) : str :=
  let title := normalize_spaces (_unify_apostrophes title) in
  match match_name_comma_rest title with
  | None => normalize_fio_string title
  | Some (l, r) =>
      let left := strip isspace l in
      let right := strip isspace r in
      let left := normalize_fio_string left in
      let digits := keep isdecimal right in
      let phone :=
        if is_empty digits then normalize_phone_e164_ua right
        else normalize_phone_e164_ua digits in
      left ++ COMMA_SPACE ++ phone
  end.

Definition _extract_e164_from_title (title : str) : option str :=
  let digits := keep isdecimal title in
  if (length digits <? 9)%nat then None
  else
    match last (findall_runs isdecimal 9 12 [] digits) with
    | None => None
    | Some run => Some (normalize_phone_e164_ua run)
    end.

End Normalizers.

(** ** Accents and no-break spaces *)

(** The combining acute accent, which marks the stress of a word. *)
Definition ACUTE : char := 769%N.

(** The letters of the plain alphabet that NFKC joins with an acute accent
    that follows them into one character: those whose small letter is one
    of these. *)
Definition COMPOSING : str := Eval vm_compute in U "acegiklmnoprsuwyzгк".

Definition composes (c : char) : bool := char_in COMPOSING (plain_lower c).

(** No acute accent stands directly after a letter it composes with. *)
Fixpoint accents_apart (s : str) : bool :=
  match s with
  | [] => true
  | c :: s' =>
      negb (composes c && match s' with d :: _ => chr_eqb d ACUTE | [] => false end)
      && accents_apart s'
  end.

(** The plain alphabet with the acute accent; with the no-break space; and
    with the apostrophes that [_unify_apostrophes] replaces. *)
Definition accented (c : char) : bool := plain c || chr_eqb c ACUTE.
Definition spaced (c : char) : bool := accented c || chr_eqb c NBSP.
Definition text_char (c : char) : bool := spaced c || char_in APOSTROPHES c.

Definition is_text (s : str) : bool := forallb text_char s && accents_apart s.

(** What the code asks of the runtime on this wider alphabet: the accent is
    neither white space nor a digit; NFKC turns a no-break space into a
    space and changes nothing else where no accent follows a letter it
    composes with; the accent has no case. *)
Class UnicodeMarks (UT : Unicode) := {
  isspace_acute : isspace ACUTE = false;
  isdecimal_acute : isdecimal ACUTE = false;
  nfkc_spaced : forall s,
    forallb spaced s = true -> accents_apart s = true -> nfkc s = replace1 NBSP SPACE s;
  upper_accented : forall s, forallb accented s = true -> upper s = map plain_upper s;
  lower_accented : forall s, forallb accented s = true -> lower s = map plain_lower s;
}.

Lemma spaced_cases c :
  spaced c = true -> plain c = true \/ c = ACUTE \/ c = NBSP.
Proof.
  unfold spaced, accented, chr_eqb. rewrite !orb_true_iff, !N.eqb_eq. tauto.
Qed.

Lemma py_nfkc_spaced s :
  forallb spaced s = true -> accents_apart s = true -> py_nfkc s = replace1 NBSP SPACE s.
Proof.
  intros H _. induction s as [|c s IH]; [reflexivity|].
  simpl in H. apply andb_true_iff in H. destruct H as [Hc Hs].
  unfold py_nfkc, replace1 in *. simpl. rewrite (IH Hs). f_equal.
  apply spaced_cases in Hc. destruct Hc as [Hc|[->| ->]]; [|reflexivity|reflexivity].
  apply plain_cases in Hc. unfold py_nfkc_char, chr_eqb, NBSP. cmp_cases.
Qed.

Lemma py_upper_accented s : forallb accented s = true -> py_upper s = map plain_upper s.
Proof.
  intros H. induction s as [|c s IH]; [reflexivity|].
  simpl in H. apply andb_true_iff in H. destruct H as [Hc Hs].
  unfold py_upper in *. simpl. rewrite (IH Hs). f_equal.
  unfold accented, chr_eqb in Hc. apply orb_true_iff in Hc.
  destruct Hc as [Hc|Hc]; [|apply N.eqb_eq in Hc; subst c; reflexivity].
  apply plain_cases in Hc. unfold py_upper_char. cmp_cases.
Qed.

Lemma py_lower_accented s : forallb accented s = true -> py_lower s = map plain_lower s.
Proof.
  intros H. induction s as [|c s IH]; [reflexivity|].
  simpl in H. apply andb_true_iff in H. destruct H as [Hc Hs].
  unfold py_lower in *. simpl. rewrite (IH Hs). f_equal.
  unfold accented, chr_eqb in Hc. apply orb_true_iff in Hc.
  destruct Hc as [Hc|Hc]; [|apply N.eqb_eq in Hc; subst c; reflexivity].
  apply plain_cases in Hc. unfold py_lower_char. cmp_cases.
Qed.

Lemma py_marks : UnicodeMarks py_tables.
Proof.
  constructor.
  - reflexivity.
  - reflexivity.
  - exact py_nfkc_spaced.
  - exact py_upper_accented.
  - exact py_lower_accented.
Qed.

(** ** Errors *)

(** The exceptions the modelled code can raise or propagate. *)
Inductive exn :=
| HttpError (status : N) (message : str)
| KeyError
| ValueError
| TypeError.

Inductive result (A : Type) :=
| Ok (a : A)
| Raise (e : exn).
Arguments Ok {A} a.
Arguments Raise {A} e.

#[global] Instance result_bind : MBind result := fun A B k m =>
  match m with
  | Ok a => k a
  | Raise e => Raise e
  end.

(** ** Sorting *)

(** [list.sort] is stable, also with [reverse=True]: the result is fixed by
    the keys and the input order.  It is modelled by insertion, where [x]
    goes before the first element [y] with [before x y]. *)
Section StableSort.
Context {A : Type} (before : A -> A -> bool).

Fixpoint insert_sorted (x : A) (l : list A) : list A :=
  match l with
  | [] => [x]
  | y :: l' => if before x y then x :: l else y :: insert_sorted x l'
  end.

Definition stable_sort (l : list A) : list A := foldr insert_sorted [] l.

End StableSort.

(** [l.sort(key=key)] and [l.sort(key=key, reverse=True)] *)
Definition sort_by {A K} (leb : K -> K -> bool) (key : A -> K) (l : list A) : list A :=
  stable_sort (fun x y => leb (key x) (key y)) l.

Definition sort_by_reverse {A K} (leb : K -> K -> bool) (key : A -> K) (l : list A) : list A :=
  stable_sort (fun x y => leb (key y) (key x)) l.

(** [f] is the first element of [l] whose key is greatest. *)
Definition first_greatest {A K} (leb : K -> K -> bool) (key : A -> K) (f : A) (l : list A) : Prop :=
  exists l1 l2, l = l1 ++ f :: l2
    /\ (forall g, In g l1 -> leb (key f) (key g) = false)
    /\ (forall g, In g l2 -> leb (key g) (key f) = true).

(** Python orders tuples lexicographically. *)
Definition pair_leb (a b : nat * nat) : bool :=
  (a.1 <? b.1)%nat || ((a.1 =? b.1)%nat && (a.2 <=? b.2)%nat).

(** ** The document store *)

(** A folder as the store lists it with the fields id and name. *)
Record file := { file_id : str; file_name : str }.

(** The store answers a query, asked with a page size, by a finite run of
    pages, or fails; a failure on any page makes the whole paged read fail,
    since nothing catches it inside the paging loops. *)
Definition Drive := str -> nat -> result (list (list file)).

(** One call of [drive_search]: the first page only. *)
Definition first_page (drive : Drive) (q : str) (page_size : nat) : result (list file) :=
  pages ← drive q page_size; Ok (hd [] pages).

(** The loop that follows the page tokens to the end. *)
Definition all_pages (drive : Drive) (q : str) (page_size : nat) : result (list file) :=
  pages ← drive q page_size; Ok (concat pages).

Definition FOLDER_MIME : str := Eval vm_compute in U "application/vnd.google-apps.folder".

Definition exact_query (parent_id exact_name : str) : str :=
  U "'" ++ parent_id ++ U "' in parents and name = '" ++ exact_name ++ U "' "
  ++ U "and mimeType='" ++ FOLDER_MIME ++ U "' and trashed=false".

Definition find_folder_by_exact_name_under (drive : Drive) (parent_id exact_name : str)
  : result (option file) :=
  res ← first_page drive (exact_query parent_id exact_name) 1;
  Ok (head res).

(** [fio_norm.split(',')[0]] *)
Definition before_first_comma (s : str) : str := hd [] (split_on (ch ",") s).

Definition fuzzy_query (parent_id fio_norm : str) : str :=
  U "'" ++ parent_id ++ U "' in parents and mimeType='" ++ FOLDER_MIME ++ U "' "
  ++ U "and name contains '" ++ before_first_comma fio_norm ++ U "' and trashed=false".

Definition by_name_length (f : file) : nat := length (file_name f).

(** [seen.setdefault(f["id"], f)]; the dictionary keeps insertion order. *)
Definition setdefault (seen : list (str * file)) (f : file) : list (str * file) :=
  if existsb (fun kv => str_eqb kv.1 (file_id f)) seen then seen
  else seen ++ [(file_id f, f)].

Definition seen_values (items : list file) : list file :=
  map snd (fold_left setdefault items []).

Section FolderSearch.
Context {UT : Unicode}.

Definition keeps_phone (phone_last9 : str) (f : file) : bool :=
  contains phone_last9 (keep isdecimal (file_name f)).

Definition find_folder_by_fuzzy (drive : Drive) (parent_id fio_norm phone_last9 : str)
  : result (option file) :=
  items ← all_pages drive (fuzzy_query parent_id fio_norm) 100;
  let items :=
    if is_empty phone_last9 then items
    else List.filter (keeps_phone phone_last9) items in
  Ok (head (sort_by_reverse Nat.leb by_name_length items)).

Definition phone_patterns (last9 : str) : list str :=
  let op2 := slice_to 2 last9 in
  let mid3 := slice 2 5 last9 in
  let last4 := slice 5 9 last9 in
  [ op2 ++ U " " ++ mid3 ++ U " " ++ last4;
    mid3 ++ U " " ++ last4;
    last4;
    last9;
    U "+380 " ++ op2 ++ U " " ++ mid3 ++ U " " ++ last4;
    U "+380" ++ op2 ++ mid3 ++ last4 ].

Definition phone_query (parent_id e164 : str) : str :=
  let digits := keep isdecimal e164 in
  let last9 := slice_last 9 digits in
  let conds :=
    join (U " or ")
      (map (fun p => U "name contains '" ++ p ++ U "'")
         (List.filter (fun p => negb (char_in p (ch "'"))) (phone_patterns last9))) in
  U "'" ++ parent_id ++ U "' in parents and mimeType='" ++ FOLDER_MIME ++ U "' "
  ++ U "and trashed=false and (" ++ conds ++ U ")".

(** The test [cand and normalize_phone_e164_ua(cand) == e164]. *)
Definition phone_confirmed (e164 : str) (f : file) : bool :=
  match _extract_e164_from_title (file_name f) with
  | Some cand => negb (is_empty cand) && str_eqb (normalize_phone_e164_ua cand) e164
  | None => false
  end.

(** The inner function [tokens] of [find_folder_by_phone]. *)
Definition tokens (s : str) : gset str :=
  list_to_set (split_ws isspace (normalize_spaces (before_first_comma s))).

Definition overlap_key (exp : gset str) (f : file) : nat * nat :=
  (size (tokens (file_name f) ∩ exp), length (file_name f)).

(** [expected_fio] is [None] or a string; the empty string is falsy too. *)
Definition find_folder_by_phone (drive : Drive) (parent_id phone_e164 : str)
    (expected_fio : option str) : result (option file) :=
  let e164 := normalize_phone_e164_ua phone_e164 in
  items ← all_pages drive (phone_query parent_id e164) 100;
  let matched := List.filter (phone_confirmed e164) (seen_values items) in
  match matched with
  | [] => Ok None
  | _ =>
      let no_fio := match expected_fio with None => true | Some s => is_empty s end in
      if (length matched =? 1)%nat || no_fio then
        Ok (head (sort_by_reverse Nat.leb by_name_length matched))
      else
        let exp := tokens (default [] expected_fio) in
        Ok (head (sort_by_reverse pair_leb (overlap_key exp) matched))
  end.

Definition find_client_folder_strict (drive : Drive) (root_folder_id expected_title phone_e164 : str)
  : result (option file) :=
  exact ← find_folder_by_exact_name_under drive root_folder_id expected_title;
  match exact with
  | Some f => Ok (Some f)
  | None =>
      let fio_only := normalize_folder_title_for_compare expected_title in
      let last9 := slice_last 9 (keep isdecimal phone_e164) in
      fuzzy ← find_folder_by_fuzzy drive root_folder_id fio_only last9;
      match fuzzy with
      | Some f => Ok (Some f)
      | None => find_folder_by_phone drive root_folder_id phone_e164 (Some expected_title)
      end
  end.

(** The candidates of the phone tier that pass the phone test: the list
    [matched] of [find_folder_by_phone]. *)
Definition phone_matched (drive : Drive) (parent_id phone_e164 : str) : result (list file) :=
  let e164 := normalize_phone_e164_ua phone_e164 in
  items ← all_pages drive (phone_query parent_id e164) 100;
  Ok (List.filter (phone_confirmed e164) (seen_values items)).

(** A candidate of the fuzzy tier is kept when no phone suffix is given or
    when the digits of its name contain the suffix. *)
Definition fuzzy_kept (phone_last9 : str) (g : file) : Prop :=
  phone_last9 = [] \/ contains phone_last9 (keep isdecimal (file_name g)) = true.

(** The candidate tokens as the claim C10 words them: lowercased. *)
Definition lowercase_tokens (s : str) : gset str :=
  list_to_set (map lower (split_ws isspace (normalize_spaces (before_first_comma s)))).

(** The surname token as the claim C5 words it: the first token, delimited
    by white space, of the name part of the canonicalized expected title. *)
Definition surname_token (expected_title : str) : str :=
  hd [] (split_ws isspace
           (before_first_comma (normalize_folder_title_for_compare expected_title))).

End FolderSearch.

(** ** The store's side of a query *)

(** The code writes a query as text and the store reads it.  This is the
    part of the query language of the store that the queries of the code
    use: a string value stands between single quotes, and inside it a
    quote or a backslash is written with a backslash before it; conditions
    are joined by [and]; a group in parentheses joins conditions by [or]. *)
Inductive token :=
| TLit (s : str)
| TWord (s : str)
| TEq
| TOpen
| TClose.

Inductive lex_state :=
| Between
| InWord (acc : str)
| InLit (acc : str)
| Escaped (acc : str).

Definition QUOTE : char := 39%N.
Definition BACKSLASH : char := 92%N.

(** The tokens read so far, the latest first, with a word that has ended. *)
Definition end_word (ts : list token) (st : lex_state) : list token :=
  match st with
  | InWord acc => TWord (rev acc) :: ts
  | _ => ts
  end.

Definition lex_step (x : list token * lex_state) (c : char) : list token * lex_state :=
  let '(ts, st) := x in
  match st with
  | InLit acc =>
      if chr_eqb c QUOTE then (TLit (rev acc) :: ts, Between)
      else if chr_eqb c BACKSLASH then (ts, Escaped acc)
      else (ts, InLit (c :: acc))
  | Escaped acc => (ts, InLit (c :: acc))
  | Between | InWord _ =>
      if chr_eqb c 32%N then (end_word ts st, Between)
      else if chr_eqb c QUOTE then (end_word ts st, InLit [])
      else if chr_eqb c (ch "=") then (TEq :: end_word ts st, Between)
      else if chr_eqb c (ch "(") then (TOpen :: end_word ts st, Between)
      else if chr_eqb c (ch ")") then (TClose :: end_word ts st, Between)
      else (ts, InWord (c :: match st with InWord acc => acc | _ => [] end))
  end.

(** The tokens of a text; none when a string value is not closed. *)
Definition lex (q : str) : option (list token) :=
  let '(ts, st) := fold_left lex_step q ([], Between) in
  match st with
  | InLit _ | Escaped _ => None
  | _ => Some (rev (end_word ts st))
  end.

Inductive cond :=
| InParents (id : str)
| NameIs (name : str)
| NameContains (text : str)
| MimeTypeIs (m : str)
| TrashedIs (b : bool).

Inductive clause :=
| One (c : cond)
| AnyOf (cs : list cond).

Definition is_word (w : str) (t : token) : bool :=
  match t with
  | TWord s => str_eqb s w
  | _ => false
  end.

Definition read_cond (ts : list token) : option cond :=
  match ts with
  | [TLit x; TWord w1; TWord w2] =>
      if str_eqb w1 (U "in") && str_eqb w2 (U "parents") then Some (InParents x) else None
  | [TWord f; TEq; TLit x] =>
      if str_eqb f (U "name") then Some (NameIs x)
      else if str_eqb f (U "mimeType") then Some (MimeTypeIs x)
      else None
  | [TWord f; TWord op; TLit x] =>
      if str_eqb f (U "name") && str_eqb op (U "contains") then Some (NameContains x)
      else None
  | [TWord f; TEq; TWord v] =>
      if str_eqb f (U "trashed") then
        if str_eqb v (U "false") then Some (TrashedIs false)
        else if str_eqb v (U "true") then Some (TrashedIs true)
        else None
      else None
  | _ => None
  end.

(** The runs of a list between the elements of a class. *)
Fixpoint split_by {A} (sep : A -> bool) (l : list A) : list (list A) :=
  match l with
  | [] => [[]]
  | x :: l' =>
      if sep x then [] :: split_by sep l'
      else match split_by sep l' with
           | [] => [[x]]
           | w :: ws => (x :: w) :: ws
           end
  end.

Definition read_clause (ts : list token) : option clause :=
  match ts with
  | TOpen :: rest =>
      match rev rest with
      | TClose :: inner =>
          cs ← mapM read_cond (split_by (is_word (U "or")) (rev inner)); Some (AnyOf cs)
      | _ => None
      end
  | _ => c ← read_cond ts; Some (One c)
  end.

Definition read_query (q : str) : option (list clause) :=
  ts ← lex q; mapM read_clause (split_by (is_word (U "and")) ts).

(** What the store holds of a file: the fields it lists, the folders the
    file lies in, its type, and whether it is in the bin. *)
Record entry := {
  listed : file;
  parents : list str;
  mime_type : str;
  trashed : bool;
}.

(** The pages of a listing, [n] files to a page. *)
Fixpoint chunks_fuel {A} (fuel n : nat) (l : list A) : list (list A) :=
  match fuel with
  | O => []
  | S fuel' =>
      match l with
      | [] => []
      | _ => take n l :: chunks_fuel fuel' n (drop n l)
      end
  end.

Definition chunks {A} (n : nat) (l : list A) : list (list A) := chunks_fuel (length l) n l.

Section Store.
(** How the store matches the operator [contains]. *)
Variable name_contains : str -> str -> bool.

Definition holds (c : cond) (e : entry) : bool :=
  match c with
  | InParents id => existsb (str_eqb id) (parents e)
  | NameIs name => str_eqb (file_name (listed e)) name
  | NameContains text => name_contains text (file_name (listed e))
  | MimeTypeIs m => str_eqb (mime_type e) m
  | TrashedIs b => Bool.eqb (trashed e) b
  end.

Definition satisfies (e : entry) (cl : clause) : bool :=
  match cl with
  | One c => holds c e
  | AnyOf cs => existsb (fun c => holds c e) cs
  end.

(** A store that holds [entries]: it answers a text it can read by the
    files that satisfy every condition, in the order it holds them, and a
    text it cannot read by the error of a bad request. *)
Definition store_drive (entries : list entry) : Drive := fun q page_size =>
  match read_query q with
  | None => Raise (HttpError 400 (U "Invalid Value"))
  | Some cls =>
      Ok (chunks page_size
            (map listed (List.filter (fun e => forallb (satisfies e) cls) entries)))
  end.

End Store.

(** ** Stage history *)

(** Time is counted in microseconds.  A [datetime] is its wall-clock
    reading and, when it is aware, its offset from UTC. *)
Record datetime := { wall : Z; tzinfo : option Z }.

Definition timedelta := Z.

Definition utc_instant (d : datetime) : Z := (wall d - default 0 (tzinfo d))%Z.

(** [a - b]: aware and naive values do not mix. *)
Definition datetime_sub (a b : datetime) : result timedelta :=
  match tzinfo a, tzinfo b with
  | None, None => Ok (wall a - wall b)%Z
  | Some oa, Some ob => Ok ((wall a - oa) - (wall b - ob))%Z
  | _, _ => Raise TypeError
  end.

(** [datetime.now(tz)] when the clock reads [clock] (UTC). *)
Definition datetime_now (clock : Z) (tz : Z) : datetime :=
  {| wall := (clock + tz)%Z; tzinfo := Some tz |}.

(** A row of the stage log; a field is [None] when the key is absent. *)
Record row := { STAGE_ID : option str; CREATED_TIME : option str }.

Record segment := {
  stage_id : option str;
  seg_start : datetime;
  seg_end : datetime;
  duration : timedelta;
}.

Definition opt_str_eqb (a b : option str) : bool :=
  match a, b with
  | None, None => true
  | Some x, Some y => str_eqb x y
  | _, _ => false
  end.

(** The loop of [get_deal_stage_history] over the sorted rows. *)
Fixpoint drop_repeats (prev_sid : option str) (items : list row) : list row :=
  match items with
  | [] => []
  | r :: rest =>
      let sid := STAGE_ID r in
      if opt_str_eqb sid prev_sid then drop_repeats prev_sid rest
      else r :: drop_repeats sid rest
  end.

Definition created_key (r : row) : str := default [] (CREATED_TIME r).

(** [get_deal_stage_history] from the rows the record system returned. *)
Definition get_deal_stage_history (items : list row) (limit : nat) : list row :=
  let items := take limit items in
  let items := sort_by str_leb created_key items in
  drop_repeats None items.



Definition event (sid ts : str) : row := {| STAGE_ID := Some sid; CREATED_TIME := Some ts |}.

Section StageSegments.
(** [datetime.fromisoformat]; [None] stands for its [ValueError]. *)
Variable fromisoformat : str -> option datetime.
(** The reading of the clock when the last segment is built. *)
Variable clock : Z.

Definition _parse_iso (ts : option str) : result datetime :=
  let ts := replace1 (ch "Z") (U "+00:00") (default [] ts) in
  match fromisoformat ts with
  | Some d => Ok d
  | None => Raise ValueError
  end.

Fixpoint compute_stage_segments (rows : list row) : result (list segment) :=
  match rows with
  | [] => Ok []
  | r :: rest =>
      start ← _parse_iso (CREATED_TIME r);
      end_ ← match rest with
              | next :: _ =>
                  match CREATED_TIME next with
                  | Some ts => _parse_iso (Some ts)
                  | None => Raise KeyError
                  end
              | [] => Ok (datetime_now clock (default 0%Z (tzinfo start)))
              end;
      d ← datetime_sub end_ start;
      segs ← compute_stage_segments rest;
      Ok ({| stage_id := STAGE_ID r; seg_start := start; seg_end := end_; duration := d |}
            :: segs)
  end.

End StageSegments.

(** [a / b] for positive integers [a] and [b], as Python computes it: the
    float nearest to the quotient, a tie going to the even mantissa.  A
    float is given by a mantissa [m] and an exponent [e] and stands for
    [m * 2 ^ e]; the mantissa of a quotient lies between [2 ^ 52] and
    [2 ^ 53].  The quotients of a [timedelta] are far from both ends of the
    range of the floats, where the exponent is bounded. *)
Definition nearest_even (n d : Z) : Z :=
  let q := (n / d)%Z in
  let r := (n mod d)%Z in
  if (2 * r <? d)%Z then q
  else if (d <? 2 * r)%Z then (q + 1)%Z
  else if Z.even q then q else (q + 1)%Z.

Definition scaled_num (a e : Z) : Z := if (0 <=? e)%Z then a else (a * 2 ^ (- e))%Z.
Definition scaled_den (b e : Z) : Z := if (0 <=? e)%Z then (b * 2 ^ e)%Z else b.

Definition true_divide (a b : Z) : Z * Z :=
  let e0 := (Z.log2 a - Z.log2 b - 52)%Z in
  let e :=
    if (scaled_num a e0 <? 2 ^ 52 * scaled_den b e0)%Z then (e0 - 1)%Z else e0 in
  (nearest_even (scaled_num a e) (scaled_den b e), e).

(** [td.total_seconds()]: the microseconds of the duration divided by
    [10 ** 6]. *)
Definition total_seconds (td : timedelta) : Z * Z :=
  match td with
  | Z0 => (0, 0)%Z
  | Zpos _ => true_divide td 1000000
  | Zneg _ => let '(m, e) := true_divide (- td) 1000000 in ((- m)%Z, e)
  end.

(** [max(x, 0)] and [int(x)] for a float [x]. *)
Definition max_zero (x : Z * Z) : Z * Z := if (x.1 <? 0)%Z then (0, 0)%Z else x.

Definition int_of_float (x : Z * Z) : Z :=
  let '(m, e) := x in
  if (0 <=? e)%Z then (m * 2 ^ e)%Z else Z.quot m (2 ^ (- e)).

(** [int(max(td.total_seconds(), 0))] *)
Definition total_seconds_floor0 (td : timedelta) : N :=
  Z.to_N (int_of_float (max_zero (total_seconds td))).

Definition _fmt_tdelta (td : timedelta) : str :=
  let total := total_seconds_floor0 td in
  let d := (total / 86400)%N in
  let rem := (total mod 86400)%N in
  let h := (rem / 3600)%N in
  let rem := (rem mod 3600)%N in
  let m := (rem / 60)%N in
  let parts := [] in
  let parts := if (d =? 0)%N then parts else parts ++ [str_of_N d ++ U " д"] in
  let parts := if (h =? 0)%N then parts else parts ++ [str_of_N h ++ U " год"] in
  let parts :=
    if negb (m =? 0)%N || match parts with [] => true | _ => false end
    then parts ++ [str_of_N m ++ U " хв"] else parts in
  join SPACE parts.

(** *** A reader of timestamps *)

Definition digit_val (c : char) : option Z :=
  if plain_digit c then Some (Z.of_N c - 48)%Z else None.

Fixpoint number (s : str) (acc : Z) : option Z :=
  match s with
  | [] => Some acc
  | c :: s' => match digit_val c with
               | Some v => number s' (acc * 10 + v)%Z
               | None => None
               end
  end.

Definition is_leap (y : Z) : bool :=
  ((y mod 4 =? 0) && negb (y mod 100 =? 0) || (y mod 400 =? 0))%Z.

Definition days_in_month (y m : Z) : Z :=
  if (m =? 2)%Z then (if is_leap y then 29 else 28)%Z
  else if ((m =? 4) || (m =? 6) || (m =? 9) || (m =? 11))%Z then 30%Z
  else 31%Z.

(** Days from 1970-01-01 to a date of the proleptic Gregorian calendar. *)
Definition days_from_civil (y m d : Z) : Z :=
  let y' := (if m <=? 2 then y - 1 else y)%Z in
  let era := (y' / 400)%Z in
  let yoe := (y' - era * 400)%Z in
  let mp := ((m + 9) mod 12)%Z in
  let doy := ((153 * mp + 2) / 5 + d - 1)%Z in
  let doe := (yoe * 365 + yoe / 4 - yoe / 100 + doy)%Z in
  (era * 146097 + doe - 719468)%Z.

Definition seconds_us (s : Z) : Z := (s * 1000000)%Z.

(** The part of [datetime.fromisoformat] that reads timestamps of the shape
    YYYY-MM-DDTHH:MM:SS followed by an optional offset +HH:MM or -HH:MM,
    the shape the record system writes. *)
Definition py_fromisoformat (s : str) : option datetime :=
  let field i j := number (slice i j s) 0%Z in
  let sep i c := str_eqb (slice i (S i) s) [c] in
  if negb ((19 <=? length s)%nat && sep 4%nat (ch "-") && sep 7%nat (ch "-")
           && sep 10%nat (ch "T") && sep 13%nat (ch ":") && sep 16%nat (ch ":"))
  then None
  else
    match field 0%nat 4%nat, field 5%nat 7%nat, field 8%nat 10%nat,
          field 11%nat 13%nat, field 14%nat 16%nat, field 17%nat 19%nat with
    | Some y, Some mo, Some d, Some h, Some mi, Some sec =>
        if negb ((1 <=? y) && (1 <=? mo) && (mo <=? 12) && (1 <=? d)
                 && (d <=? days_in_month y mo) && (h <? 24) && (mi <? 60) && (sec <? 60))%Z
        then None
        else
          let w := seconds_us (((days_from_civil y mo d * 24 + h) * 60 + mi) * 60 + sec) in
          if (length s =? 19)%nat then Some {| wall := w; tzinfo := None |}
          else if negb ((length s =? 25)%nat && sep 22%nat (ch ":")) then None
          else
            match field 20%nat 22%nat, field 23%nat 25%nat with
            | Some oh, Some om =>
                if negb ((oh <? 24) && (om <? 60))%Z then None
                else
                  let off := seconds_us ((oh * 60 + om) * 60) in
                  if sep 19%nat (ch "+") then Some {| wall := w; tzinfo := Some off |}
                  else if sep 19%nat (ch "-") then Some {| wall := w; tzinfo := Some (- off)%Z |}
                  else None
            | _, _ => None
            end
    | _, _, _, _, _, _ => None
    end.

(** ** The request handler *)

Section Handler.
Context {UT : Unicode}.

(** The test at the head of [handle_check]: the normalized phone has fewer
    than twelve digits, and the handler answers with the format prompt. *)
Definition phone_too_short (raw_phone : str) : bool :=
  let phone := normalize_phone_e164_ua raw_phone in
  (length (keep isdecimal phone) <? 12)%nat.

End Handler.

(** ** The plan file *)

(** A file as the store lists it with the fields id, name and mimeType; the
    type is [None] when the listing leaves it out. *)
Record document := { doc_id : str; doc_name : str; mimeType : option str }.

(** The store answering a query for files, as [Drive] does for folders. *)
Definition Documents := str -> nat -> result (list (list document)).

(** One call of [drive_search]: the first page only. *)
Definition first_documents (drive : Documents) (q : str) (page_size : nat)
  : result (list document) :=
  pages ← drive q page_size; Ok (hd [] pages).

Definition DOCX_MIME : str :=
  Eval vm_compute in
    U "application/vnd.openxmlformats-officedocument.wordprocessingml.document".
Definition GDOC_MIME : str := Eval vm_compute in U "application/vnd.google-apps.document".

Definition target_exact : str := Eval vm_compute in U "Б. План Вашого звільнення.docx".

Definition plan_exact_query (folder_id : str) : str :=
  U "'" ++ folder_id ++ U "' in parents and name = '" ++ target_exact
  ++ U "' and trashed=false and mimeType != 'application/vnd.google-apps.folder'".

Definition plan_contains_query (folder_id : str) : str :=
  U "'" ++ folder_id
  ++ U "' in parents and name contains 'План Вашого звільнення' and trashed=false and mimeType != 'application/vnd.google-apps.folder'".

(** The dictionary [pref] and the sort key: the preference of the type of
    the file, the empty string when the listing leaves the type out, and 1
    for a type that is not in the dictionary. *)
Definition pref : gmap str nat := {[ DOCX_MIME := 3%nat; GDOC_MIME := 2%nat ]}.

Definition preference (f : document) : nat :=
  default 1%nat (pref !! default [] (mimeType f)).

Definition find_plan_file (drive : Documents) (folder_id : str) : result (option document) :=
  res ← first_documents drive (plan_exact_query folder_id) 5;
  match res with
  | f :: _ => Ok (Some f)
  | [] =>
      res ← first_documents drive (plan_contains_query folder_id) 20;
      match res with
      | [] => Ok None
      | _ => Ok (head (sort_by_reverse Nat.leb preference res))
      end
  end.

(** ** The CRM *)

(** What the CRM side can raise: [RuntimeError] with its message, an error
    of the HTTP library, or one of the built-in exceptions. *)
Inductive crm_exn :=
| RuntimeError (msg : str)
| RequestException
| Builtin (e : exn).

Inductive outcome (A : Type) :=
| Return (a : A)
| Throw (e : crm_exn).
Arguments Return {A} a.
Arguments Throw {A} e.

#[global] Instance outcome_bind : MBind outcome := fun A B k m =>
  match m with
  | Return a => k a
  | Throw e => Throw e
  end.

(** *** Pieces of patterns *)

Fixpoint take_while {A} (p : A -> bool) (l : list A) : list A :=
  match l with
  | [] => []
  | x :: l' => if p x then x :: take_while p l' else []
  end.

(** The rest of [s] after the literal [p], when [s] starts with it. *)
Definition after_literal (p s : str) : option str :=
  if startswith p s then Some (drop (length p) s) else None.

(** A class repeated one or more times, greedily: the run and the rest. *)
Definition one_or_more (cls : char -> bool) (s : str) : option (str * str) :=
  let run := take_while cls s in
  if is_empty run then None else Some (run, drop_while cls s).

Definition SLASH : char := Eval vm_compute in ch "/".

Definition not_slash (c : char) : bool := negb (chr_eqb c SLASH).

(** *** The base address *)

Section Bitrix.
Context {UT : Unicode}.
(** The settings read from the environment when the module is loaded. *)
Variables BITRIX_WEBHOOK_BASE BITRIX_CONTACT_URL : str.

(** [re.match] of the pattern of [_b24_base]: the scheme, a host without
    slash, the literal /rest/, decimal digits, a slash, a key without slash
    and a slash; the result is the text matched.  A greedy run is followed
    by a character outside its class, so no shorter run can match. *)
Definition match_rest_base (url : str) : option str :=
  r ← after_literal (U "https://") url;
  '(host, r) ← one_or_more not_slash r;
  r ← after_literal (U "/rest/") r;
  '(user, r) ← one_or_more isdecimal r;
  r ← after_literal (U "/") r;
  '(key, r) ← one_or_more not_slash r;
  _ ← after_literal (U "/") r;
  Some (U "https://" ++ host ++ U "/rest/" ++ user ++ U "/" ++ key ++ U "/").

Definition _b24_base : outcome str :=
  if negb (is_empty BITRIX_WEBHOOK_BASE) then
    Return (rstrip (fun c => chr_eqb c SLASH) BITRIX_WEBHOOK_BASE ++ U "/")
  else
    match match_rest_base BITRIX_CONTACT_URL with
    | None => Throw (RuntimeError (U "Не удалось определить базовый URL Bitrix"))
    | Some m => Return m
    end.

(** [re.match] of the pattern of [_b24_domain]: the scheme and a host
    without slash, followed by a slash. *)
Definition match_domain (base : str) : option str :=
  r ← after_literal (U "https://") base;
  '(host, r) ← one_or_more not_slash r;
  _ ← after_literal (U "/") r;
  Some (U "https://" ++ host).

Definition _b24_domain : outcome str :=
  base ← _b24_base;
  match match_domain base with
  | None => Throw (RuntimeError (U "Не удалось определить домен Bitrix"))
  | Some m => Return m
  end.

End Bitrix.

(** ** Contacts *)

(** A member of a JSON object: left out, null, or a value. *)
Inductive member (A : Type) :=
| Absent
| Null
| Value (a : A).
Arguments Absent {A}.
Arguments Null {A}.
Arguments Value {A} a.

Record phone_entry := { VALUE : member str }.

(** A contact of the CRM with the fields the code reads.  A name field is
    [None] when it is left out or null, which the code does not tell apart. *)
Record contact := {
  ID : str;
  LAST_NAME : option str;
  NAME : option str;
  SECOND_NAME : option str;
  PHONE : member (list phone_entry);
}.

Section Contacts.
Context {UT : Unicode}.
Variables BITRIX_WEBHOOK_BASE BITRIX_CONTACT_URL : str.
(** The GET request for the contact list, with [raise_for_status] and
    [json]: from the address and the phone of the filter to the list under
    the key result, which is empty when the key is left out. *)
Variable get_contacts : str -> str -> outcome (list contact).

Definition build_fio_from_contact (c : contact) : str :=
  let last := normalize_fio_string (default [] (LAST_NAME c)) in
  let first := normalize_fio_string (default [] (NAME c)) in
  let middle := normalize_fio_string (default [] (SECOND_NAME c)) in
  let parts := List.filter (fun p => negb (is_empty p)) [last; first; middle] in
  strip isspace (join SPACE parts).

(** The member PHONE of a contact, the empty list when it is left out,
    ready to be iterated. *)
Definition phones_of (c : contact) : outcome (list phone_entry) :=
  match PHONE c with
  | Absent => Return []
  | Null => Throw (Builtin TypeError)
  | Value phs => Return phs
  end.

(** The digits of the member VALUE of a phone, the empty string when it is
    left out, compared with the wanted digits. *)
Definition phone_is (want : str) (ph : phone_entry) : outcome bool :=
  match VALUE ph with
  | Absent => Return (str_eqb (keep isdecimal []) want)
  | Null => Throw (Builtin TypeError)
  | Value v => Return (str_eqb (keep isdecimal v) want)
  end.

(** The inner loop of [find_contact_by_phone]. *)
Fixpoint has_phone (want : str) (phs : list phone_entry) : outcome bool :=
  match phs with
  | [] => Return false
  | ph :: rest =>
      hit ← phone_is want ph;
      match hit with
      | true => Return true
      | false => has_phone want rest
      end
  end.

(** The outer loop of [find_contact_by_phone]. *)
Fixpoint first_with_phone (want : str) (result : list contact) : outcome (option contact) :=
  match result with
  | [] => Return None
  | c :: rest =>
      phs ← phones_of c;
      hit ← has_phone want phs;
      match hit with
      | true => Return (Some c)
      | false => first_with_phone want rest
      end
  end.

(** The address the request goes to. *)
Definition contact_list_url : outcome str :=
  if negb (is_empty BITRIX_CONTACT_URL) then Return BITRIX_CONTACT_URL
  else
    base ← _b24_base BITRIX_WEBHOOK_BASE BITRIX_CONTACT_URL;
    Return (base ++ U "crm.contact.list.json").

Definition find_contact_by_phone (phone : str) : outcome (option contact) :=
  let norm := normalize_phone_e164_ua phone in
  url ← contact_list_url;
  result ← get_contacts url norm;
  match result with
  | [] => Return None
  | _ =>
      let want := keep isdecimal norm in
      first_with_phone want result
  end.

End Contacts.

(** ** Stage names *)

(** A stage of a pipeline as the CRM lists it, with its members STATUS_ID
    and NAME; a field is [None] when the member is left out, and reading it
    raises [KeyError]. *)
Record stage_item := { STATUS_ID : option str; ITEM_NAME : option str }.

(** The dictionary comprehension of [get_stage_map_for_category]: a later
    item replaces an earlier one with the same status id. *)
Fixpoint stage_map_of (items : list stage_item) (acc : gmap str str)
  : outcome (gmap str str) :=
  match items with
  | [] => Return acc
  | it :: rest =>
      match STATUS_ID it, ITEM_NAME it with
      | Some k, Some v => stage_map_of rest (<[k := v]> acc)
      | _, _ => Throw (Builtin KeyError)
      end
  end.

(** The cache [_STAGE_MAP_CACHE]: from the number of a pipeline to its map
    from status ids to names. *)
Definition stage_cache := gmap N (gmap str str).

Definition DASH : str := Eval vm_compute in U "—".

Section StageNames.
Context {UT : Unicode}.
(** [int] on a run of decimal digits. *)
Variable int : str -> N.
(** The call of the method crm.dealcategory.stage.list for a pipeline,
    through [b24_post]. *)
Variable stage_list : N -> outcome (list stage_item).

Definition get_stage_map_for_category (category_id : N) : outcome (gmap str str) :=
  items ← stage_list category_id;
  stage_map_of items ∅.

(** [re.match] of the pattern of [_stage_name_by_sid]: the letter C,
    decimal digits and a colon; the result is the digits. *)
Definition match_category (stage_id : str) : option str :=
  r ← after_literal (U "C") stage_id;
  '(digits, r) ← one_or_more isdecimal r;
  _ ← after_literal (U ":") r;
  Some digits.

(** [_stage_name_by_sid] from the cache before the call to the answer and
    the cache after it. *)
Definition _stage_name_by_sid (cache : stage_cache) (stage_id : option str)
  : outcome str * stage_cache :=
  match stage_id with
  | None | Some [] => (Return DASH, cache)
  | Some sid =>
      match match_category sid with
      | None => (Return sid, cache)
      | Some digits =>
          let cat := int digits in
          match cache !! cat with
          | Some names => (Return (default sid (names !! sid)), cache)
          | None =>
              match get_stage_map_for_category cat with
              | Throw e => (Throw e, cache)
              | Return names => (Return (default sid (names !! sid)), <[cat := names]> cache)
              end
          end
      end
  end.

End StageNames.

(** ** Routing *)

(** The letters of the word check under [re.IGNORECASE]: each letter of the
    pattern matches itself and its capital, and k also the Kelvin sign. *)
Definition CHECK_WORD : list str :=
  Eval vm_compute in [U "cC"; U "hH"; U "eE"; U "cC"; U "kK" ++ [8490%N]].

(** The rest of the text after a word given by the characters allowed at
    each place. *)
Fixpoint match_word (word : list str) (s : str) : option str :=
  match word, s with
  | [], _ => Some s
  | set :: word', c :: s' => if char_in set c then match_word word' s' else None
  | _ :: _, [] => None
  end.

Definition not_lf (c : char) : bool := negb (chr_eqb c LF).

(** The end anchor without the multi-line flag: the end of the text, or the
    place before a line feed that ends it. *)
Definition at_end (s : str) : bool := is_empty s || str_eqb s [LF].

(** The end of the pattern of [CHECK_RX] on the text after the word: white
    space, at least one character, and the group of characters other than
    the line feed up to the end.  The white space is tried with [k]
    characters first and then with fewer, down to one; with the white space
    fixed, the group is the longest run without line feed, since a shorter
    one does not reach the end. *)
Fixpoint match_argument (k : nat) (s : str) : option str :=
  match k with
  | O => None
  | S k' =>
      let r := drop k s in
      let group := take_while not_lf r in
      if negb (is_empty group) && at_end (drop_while not_lf r) then Some group
      else match_argument k' s
  end.

Section Routing.
Context {UT : Unicode}.

(** [CHECK_RX.match(msg)]: the group when the text matches.  Leading white
    space and an optional slash come before the word; neither can be given
    back to match the word, which starts with a letter. *)
Definition CHECK_RX (msg : str) : option str :=
  let s := drop_while isspace msg in
  let s := match s with
           | c :: s' => if chr_eqb c SLASH then s' else s
           | [] => s
           end in
  s ← match_word CHECK_WORD s;
  match_argument (length (take_while isspace s)) s.

(** What a handler does with an update: it answers with the format prompt,
    or it calls [handle_check] with a phone. *)
Inductive action :=
| Prompt
| HandleCheck (raw_phone : str).

(** [on_text] from the text of the message, [None] when the message has no
    text; the result is [None] when the handler does nothing. *)
Definition on_text (text : option str) : option action :=
  let msg := default [] text in
  group ← CHECK_RX msg;
  Some (HandleCheck (strip isspace group)).

(** [on_check_cmd] from the arguments of the command. *)
Definition on_check_cmd (args : list str) : action :=
  let raw := match args with [] => [] | _ => join SPACE args end in
  if is_empty raw then Prompt else HandleCheck raw.

End Routing.

(** ** Notions used in the proofs *)

(** A string whose first and last characters are outside a class; [strip]
    leaves it as it is. *)
Definition ends_outside (cls : char -> bool) (s : str) : Prop :=
  (forall c, head s = Some c -> cls c = false)
  /\ (forall c, last s = Some c -> cls c = false).

(** One character through [_unify_apostrophes]. *)
Definition unify_char (c : char) : char :=
  fold_left (fun c a => if chr_eqb c a then 39%N else c) APOSTROPHES c.

(** The characters of a canonical name token: plain, and neither white
    space, nor one of the separators the normalizer removes, nor a grave
    accent. *)
Definition wordchar (c : char) : bool :=
  plain c && negb (chr_eqb c 96%N) && negb (plain_space c) && negb (is_punct c).

(** The same class by its ranges. *)
Definition wordchar_spec (c : char) : Prop :=
  ((c < 128 \/ (1024 <= c /\ c <= 1119) \/ c = 1168 \/ c = 1169)
   /\ c <> 96 /\ (c < 9 \/ 13 < c) /\ (c < 28 \/ 32 < c)
   /\ c <> 44 /\ c <> 46 /\ c <> 59)%N.

Abbreviation wordchars := (Forall (fun c => wordchar c = true)).

(** The characters of a piece between apostrophes inside a piece between
    hyphens. *)
Definition inner_char (c : char) : Prop := wordchar c = true /\ c <> 45%N.

(** A canonical name token: not empty, made of word characters. *)
Definition word (t : str) : Prop := t <> [] /\ wordchars t.

(** The characters after [_unify_apostrophes]. *)
Definition unified (c : char) : Prop := plain c = true /\ c <> 96%N.

(** [f] applied to each piece between the separators. *)
Definition map_pieces (sep : char) (f : str -> str) (s : str) : str :=
  join [sep] (map f (split_on sep s)).

Section ProofNotions.
Context {UT : Unicode}.

(** The characters after the last step of [normalize_fio_string] before the
    split into tokens. *)
Definition tidy (c : char) : Prop :=
  unified c /\ (isspace c = true -> c = 32%N) /\ is_punct c = false.

(** The two levels of [_smart_title]. *)
Definition title_apostrophe_pieces (p : str) : str := map_pieces 39%N title_part p.
Definition title_hyphen_pieces (t : str) : str := map_pieces 45%N title_apostrophe_pieces t.

(** The tokens [normalize_fio_string] title-cases and joins. *)
Definition fio_tokens (raw : str) : list str :=
  let s := normalize_spaces (_unify_apostrophes raw) in
  let s := sub_runs is_punct SPACE s in
  let s := normalize_spaces s in
  List.filter (fun t => negb (is_empty t)) (split_on (ch " ") s).

(** The normalized name is made of canonical tokens that title-casing
    leaves alone. *)
Definition canonical_tokens (ws : list str) : Prop :=
  Forall word ws /\ Forall (fun w => _smart_title w = w) ws.

End ProofNotions.

(** *** Folders, contacts, segments and letters *)

(** The dictionary of the phone tier maps each key to a folder with that
    id, and holds no key twice. *)
Definition seen_ok (seen : list (str * file)) : Prop :=
  Forall (fun kv => kv.1 = file_id kv.2) seen /\ NoDup (map fst seen).

(** [g] is the first of [items] with its id. *)
Definition first_listing (g : file) (items : list file) : Prop :=
  exists l1 l2, items = l1 ++ g :: l2 /\ Forall (fun h => file_id h <> file_id g) l1.

(** A contact holds the wanted digits when one of its phones, with
    everything but its digits removed, is the wanted text. *)
Definition holds_phone {UT : Unicode} (want : str) (c : contact) : Prop :=
  exists phs v, PHONE c = Value phs
                /\ In {| VALUE := Value v |} phs
                /\ keep isdecimal v = want.

(** Every phone of the contact is stored with digits that start with the
    trunk zero. *)
Definition stored_with_trunk_zero {UT : Unicode} (c : contact) : Prop :=
  exists phs, PHONE c = Value phs
    /\ Forall (fun ph => exists v, VALUE ph = Value v
                                   /\ startswith ZERO (keep isdecimal v) = true) phs.

(** A segment made from a row: the stage and the parsed time stamp of the
    row, with an offset from UTC at both ends. *)
Definition segment_of_row (fromisoformat : str -> option datetime) (r : row) (s : segment)
  : Prop :=
  stage_id s = STAGE_ID r
  /\ _parse_iso fromisoformat (CREATED_TIME r) = Ok (seg_start s)
  /\ is_Some (tzinfo (seg_start s))
  /\ is_Some (tzinfo (seg_end s)).

(** The letters of the plain alphabet. *)
Definition cased (c : char) : bool :=
  ((65 <=? c)%N && (c <=? 90)%N) || ((97 <=? c)%N && (c <=? 122)%N)
  || ((1024 <=? c)%N && (c <=? 1119)%N) || (c =? 1168)%N || (c =? 1169)%N.

(** A change of case on the plain alphabet: it keeps what is not a letter,
    maps letters to letters, and is absorbed by both case mappings. *)
Definition case_map (f : char -> char) : Prop :=
  forall c, plain c = true ->
    plain (f c) = true
    /\ plain_upper (f c) = plain_upper c
    /\ plain_lower (f c) = plain_lower c
    /\ cased (f c) = cased c
    /\ (cased c = false -> f c = c).

(** An argument of a command: not empty, without white space. *)
Definition argument {UT : Unicode} (t : str) : Prop :=
  is_empty t = false /\ forallb (fun c => negb (isspace c)) t = true.

(** *** Accents, titles and queries *)

(** The acute accent written as another character. *)
Definition relabel (u c : char) : char := if chr_eqb c ACUTE then u else c.

(** A character, or the same character in the other case. *)
Definition case_of (c c' : char) : Prop :=
  c' = c \/ c' = plain_upper c \/ c' = plain_lower c.

(** Text of the plain alphabet and accents, none after a letter it composes
    with. *)
Definition well_accented (s : str) : Prop :=
  Forall (fun c => accented c = true) s /\ accents_apart s = true.

(** Every decimal digit of a phone is an ASCII digit; the other characters
    are free. *)
Definition ascii_digits {UT : Unicode} (phone : str) : bool :=
  forallb plain_digit (keep isdecimal phone).

(** The name after [_unify_apostrophes] and the replacement of the no-break
    spaces. *)
Definition settled (raw : str) : str := replace1 NBSP SPACE (_unify_apostrophes raw).

(** A text that can stand between quotes as it is. *)
Definition quotable (s : str) : bool :=
  forallb (fun c => negb (chr_eqb c QUOTE || chr_eqb c BACKSLASH)) s.

(** A folder directly under [root] with the name [title], not in the bin. *)
Definition exact_child (root title : str) (e : entry) : bool :=
  existsb (str_eqb root) (parents e)
  && str_eqb (file_name (listed e)) title
  && str_eqb (mime_type e) FOLDER_MIME
  && Bool.eqb (trashed e) false.

(** ** Sample data *)

Definition folder_melnyk : file :=
  {| file_id := U "1"; file_name := U "Melnyk, 380671234567" |}.
Definition folder_petrenko : file :=
  {| file_id := U "2"; file_name := U "Petrenko Ivan, 380 67 123 45 67" |}.
(** A store that lists the same two folders for every query. *)
Definition two_folder_drive : Drive := fun _ _ => Ok [[folder_melnyk; folder_petrenko]].

(** One event, stamped an hour after the reading of the clock. *)
Definition skewed_rows : list row := [event (U "C1:NEW") (U "2024-01-01T10:00:00+00:00")].
Definition skewed_clock : Z := seconds_us 1704099600.

(** Three events in two stages, and a reading of the clock after them. *)
Definition sample_rows : list row :=
  [event (U "C1:NEW") (U "2024-01-01T10:00:00+02:00");
   event (U "C1:NEW") (U "2024-01-01T10:30:00+02:00");
   event (U "C1:WON") (U "2024-01-02T09:15:00+02:00")].
Definition sample_clock : Z := seconds_us 1704240000.


Definition sample_segments : list segment :=
  Eval vm_compute in
    match compute_stage_segments py_fromisoformat sample_clock
            (get_deal_stage_history sample_rows 300) with
    | Ok segs => segs
    | Raise _ => []
    end.

(** *** Files, contacts and stages *)

(** A folder with no file of the exact name and, on the first page of the
    other query, a scan, a Google document and two Word documents. *)
Definition plan_scan : document :=
  {| doc_id := U "p1"; doc_name := U "План Вашого звільнення.pdf";
     mimeType := Some (U "application/pdf") |}.
Definition plan_gdoc : document :=
  {| doc_id := U "p2"; doc_name := U "План Вашого звільнення"; mimeType := Some GDOC_MIME |}.
Definition plan_docx : document :=
  {| doc_id := U "p3"; doc_name := U "А. План Вашого звільнення.docx";
     mimeType := Some DOCX_MIME |}.
Definition plan_docx_copy : document :=
  {| doc_id := U "p4"; doc_name := U "План Вашого звільнення (1).docx";
     mimeType := Some DOCX_MIME |}.

Definition plan_drive : Documents := fun _ page_size =>
  if (page_size =? 5)%nat then Ok [[]]
  else Ok [[plan_scan; plan_gdoc; plan_docx; plan_docx_copy]].

(** A store with no folder of the exact name: it answers the query asked
    with page size one by an empty page, and every other query by two pages
    that list one folder twice. *)
Definition two_page_drive : Drive := fun _ page_size =>
  if (page_size =? 1)%nat then Ok [[]]
  else Ok [[folder_melnyk]; [folder_petrenko; folder_melnyk]].

(** Two contacts with the same number, one stored with the country code
    and one with the trunk zero. *)
Definition contact_melnyk : contact :=
  {| ID := U "17"; LAST_NAME := Some (U "  melnyk "); NAME := Some (U "PETRO");
     SECOND_NAME := None;
     PHONE := Value [ {| VALUE := Value (U "+380 67 123-45-67") |} ] |}.
Definition contact_trunk_zero : contact :=
  {| ID := U "18"; LAST_NAME := Some (U "Petrenko"); NAME := Some (U "Ivan");
     SECOND_NAME := Some [];
     PHONE := Value [ {| VALUE := Value (U "067 123 45 67") |} ] |}.

(** A CRM that answers every request with both contacts. *)
Definition sample_crm : str -> str -> outcome (list contact) :=
  fun _ _ => Return [contact_trunk_zero; contact_melnyk].

(** [int] on ASCII digits, and a CRM with one pipeline that lists a status
    id twice. *)
Definition ascii_int (s : str) : N := Z.to_N (default 0%Z (number s 0%Z)).

Definition stage_new : stage_item :=
  {| STATUS_ID := Some (U "C1:NEW"); ITEM_NAME := Some (U "Нова") |}.
Definition stage_won : stage_item :=
  {| STATUS_ID := Some (U "C1:WON"); ITEM_NAME := Some (U "Успішна") |}.
Definition stage_new_renamed : stage_item :=
  {| STATUS_ID := Some (U "C1:NEW"); ITEM_NAME := Some (U "Новий клієнт") |}.

Definition sample_stages : N -> outcome (list stage_item) :=
  fun _ => Return [stage_new; stage_won; stage_new_renamed].

(** *** Names as typed, a store, and an hour counted twice *)

(** A name as it may be typed: a no-break space, a stress mark on a vowel,
    a typographic apostrophe and a grave accent used as one; and a phone
    with dashes and a no-break space between its digits. *)
Definition typed_name : str :=
  U " петро" ++ [NBSP] ++ U " іва" ++ [ACUTE] ++ U "нович мельни’к, o`neil-smith ".
Definition typed_phone : str := U "+38" ++ [NBSP] ++ U "(067) 123–45–67".

(** A store with one client folder, whose name has an apostrophe. *)
Definition title_maryana : str := Eval vm_compute in U "Мар'Яна Коваль, +380671234567".
Definition folder_maryana : entry :=
  {| listed := {| file_id := U "7"; file_name := title_maryana |};
     parents := [U "root"]; mime_type := FOLDER_MIME; trashed := false |}.

(** The store matches [contains] by substrings here; the exact tier does
    not use that operator. *)
Definition maryana_drive : Drive :=
  store_drive (fun text name => contains text name) [folder_maryana].

(** A store with folders of one name: one elsewhere, one in the bin, and
    two under the root. *)
Definition title_melnyk : str := Eval vm_compute in U "Melnyk Petro, +380671234567".
Definition melnyk_entry (id : str) (parent : str) (binned : bool) : entry :=
  {| listed := {| file_id := id; file_name := title_melnyk |};
     parents := [parent]; mime_type := FOLDER_MIME; trashed := binned |}.
Definition melnyk_store : list entry :=
  [melnyk_entry (U "1") (U "archive") false; melnyk_entry (U "2") (U "root") true;
   melnyk_entry (U "3") (U "root") false; melnyk_entry (U "4") (U "root") false].


(** * Properties *)

(** ** Strings and lists *)

Lemma chr_eqb_eq a b : chr_eqb a b = true <-> a = b.
Proof. unfold chr_eqb. apply N.eqb_eq. Qed.

Lemma chr_eqb_refl a : chr_eqb a a = true.
Proof. apply chr_eqb_eq. reflexivity. Qed.

Lemma str_eqb_eq a b : str_eqb a b = true <-> a = b.
Proof.
  revert b. induction a as [|x a IH]; intros [|y b]; simpl; split;
    try congruence; try reflexivity.
  - intros H. apply andb_true_iff in H. destruct H as [H1 H2].
    apply chr_eqb_eq in H1. apply IH in H2. congruence.
  - intros H. injection H as -> ->. rewrite chr_eqb_refl. simpl. apply IH. reflexivity.
Qed.

Lemma is_empty_true s : is_empty s = true <-> s = [].
Proof. destruct s; simpl; split; congruence. Qed.

Lemma slice_last_short n (s : str) : (length s <= n)%nat -> slice_last n s = s.
Proof.
  intros H. unfold slice_last. replace (length s - n)%nat with 0%nat by lia. reflexivity.
Qed.

Lemma slice_last_length n (s : str) : length (slice_last n s) = Nat.min n (length s).
Proof. unfold slice_last. rewrite length_drop. lia. Qed.

Lemma forallb_drop {A} (p : A -> bool) n (l : list A) :
  forallb p l = true -> forallb p (drop n l) = true.
Proof.
  revert l. induction n as [|n IH]; intros [|x l]; simpl; try congruence.
  intros H. apply andb_true_iff in H. apply IH. tauto.
Qed.

Lemma forallb_drop_while {A} (p q : A -> bool) (l : list A) :
  forallb p l = true -> forallb p (drop_while q l) = true.
Proof.
  induction l as [|x l IH]; simpl; [congruence|].
  intros H. destruct (q x); [|exact H].
  apply andb_true_iff in H. apply IH. tauto.
Qed.

Lemma keep_all cls (s : str) : forallb cls s = true -> keep cls s = s.
Proof.
  unfold keep. induction s as [|c s IH]; simpl; [reflexivity|].
  intros H. apply andb_true_iff in H. destruct H as [-> H]. f_equal. auto.
Qed.

Lemma keep_forallb cls (s : str) : forallb cls (keep cls s) = true.
Proof.
  unfold keep. induction s as [|c s IH]; simpl; [reflexivity|].
  destruct (cls c) eqn:E; simpl; [rewrite E|]; auto.
Qed.

(** ** Splitting and joining *)

Section SplitFacts.
Context (cls : char -> bool).

Lemma split_where_nonnil s : split_where cls s <> [].
Proof.
  destruct s as [|c s]; simpl; [discriminate|].
  destruct (cls c); [discriminate|]. destruct (split_where cls s); discriminate.
Qed.

Lemma split_where_clean s :
  Forall (Forall (fun c => cls c = false)) (split_where cls s).
Proof.
  induction s as [|c s IH]; simpl.
  - repeat constructor.
  - destruct (cls c) eqn:E; [constructor; [constructor|exact IH]|].
    destruct (split_where cls s) as [|w ws]; [repeat constructor; exact E|].
    apply Forall_cons in IH. destruct IH as [Hw Hws].
    constructor; [constructor; assumption|exact Hws].
Qed.

Lemma split_where_Forall (P : char -> Prop) s :
  Forall P s -> Forall (Forall P) (split_where cls s).
Proof.
  induction s as [|c s IH]; simpl; intros H.
  - repeat constructor.
  - apply Forall_cons in H. destruct H as [Hc Hs]. specialize (IH Hs).
    destruct (cls c); [constructor; [constructor|exact IH]|].
    destruct (split_where cls s) as [|w ws]; [repeat constructor; exact Hc|].
    apply Forall_cons in IH. destruct IH as [Hw Hws].
    constructor; [constructor; assumption|exact Hws].
Qed.

Lemma split_where_none s : Forall (fun c => cls c = false) s -> split_where cls s = [s].
Proof.
  induction s as [|c s IH]; simpl; intros H; [reflexivity|].
  apply Forall_cons in H. destruct H as [-> Hs]. rewrite (IH Hs). reflexivity.
Qed.

Lemma split_where_app_sep p c rest :
  Forall (fun c => cls c = false) p -> cls c = true ->
  split_where cls (p ++ c :: rest) = p :: split_where cls rest.
Proof.
  intros Hp Hc. induction p as [|x p IH]; simpl.
  - rewrite Hc. reflexivity.
  - apply Forall_cons in Hp. destruct Hp as [-> Hp]. rewrite (IH Hp). reflexivity.
Qed.

End SplitFacts.

Lemma join_cons2 sep p q ps : join sep (p :: q :: ps) = p ++ sep ++ join sep (q :: ps).
Proof. reflexivity. Qed.

Lemma join_split sep s : join [sep] (split_on sep s) = s.
Proof.
  unfold split_on. induction s as [|c s IH]; [reflexivity|]. simpl.
  destruct (chr_eqb c sep) eqn:E.
  - apply chr_eqb_eq in E. subst c.
    pose proof (split_where_nonnil (fun c => chr_eqb c sep) s) as Hn.
    destruct (split_where _ s) as [|w ws]; [contradiction|].
    rewrite join_cons2. simpl. f_equal. exact IH.
  - pose proof (split_where_nonnil (fun c => chr_eqb c sep) s) as Hn.
    destruct (split_where _ s) as [|w ws]; [contradiction|].
    destruct ws as [|w' ws]; simpl in *; f_equal; exact IH.
Qed.

Lemma split_join sep ps :
  ps <> [] -> Forall (Forall (fun c => c <> sep)) ps ->
  split_on sep (join [sep] ps) = ps.
Proof.
  unfold split_on. intros Hn H. induction ps as [|p ps IH]; [contradiction|].
  apply Forall_cons in H. destruct H as [Hp Hps].
  assert (Hp' : Forall (fun c => chr_eqb c sep = false) p).
  { eapply Forall_impl; [exact Hp|]. intros c Hc. simpl.
    destruct (chr_eqb c sep) eqn:E; [|reflexivity]. apply chr_eqb_eq in E. contradiction. }
  destruct ps as [|q ps].
  - simpl. apply split_where_none. exact Hp'.
  - rewrite join_cons2. simpl app.
    rewrite split_where_app_sep; [|exact Hp'|apply chr_eqb_refl].
    f_equal. apply IH; [discriminate|exact Hps].
Qed.

Lemma join_Forall (P : char -> Prop) sep ps :
  Forall P sep -> Forall (Forall P) ps -> Forall P (join sep ps).
Proof.
  intros Hs H. induction ps as [|p ps IH]; [constructor|].
  apply Forall_cons in H. destruct H as [Hp Hps].
  destruct ps as [|q ps]; [exact Hp|].
  rewrite join_cons2. apply Forall_app. split; [exact Hp|].
  apply Forall_app. split; [exact Hs|]. apply IH. exact Hps.
Qed.

(** ** Replacing runs and stripping *)

Section RunFacts.
Context (cls : char -> bool) (rep : str).

Lemma sub_runs_from_clean b s :
  Forall (fun c => cls c = false) s -> sub_runs_from cls rep b s = s.
Proof.
  revert b. induction s as [|c s IH]; intros b H; [reflexivity|]. simpl.
  apply Forall_cons in H. destruct H as [-> Hs]. f_equal. apply IH. exact Hs.
Qed.

Lemma sub_runs_from_app b u c v :
  cls c = false ->
  sub_runs_from cls rep b (u ++ c :: v)
  = sub_runs_from cls rep b u ++ c :: sub_runs_from cls rep false v.
Proof.
  intros Hc. revert b. induction u as [|x u IH]; intros b; simpl.
  - rewrite Hc. reflexivity.
  - destruct (cls x).
    + rewrite IH. rewrite <- app_assoc. reflexivity.
    + rewrite IH. reflexivity.
Qed.

Lemma sub_runs_from_Forall (P : char -> Prop) b s :
  Forall P rep -> Forall (fun c => cls c = false -> P c) s ->
  Forall P (sub_runs_from cls rep b s).
Proof.
  intros Hr. revert b. induction s as [|c s IH]; intros b H; [constructor|]. simpl.
  apply Forall_cons in H. destruct H as [Hc Hs].
  destruct (cls c) eqn:E.
  - apply Forall_app. split; [destruct b; [constructor|exact Hr]|]. apply IH. exact Hs.
  - constructor; [apply Hc; reflexivity|]. apply IH. exact Hs.
Qed.

End RunFacts.

Lemma drop_while_Forall {A} (P : A -> Prop) (p : A -> bool) l :
  Forall P l -> Forall P (drop_while p l).
Proof.
  induction l as [|x l IH]; simpl; intros H; [constructor|].
  destruct (p x); [|exact H]. apply Forall_cons in H. apply IH. tauto.
Qed.

Lemma strip_Forall (P : char -> Prop) cls s : Forall P s -> Forall P (strip cls s).
Proof.
  intros H. unfold strip, rstrip, lstrip.
  apply Forall_rev. apply drop_while_Forall. apply Forall_rev.
  apply drop_while_Forall. exact H.
Qed.

Lemma drop_while_head {A} (p : A -> bool) l :
  (forall x, head l = Some x -> p x = false) -> drop_while p l = l.
Proof. destruct l as [|x l]; simpl; [reflexivity|]. intros H. rewrite H; reflexivity. Qed.

Lemma head_rev {A} (l : list A) : head (rev l) = last l.
Proof. rewrite rev_alt. apply head_reverse. Qed.

Lemma strip_ends_outside cls s : ends_outside cls s -> strip cls s = s.
Proof.
  intros [H1 H2]. unfold strip, rstrip, lstrip.
  rewrite (drop_while_head _ s H1). rewrite (drop_while_head _ (rev s)).
  - apply rev_involutive.
  - intros x. rewrite head_rev. apply H2.
Qed.

Lemma Forall_head {A} (P : A -> Prop) l x : Forall P l -> head l = Some x -> P x.
Proof. destruct l; simpl; [discriminate|]. intros H [= <-]. apply Forall_cons in H. tauto. Qed.

Lemma Forall_last {A} (P : A -> Prop) l x : Forall P l -> last l = Some x -> P x.
Proof.
  intros H Hl. rewrite List.Forall_forall in H. apply H.
  apply list_elem_of_In. apply last_Some_elem_of. exact Hl.
Qed.

Lemma strip_clean cls s : Forall (fun c => cls c = false) s -> strip cls s = s.
Proof.
  intros H. apply strip_ends_outside. split; intros c Hc.
  - apply (Forall_head _ _ _ H Hc).
  - apply (Forall_last _ _ _ H Hc).
Qed.

Lemma sub_runs_from_head cls rep b s :
  (forall c, head s = Some c -> cls c = false) ->
  sub_runs_from cls rep b s = sub_runs_from cls rep false s.
Proof. destruct s as [|c s]; [reflexivity|]. simpl. intros H. rewrite H; reflexivity. Qed.

Lemma join_map_length (f : str -> str) sep l :
  (forall x, In x l -> length (f x) = length x) ->
  length (join sep (map f l)) = length (join sep l).
Proof.
  induction l as [|p l IH]; intros H; [reflexivity|].
  destruct l as [|q l].
  - simpl. apply H. left. reflexivity.
  - change (map f (p :: q :: l)) with (f p :: f q :: map f l).
    rewrite !join_cons2, !length_app. rewrite (H p) by (left; reflexivity).
    change (f q :: map f l) with (map f (q :: l)). rewrite IH; [reflexivity|].
    intros x Hx. apply H. right. exact Hx.
Qed.

Lemma replace1_map a b s :
  replace1 a [b] s = map (fun c => if chr_eqb c a then b else c) s.
Proof.
  unfold replace1. induction s as [|c s IH]; [reflexivity|]. simpl.
  rewrite IH. destruct (chr_eqb c a); reflexivity.
Qed.

Lemma replace1_absent a b s : Forall (fun c => c <> a) s -> replace1 a b s = s.
Proof.
  unfold replace1. induction s as [|c s IH]; intros H; [reflexivity|]. simpl.
  apply Forall_cons in H. destruct H as [Hc Hs]. rewrite (IH Hs).
  destruct (chr_eqb c a) eqn:E; [|reflexivity]. apply chr_eqb_eq in E. contradiction.
Qed.

(** ** The stable sort *)

Section StableSortFacts.
Context {A : Type} (before : A -> A -> bool).

Lemma insert_sorted_In x y l : In y (insert_sorted before x l) <-> y = x \/ In y l.
Proof.
  induction l as [|z l IH]; simpl.
  - intuition congruence.
  - destruct (before x z); simpl; [intuition congruence|].
    rewrite IH. intuition congruence.
Qed.

Lemma stable_sort_In y l : In y (stable_sort before l) <-> In y l.
Proof.
  induction l as [|x l IH]; simpl; [tauto|].
  rewrite insert_sorted_In, IH. intuition congruence.
Qed.

Lemma insert_sorted_head x l :
  head (insert_sorted before x l) =
  match head l with
  | Some y => if before x y then Some x else Some y
  | None => Some x
  end.
Proof. destruct l as [|y l]; simpl; [reflexivity|]. destruct (before x y); reflexivity. Qed.

Lemma stable_sort_nil l : stable_sort before l = [] -> l = [].
Proof.
  destruct l as [|x l]; [reflexivity|]. simpl.
  destruct (stable_sort before l); simpl; [discriminate|].
  destruct (before x a); discriminate.
Qed.

End StableSortFacts.

(** The head of a list sorted in reverse by a key is the first element of
    the list whose key is greatest. *)
Section ReverseSortHead.
Context {A K : Type} (leb : K -> K -> bool) (key : A -> K).
Hypothesis leb_total : forall a b, leb a b = true \/ leb b a = true.
Hypothesis leb_trans : forall a b c, leb a b = true -> leb b c = true -> leb a c = true.

Lemma sort_by_reverse_head l f :
  head (sort_by_reverse leb key l) = Some f -> first_greatest leb key f l.
Proof.
  unfold sort_by_reverse. revert f. induction l as [|x l IH]; intros f; simpl; [discriminate|].
  rewrite insert_sorted_head.
  destruct (head (stable_sort _ l)) as [y|] eqn:Hy.
  - destruct (IH y eq_refl) as (l1 & l2 & -> & H1 & H2).
    destruct (leb (key y) (key x)) eqn:Hyx; intros [= <-].
    + exists [], (l1 ++ y :: l2). split; [reflexivity|]. split; [intros g []|].
      intros g Hg. apply in_app_or in Hg. destruct Hg as [Hg|[<-|Hg]].
      * destruct (leb_total (key g) (key y)) as [E|E]; [eauto|].
        rewrite (H1 g Hg) in E. discriminate.
      * exact Hyx.
      * eauto.
    + exists (x :: l1), l2. split; [reflexivity|]. split; [|exact H2].
      intros g [<-|Hg]; [exact Hyx|]. auto.
  - intros [= <-]. apply head_None in Hy. apply stable_sort_nil in Hy. subst l.
    exists [], []. split; [reflexivity|]. split; intros g [].
Qed.

Lemma sort_by_reverse_head_None l : head (sort_by_reverse leb key l) = None -> l = [].
Proof. intros H. apply head_None in H. apply stable_sort_nil in H. exact H. Qed.

End ReverseSortHead.

(** ** The phone normalizer *)

Section PhoneFacts.
Context {UT : Unicode}.

Lemma isdecimal_ascii c : (c < 128)%N -> isdecimal c = plain_digit c.
Proof.
  intros H. apply isdecimal_plain. unfold plain.
  apply N.ltb_lt in H. rewrite H. reflexivity.
Qed.

Lemma national_body_digits digits :
  forallb isdecimal digits = true -> forallb isdecimal (national_body digits) = true.
Proof.
  intros H. unfold national_body.
  destruct (startswith ZERO digits) eqn:E0.
  - simpl. exact H.
  - destruct (startswith UA_CODE digits).
    + apply forallb_drop. exact H.
    + apply forallb_drop_while. exact H.
Qed.

Lemma keep_prefixed body :
  forallb isdecimal body = true -> keep isdecimal (UA_PREFIX ++ body) = UA_CODE ++ body.
Proof.
  intros H. unfold keep. simpl.
  rewrite !isdecimal_ascii by reflexivity. simpl.
  fold (keep isdecimal body). rewrite keep_all by exact H. reflexivity.
Qed.

(** A canonical phone is a fixed point of the normalizer. *)
Lemma normalize_phone_canonical body :
  forallb isdecimal body = true -> (length body <= 9)%nat ->
  normalize_phone_e164_ua (UA_PREFIX ++ body) = UA_PREFIX ++ body.
Proof.
  intros Hd Hl. unfold normalize_phone_e164_ua.
  rewrite keep_prefixed by exact Hd. simpl.
  unfold slice_from. simpl. rewrite slice_last_short by exact Hl. reflexivity.
Qed.

Lemma normalize_phone_parts phone :
  exists body,
    normalize_phone_e164_ua phone = UA_PREFIX ++ body
    /\ forallb isdecimal body = true
    /\ length body = Nat.min 9 (length (national_body (keep isdecimal phone))).
Proof.
  unfold normalize_phone_e164_ua.
  destruct (keep isdecimal phone) as [|d ds] eqn:E.
  - exists []. simpl. auto.
  - exists (slice_last 9 (national_body (d :: ds))). simpl is_empty. cbv iota.
    split; [reflexivity|]. split.
    + unfold slice_last. apply forallb_drop. apply national_body_digits.
      rewrite <- E. apply keep_forallb.
    + apply slice_last_length.
Qed.

Lemma normalize_phone_idempotent phone :
  normalize_phone_e164_ua (normalize_phone_e164_ua phone) = normalize_phone_e164_ua phone.
Proof.
  destruct (normalize_phone_parts phone) as (body & -> & Hd & Hl).
  apply normalize_phone_canonical; [exact Hd|]. lia.
Qed.

End PhoneFacts.

(** C1, as amended.  For every input the phone normalizer returns the
    national prefix followed by decimal digits only, as many as the
    national body of the input has, and nine at most: there are exactly nine
    of them when, and only when, the body has nine digits or more. *)
Theorem normalize_phone_prefix_and_at_most_nine_digits :
  forall (UT : Unicode) (phone : str),
  exists body,
    normalize_phone_e164_ua phone = UA_PREFIX ++ body
    /\ forallb isdecimal body = true
    /\ length body = Nat.min 9 (length (national_body (keep isdecimal phone))).
Proof. intros UT phone. apply normalize_phone_parts. Qed.

(** C1, as stated, fails: the one-digit input 5 gives the prefix followed
    by one digit. *)
Lemma normalize_phone_one_digit_input :
  @normalize_phone_e164_ua py_tables (U "5") = U "+3805"
  /\ ~ (exists body,
          @normalize_phone_e164_ua py_tables (U "5") = UA_PREFIX ++ body
          /\ length body = 9%nat).
Proof.
  split; [reflexivity|].
  intros (body & H & Hl). vm_compute in H. injection H as <-. discriminate Hl.
Qed.

(** ** The name normalizer on the plain alphabet *)

Lemma unify_map s : _unify_apostrophes s = map unify_char s.
Proof.
  unfold _unify_apostrophes, unify_char.
  destruct (is_empty s) eqn:E; [apply is_empty_true in E; subst; reflexivity|]. clear E.
  revert s. induction APOSTROPHES as [|a l IH]; intros s; simpl.
  - symmetry. apply map_id.
  - rewrite IH. change APOSTROPHE with [39%N]. rewrite replace1_map, map_map. reflexivity.
Qed.

Lemma unify_char_eq c :
  plain c = true -> unify_char c = if (c =? 96)%N then 39%N else c.
Proof.
  intros H. apply plain_cases in H.
  unfold unify_char, APOSTROPHES, chr_eqb. simpl.
  destruct (N.eqb_spec c 8217); [lia|].
  destruct (N.eqb_spec c 96); [reflexivity|].
  repeat match goal with
         | |- context [(c =? ?b)%N] => destruct (N.eqb_spec c b); [lia|]
         end.
  reflexivity.
Qed.

Lemma unify_char_plain c :
  plain c = true -> plain (unify_char c) = true /\ unify_char c <> 96%N.
Proof.
  intros H. rewrite (unify_char_eq c H).
  destruct (N.eqb_spec c 96); [split; [reflexivity|discriminate]|]. auto.
Qed.

Lemma unify_char_fixed c : plain c = true -> c <> 96%N -> unify_char c = c.
Proof.
  intros H H96. rewrite (unify_char_eq c H).
  destruct (N.eqb_spec c 96); [contradiction|reflexivity].
Qed.

Lemma wordchar_iff c : wordchar c = true <-> wordchar_spec c.
Proof.
  unfold wordchar, wordchar_spec, plain, plain_space, is_punct, char_in, chr_eqb. simpl.
  rewrite !andb_true_iff, !negb_true_iff, !orb_false_iff, !orb_true_iff, !andb_true_iff,
    !andb_false_iff, !N.ltb_lt, !N.leb_le, !N.eqb_eq, !N.eqb_neq, !N.leb_gt.
  lia.
Qed.

Lemma plain_upper_spec c :
  ((97 <= c <= 122 /\ plain_upper c = c - 32)
   \/ (1072 <= c <= 1103 /\ plain_upper c = c - 32)
   \/ (1104 <= c <= 1119 /\ plain_upper c = c - 80)
   \/ (c = 1169 /\ plain_upper c = 1168)
   \/ (~ (97 <= c <= 122) /\ ~ (1072 <= c <= 1119) /\ c <> 1169 /\ plain_upper c = c))%N.
Proof. unfold plain_upper. cmp_cases. Qed.

Lemma plain_lower_spec c :
  ((65 <= c <= 90 /\ plain_lower c = c + 32)
   \/ (1040 <= c <= 1071 /\ plain_lower c = c + 32)
   \/ (1024 <= c <= 1039 /\ plain_lower c = c + 80)
   \/ (c = 1168 /\ plain_lower c = 1169)
   \/ (~ (65 <= c <= 90) /\ ~ (1024 <= c <= 1071) /\ c <> 1168 /\ plain_lower c = c))%N.
Proof. unfold plain_lower. cmp_cases. Qed.

Lemma wordchar_upper c : wordchar c = true -> wordchar (plain_upper c) = true.
Proof.
  rewrite !wordchar_iff. unfold wordchar_spec. intros H.
  pose proof (plain_upper_spec c). lia.
Qed.

Lemma wordchar_lower c : wordchar c = true -> wordchar (plain_lower c) = true.
Proof.
  rewrite !wordchar_iff. unfold wordchar_spec. intros H.
  pose proof (plain_lower_spec c). lia.
Qed.

Lemma plain_upper_keeps_not c (x : char) :
  (x = 45 \/ x = 39)%N -> c <> x -> plain_upper c <> x.
Proof. intros Hx H. pose proof (plain_upper_spec c). lia. Qed.

Lemma plain_lower_keeps_not c (x : char) :
  (x = 45 \/ x = 39)%N -> c <> x -> plain_lower c <> x.
Proof. intros Hx H. pose proof (plain_lower_spec c). lia. Qed.

Lemma plain_upper_idem c : plain_upper (plain_upper c) = plain_upper c.
Proof.
  pose proof (plain_upper_spec c). pose proof (plain_upper_spec (plain_upper c)). lia.
Qed.

Lemma plain_lower_idem c : plain_lower (plain_lower c) = plain_lower c.
Proof.
  pose proof (plain_lower_spec c). pose proof (plain_lower_spec (plain_lower c)). lia.
Qed.

(** Mapping a function over the pieces between separators. *)
Section MapPieces.
Variables (sep : char) (f : str -> str) (P : char -> Prop).
Hypothesis P_sep : P sep.
Hypothesis f_keeps : forall x,
  Forall P x -> Forall (fun c => c <> sep) x ->
  Forall P (f x) /\ Forall (fun c => c <> sep) (f x).
Hypothesis f_idem : forall x,
  Forall P x -> Forall (fun c => c <> sep) x -> f (f x) = f x.
Hypothesis f_length : forall x,
  Forall P x -> Forall (fun c => c <> sep) x -> length (f x) = length x.

Lemma split_on_pieces s :
  Forall P s ->
  Forall (fun x => Forall P x /\ Forall (fun c => c <> sep) x) (split_on sep s).
Proof.
  intros H. unfold split_on.
  pose proof (split_where_Forall (fun c => chr_eqb c sep) P s H) as H1.
  pose proof (split_where_clean (fun c => chr_eqb c sep) s) as H2.
  rewrite List.Forall_forall in *. intros x Hx. split; [auto|].
  specialize (H2 x Hx). eapply Forall_impl; [exact H2|].
  intros c Hc ->. simpl in Hc. rewrite chr_eqb_refl in Hc. discriminate.
Qed.

Lemma mapped_pieces s :
  Forall P s ->
  Forall (fun x => Forall P x /\ Forall (fun c => c <> sep) x) (map f (split_on sep s)).
Proof.
  intros H. apply split_on_pieces in H. rewrite List.Forall_forall in *.
  intros y Hy. apply in_map_iff in Hy. destruct Hy as (x & <- & Hx).
  destruct (H x Hx) as [H1 H2]. apply f_keeps; assumption.
Qed.

Lemma map_pieces_Forall s : Forall P s -> Forall P (map_pieces sep f s).
Proof.
  intros H. unfold map_pieces. apply join_Forall; [repeat constructor; exact P_sep|].
  apply mapped_pieces in H. eapply Forall_impl; [exact H|]. simpl. tauto.
Qed.

Lemma map_pieces_idem s : Forall P s -> map_pieces sep f (map_pieces sep f s) = map_pieces sep f s.
Proof.
  intros H. unfold map_pieces.
  pose proof (mapped_pieces s H) as Hm.
  rewrite split_join.
  - f_equal. rewrite map_map. apply map_ext_in. intros x Hx.
    apply split_on_pieces in H. rewrite List.Forall_forall in H.
    destruct (H x Hx). apply f_idem; assumption.
  - unfold split_on. pose proof (split_where_nonnil (fun c => chr_eqb c sep) s).
    destruct (split_where _ s); [contradiction|discriminate].
  - eapply Forall_impl; [exact Hm|]. simpl. tauto.
Qed.

Lemma map_pieces_length s : Forall P s -> length (map_pieces sep f s) = length s.
Proof.
  intros H. unfold map_pieces. rewrite join_map_length.
  - rewrite join_split. reflexivity.
  - intros x Hx. apply split_on_pieces in H. rewrite List.Forall_forall in H.
    destruct (H x Hx). apply f_length; assumption.
Qed.

End MapPieces.

Section FioFacts.
Context {UT : Unicode}.

Lemma is_plain_Forall s : is_plain s = true <-> Forall (fun c => plain c = true) s.
Proof.
  unfold is_plain. rewrite forallb_forall, List.Forall_forall. reflexivity.
Qed.

Lemma wordchar_plain c : wordchar c = true -> plain c = true.
Proof. unfold wordchar. rewrite !andb_true_iff. tauto. Qed.

Lemma wordchar_not_space c : wordchar c = true -> isspace c = false.
Proof.
  intros H. rewrite isspace_plain by (apply wordchar_plain; exact H).
  unfold wordchar in H. rewrite !andb_true_iff, !negb_true_iff in H. tauto.
Qed.

Lemma words_plain s : Forall (fun c => wordchar c = true) s -> is_plain s = true.
Proof.
  intros H. apply is_plain_Forall. eapply Forall_impl; [exact H|].
  intros c. apply wordchar_plain.
Qed.

Lemma title_part_plain x :
  is_plain x = true ->
  title_part x = match x with [] => [] | c :: r => plain_upper c :: map plain_lower r end.
Proof.
  destruct x as [|c r]; [reflexivity|]. intros H.
  apply is_plain_cons in H. destruct H as [Hc Hr].
  unfold title_part. simpl.
  rewrite upper_plain by (simpl; rewrite Hc; reflexivity).
  unfold slice_from. simpl. rewrite lower_plain by exact Hr. reflexivity.
Qed.

Lemma inner_plain x : Forall inner_char x -> is_plain x = true.
Proof.
  intros H. apply words_plain. eapply Forall_impl; [exact H|]. intros c [Hc _]. exact Hc.
Qed.

Lemma title_part_keeps x :
  Forall inner_char x -> Forall (fun c => c <> 39%N) x ->
  Forall inner_char (title_part x) /\ Forall (fun c => c <> 39%N) (title_part x).
Proof.
  intros H H39. rewrite title_part_plain by (apply inner_plain; exact H).
  destruct x as [|c r]; [split; constructor|].
  apply Forall_cons in H. destruct H as [[Hc Hc45] Hr].
  apply Forall_cons in H39. destruct H39 as [Hc39 Hr39].
  split; constructor.
  - split; [apply wordchar_upper; exact Hc|]. apply plain_upper_keeps_not; auto.
  - rewrite List.Forall_forall in *. intros y Hy. apply in_map_iff in Hy.
    destruct Hy as (z & <- & Hz). destruct (Hr z Hz) as [Hw H45].
    split; [apply wordchar_lower; exact Hw|]. apply plain_lower_keeps_not; auto.
  - apply plain_upper_keeps_not; auto.
  - rewrite List.Forall_forall in *. intros y Hy. apply in_map_iff in Hy.
    destruct Hy as (z & <- & Hz). apply plain_lower_keeps_not; auto.
Qed.

Lemma title_part_idem x :
  Forall inner_char x -> title_part (title_part x) = title_part x.
Proof.
  intros H. pose proof (inner_plain x H) as Hp.
  assert (Hp' : is_plain (title_part x) = true).
  { rewrite title_part_plain by exact Hp. destruct x as [|c r]; [reflexivity|].
    apply is_plain_cons in Hp. destruct Hp as [Hc Hr].
    apply Forall_cons in H. destruct H as [[Hw _] Hr'].
    apply is_plain_cons. split; [apply wordchar_plain, wordchar_upper; exact Hw|].
    apply is_plain_Forall. rewrite List.Forall_forall in *. intros y Hy.
    apply in_map_iff in Hy. destruct Hy as (z & <- & Hz).
    apply wordchar_plain, wordchar_lower. apply (Hr' z Hz). }
  rewrite (title_part_plain _ Hp'). rewrite (title_part_plain _ Hp).
  destruct x as [|c r]; [reflexivity|].
  rewrite plain_upper_idem, map_map. f_equal. apply map_ext. intros. apply plain_lower_idem.
Qed.

Lemma title_part_length x : Forall inner_char x -> length (title_part x) = length x.
Proof.
  intros H. rewrite title_part_plain by (apply inner_plain; exact H).
  destruct x as [|c r]; [reflexivity|]. simpl. rewrite length_map. reflexivity.
Qed.

Lemma smart_title_unfold token :
  _smart_title token =
  if is_empty (strip isspace token) then [] else title_hyphen_pieces (strip isspace token).
Proof. reflexivity. Qed.

Lemma inner_39 : inner_char 39%N.
Proof. split; [reflexivity|discriminate]. Qed.

Lemma title_apostrophe_keeps x :
  Forall (fun c => wordchar c = true) x -> Forall (fun c => c <> 45%N) x ->
  Forall (fun c => wordchar c = true) (title_apostrophe_pieces x)
  /\ Forall (fun c => c <> 45%N) (title_apostrophe_pieces x).
Proof.
  intros Hw H45.
  assert (H : Forall inner_char x).
  { rewrite List.Forall_forall in *. intros c Hc. split; auto. }
  pose proof (map_pieces_Forall 39%N title_part inner_char inner_39
                (fun y Hy H39 => title_part_keeps y Hy H39) x H) as Hk.
  split; (eapply Forall_impl; [exact Hk|]); intros c [? ?]; assumption.
Qed.


Lemma title_apostrophe_idem x :
  Forall inner_char x ->
  title_apostrophe_pieces (title_apostrophe_pieces x) = title_apostrophe_pieces x.
Proof.
  apply (map_pieces_idem 39%N title_part inner_char).
  - intros y Hy H39. apply title_part_keeps; assumption.
  - intros y Hy _. apply title_part_idem. exact Hy.
Qed.

Lemma title_apostrophe_length x :
  Forall inner_char x -> length (title_apostrophe_pieces x) = length x.
Proof.
  apply (map_pieces_length 39%N title_part inner_char).
  intros y Hy _. apply title_part_length. exact Hy.
Qed.

Lemma inner_of_word x : wordchars x -> Forall (fun c => c <> 45%N) x -> Forall inner_char x.
Proof. intros H1 H2. apply List.Forall_and; assumption. Qed.

Lemma title_hyphen_wordchars t : wordchars t -> wordchars (title_hyphen_pieces t).
Proof.
  apply (map_pieces_Forall 45%N title_apostrophe_pieces (fun c => wordchar c = true)).
  - reflexivity.
  - intros y Hy H45. apply title_apostrophe_keeps; assumption.
Qed.

Lemma title_hyphen_idem t :
  wordchars t -> title_hyphen_pieces (title_hyphen_pieces t) = title_hyphen_pieces t.
Proof.
  apply (map_pieces_idem 45%N title_apostrophe_pieces (fun c => wordchar c = true)).
  - intros y Hy H45. apply title_apostrophe_keeps; assumption.
  - intros y Hy H45. apply title_apostrophe_idem, inner_of_word; assumption.
Qed.

Lemma title_hyphen_length t : wordchars t -> length (title_hyphen_pieces t) = length t.
Proof.
  apply (map_pieces_length 45%N title_apostrophe_pieces (fun c => wordchar c = true)).
  intros y Hy H45. apply title_apostrophe_length, inner_of_word; assumption.
Qed.

Lemma wordchars_not_space t : wordchars t -> Forall (fun c => isspace c = false) t.
Proof. intros H. eapply Forall_impl; [exact H|]. intros c. apply wordchar_not_space. Qed.

Lemma smart_title_word t : wordchars t -> _smart_title t = title_hyphen_pieces t.
Proof.
  intros H. rewrite smart_title_unfold.
  rewrite strip_clean by (apply wordchars_not_space; exact H).
  destruct t; reflexivity.
Qed.

Lemma smart_title_of_word t : word t -> word (_smart_title t).
Proof.
  intros [Hn H]. rewrite smart_title_word by exact H. split.
  - intros E. apply (f_equal length) in E. rewrite title_hyphen_length in E by exact H.
    destruct t; [contradiction|discriminate].
  - apply title_hyphen_wordchars. exact H.
Qed.

Lemma smart_title_idem t : wordchars t -> _smart_title (_smart_title t) = _smart_title t.
Proof.
  intros H. rewrite (smart_title_word t H).
  rewrite smart_title_word by (apply title_hyphen_wordchars; exact H).
  apply title_hyphen_idem. exact H.
Qed.

End FioFacts.

Section FioPipeline.
Context {UT : Unicode}.

Lemma isspace_space : isspace 32%N = true.
Proof. rewrite isspace_plain by reflexivity. reflexivity. Qed.

Lemma normalize_spaces_plain s :
  is_plain s = true -> normalize_spaces s = strip isspace (sub_runs isspace SPACE s).
Proof.
  intros H. unfold normalize_spaces. rewrite (nfkc_plain s H).
  rewrite replace1_absent; [reflexivity|].
  apply is_plain_Forall in H. eapply Forall_impl; [exact H|].
  intros c Hc ->. discriminate Hc.
Qed.

Lemma normalize_spaces_keeps (P : char -> Prop) s :
  is_plain s = true -> P 32%N -> Forall P s ->
  Forall (fun c => P c /\ (isspace c = true -> c = 32%N)) (normalize_spaces s).
Proof.
  intros Hp H32 H. rewrite (normalize_spaces_plain s Hp).
  apply strip_Forall. apply sub_runs_from_Forall.
  - repeat constructor. exact H32.
  - eapply Forall_impl; [exact H|]. intros c Hc E. split; [exact Hc|]. congruence.
Qed.

Lemma unified_plain s : Forall unified s -> is_plain s = true.
Proof.
  intros H. apply is_plain_Forall. eapply Forall_impl; [exact H|]. intros c [Hc _]. exact Hc.
Qed.

Lemma unify_unified s : is_plain s = true -> Forall unified (_unify_apostrophes s).
Proof.
  intros H. rewrite unify_map. apply is_plain_Forall in H.
  rewrite List.Forall_forall in *. intros y Hy. apply in_map_iff in Hy.
  destruct Hy as (c & <- & Hc). apply unify_char_plain. auto.
Qed.

Lemma unify_fixed s : Forall unified s -> _unify_apostrophes s = s.
Proof.
  intros H. rewrite unify_map. rewrite <- (map_id s) at 2. apply map_ext_in.
  rewrite List.Forall_forall in H. intros c Hc. destruct (H c Hc). apply unify_char_fixed; auto.
Qed.

Lemma tidy_plain s : Forall tidy s -> is_plain s = true.
Proof.
  intros H. apply unified_plain. eapply Forall_impl; [exact H|]. intros c [Hc _]. exact Hc.
Qed.

Lemma normalize_fio_string_tokens raw :
  normalize_fio_string raw = join SPACE (map _smart_title (fio_tokens raw)).
Proof. reflexivity. Qed.

Lemma tidy_not_space_is_wordchar c : tidy c -> c <> 32%N -> wordchar c = true.
Proof.
  intros [[Hp H96] [Hs Hq]] H32. unfold wordchar.
  rewrite Hp, Hq. rewrite <- (isspace_plain c Hp).
  destruct (isspace c) eqn:E; [exfalso; auto|].
  destruct (chr_eqb c 96%N) eqn:E96; [apply chr_eqb_eq in E96; contradiction|]. reflexivity.
Qed.

Lemma unified_space : unified 32%N.
Proof. split; [reflexivity|discriminate]. Qed.

Lemma tidy_space : tidy 32%N.
Proof. split; [exact unified_space|]. split; [intros _; reflexivity|reflexivity]. Qed.

Lemma fio_tokens_words raw : is_plain raw = true -> Forall word (fio_tokens raw).
Proof.
  intros H. unfold fio_tokens.
  pose proof (unify_unified raw H) as H1.
  pose proof (normalize_spaces_keeps unified _ (unified_plain _ H1) unified_space H1) as H2.
  set (s2 := normalize_spaces (_unify_apostrophes raw)) in *.
  assert (H3 : Forall tidy (sub_runs is_punct SPACE s2)).
  { apply sub_runs_from_Forall.
    - constructor; [exact tidy_space|constructor].
    - eapply Forall_impl; [exact H2|]. intros c [Hu Hs] Hq.
      split; [exact Hu|]. split; assumption. }
  set (s3 := sub_runs is_punct SPACE s2) in *.
  pose proof (normalize_spaces_keeps tidy _ (tidy_plain _ H3) tidy_space H3) as H4.
  set (s4 := normalize_spaces s3) in *.
  assert (H4' : Forall tidy s4).
  { eapply Forall_impl; [exact H4|]. intros c [Hc _]. exact Hc. }
  pose proof (split_on_pieces 32%N tidy s4 H4') as Hp.
  change (ch " ") with 32%N.
  rewrite List.Forall_forall in Hp. apply List.Forall_forall. intros t Ht.
  apply filter_In in Ht. destruct Ht as [Ht Hne]. destruct (Hp t Ht) as [Ht1 Ht2]. split.
  - intros ->. discriminate.
  - rewrite List.Forall_forall in Ht1, Ht2. apply List.Forall_forall. intros c Hc.
    apply tidy_not_space_is_wordchar; auto.
Qed.

(** A name made of canonical tokens joined by single spaces is left as it
    is by each step. *)
Lemma wordchar_tidy c : wordchar c = true -> tidy c /\ c <> 32%N.
Proof.
  intros H. pose proof (wordchar_not_space c H) as Hs.
  apply wordchar_iff in H. unfold wordchar_spec in H.
  assert (Hp : plain c = true).
  { unfold plain. destruct H as [Hr _].
    rewrite !orb_true_iff, andb_true_iff, N.ltb_lt, !N.leb_le, !N.eqb_eq. tauto. }
  assert (Hq : is_punct c = false).
  { unfold is_punct, char_in, chr_eqb. simpl.
    rewrite !orb_false_iff, !N.eqb_neq. tauto. }
  split; [|lia].
  split; [split; [exact Hp|tauto]|]. split; [congruence|exact Hq].
Qed.

Lemma joined_words_tidy ws : Forall word ws -> Forall tidy (join SPACE ws).
Proof.
  intros H. apply join_Forall.
  - constructor; [exact tidy_space|constructor].
  - eapply Forall_impl; [exact H|]. intros w [_ Hw].
    eapply Forall_impl; [exact Hw|]. intros c Hc. apply wordchar_tidy. exact Hc.
Qed.

Lemma joined_words_head ws c :
  Forall word ws -> head (join SPACE ws) = Some c -> wordchar c = true.
Proof.
  intros H Hc. destruct ws as [|w ws]; [discriminate|].
  apply Forall_cons in H. destruct H as [[Hn Hw] _].
  destruct w as [|x w]; [contradiction|].
  apply Forall_cons in Hw. destruct Hw as [Hx _].
  destruct ws; simpl in Hc; injection Hc as <-; exact Hx.
Qed.

Lemma join_nonempty sep (w : str) ws : w <> [] -> join sep (w :: ws) <> [].
Proof. destruct w; [contradiction|]. destruct ws; discriminate. Qed.

Lemma joined_words_last ws c :
  Forall word ws -> last (join SPACE ws) = Some c -> wordchar c = true.
Proof.
  intros H. induction ws as [|w ws IH]; [discriminate|].
  apply Forall_cons in H. destruct H as [[Hn Hw] Hws].
  destruct ws as [|w' ws].
  - simpl. intros Hc. apply (Forall_last _ _ _ Hw Hc).
  - rewrite join_cons2.
    pose proof Hws as Hws'. apply Forall_cons in Hws'. destruct Hws' as [[Hn' _] _].
    pose proof (join_nonempty SPACE w' ws Hn') as Hj.
    remember (join SPACE (w' :: ws)) as J eqn:EJ.
    change (SPACE ++ J) with (32%N :: J). rewrite last_app_cons.
    destruct J as [|c0 J']; [contradiction|].
    rewrite last_cons_cons. intros Hc. apply IH; [exact Hws|exact Hc].
Qed.

Lemma joined_words_ends ws : Forall word ws -> ends_outside isspace (join SPACE ws).
Proof.
  intros H. split; intros c Hc; apply wordchar_not_space.
  - eapply joined_words_head; eauto.
  - eapply joined_words_last; eauto.
Qed.

Lemma joined_words_runs ws :
  Forall word ws -> sub_runs isspace SPACE (join SPACE ws) = join SPACE ws.
Proof.
  unfold sub_runs. intros H. induction ws as [|w ws IH]; [reflexivity|].
  apply Forall_cons in H. destruct H as [[Hn Hw] Hws].
  destruct ws as [|w' ws].
  - simpl. apply sub_runs_from_clean. apply wordchars_not_space. exact Hw.
  - rewrite join_cons2.
    specialize (IH Hws).
    assert (Hh : forall c, head (join SPACE (w' :: ws)) = Some c -> isspace c = false).
    { intros c Hc. apply wordchar_not_space. eapply joined_words_head; eauto. }
    remember (join SPACE (w' :: ws)) as J eqn:EJ.
    change (SPACE ++ J) with (32%N :: J).
    destruct (exists_last Hn) as (w0 & z & ->).
    rewrite <- app_assoc. change ([z] ++ 32%N :: J) with (z :: 32%N :: J).
    apply Forall_app in Hw. destruct Hw as [Hw0 Hz].
    apply Forall_cons in Hz. destruct Hz as [Hz _].
    rewrite sub_runs_from_app by (apply wordchar_not_space; exact Hz).
    rewrite sub_runs_from_clean by (apply wordchars_not_space; exact Hw0).
    f_equal. f_equal. cbn [sub_runs_from]. rewrite isspace_space.
    change (SPACE ++ ?x) with (32%N :: x). f_equal.
    rewrite sub_runs_from_head by exact Hh. exact IH.
Qed.

Lemma joined_words_normalize_spaces ws :
  Forall word ws -> normalize_spaces (join SPACE ws) = join SPACE ws.
Proof.
  intros H. rewrite normalize_spaces_plain by (apply tidy_plain, joined_words_tidy; exact H).
  rewrite joined_words_runs by exact H. apply strip_ends_outside, joined_words_ends. exact H.
Qed.

Lemma tidy_no_punct s : Forall tidy s -> sub_runs is_punct SPACE s = s.
Proof.
  intros H. apply sub_runs_from_clean. eapply Forall_impl; [exact H|].
  intros c [_ [_ Hq]]. exact Hq.
Qed.

Lemma joined_words_tokens ws : Forall word ws -> fio_tokens (join SPACE ws) = ws.
Proof.
  intros H. unfold fio_tokens.
  pose proof (joined_words_tidy ws H) as Ht.
  rewrite unify_fixed by (eapply Forall_impl; [exact Ht|]; intros c [Hc _]; exact Hc).
  rewrite joined_words_normalize_spaces by exact H.
  rewrite tidy_no_punct by exact Ht.
  rewrite joined_words_normalize_spaces by exact H.
  destruct ws as [|w ws]; [reflexivity|].
  change SPACE with [32%N]. change (ch " ") with 32%N. rewrite split_join.
  - apply forallb_filter_id. apply forallb_forall. intros t Hin.
    rewrite List.Forall_forall in H. destruct (H t Hin) as [Hn _].
    destruct t; [contradiction|reflexivity].
  - discriminate.
  - eapply Forall_impl; [exact H|]. intros t [_ Hw].
    eapply Forall_impl; [exact Hw|]. intros c Hc. apply wordchar_tidy. exact Hc.
Qed.

Lemma normalize_fio_string_canonical raw :
  is_plain raw = true ->
  exists ws, canonical_tokens ws /\ normalize_fio_string raw = join SPACE ws.
Proof.
  intros H. exists (map _smart_title (fio_tokens raw)).
  pose proof (fio_tokens_words raw H) as Hw.
  split; [|apply normalize_fio_string_tokens].
  split; rewrite List.Forall_forall in *; intros y Hy; apply in_map_iff in Hy;
    destruct Hy as (t & <- & Ht); destruct (Hw t Ht) as [Hn Hc].
  - apply smart_title_of_word. split; assumption.
  - apply smart_title_idem. exact Hc.
Qed.

Lemma normalize_fio_string_fixed ws :
  canonical_tokens ws -> normalize_fio_string (join SPACE ws) = join SPACE ws.
Proof.
  intros [Hw Hf]. rewrite normalize_fio_string_tokens.
  rewrite joined_words_tokens by exact Hw. f_equal.
  rewrite <- (map_id ws) at 2. apply map_ext_in.
  rewrite List.Forall_forall in Hf. exact Hf.
Qed.

Lemma normalize_fio_string_idempotent raw :
  is_plain raw = true ->
  normalize_fio_string (normalize_fio_string raw) = normalize_fio_string raw.
Proof.
  intros H. destruct (normalize_fio_string_canonical raw H) as (ws & Hc & ->).
  apply normalize_fio_string_fixed. exact Hc.
Qed.

(** *** The folder-title codec *)

Lemma national_body_Forall (P : char -> Prop) digits :
  Forall P digits -> Forall P (national_body digits).
Proof.
  intros H. unfold national_body.
  destruct (startswith ZERO digits).
  - simpl. exact H.
  - destruct (startswith UA_CODE digits).
    + apply Forall_drop. exact H.
    + apply drop_while_Forall. exact H.
Qed.

Lemma plain_digit_wordchar c : plain c = true -> isdecimal c = true -> wordchar c = true.
Proof.
  intros Hp Hd. rewrite (isdecimal_plain c Hp) in Hd.
  apply wordchar_iff. apply plain_cases in Hp. unfold wordchar_spec.
  unfold plain_digit in Hd. apply andb_true_iff in Hd. destruct Hd as [H1 H2].
  apply N.leb_le in H1. apply N.leb_le in H2. lia.
Qed.

(** The canonical phone of a plain input is the prefix and a body of at
    most nine ASCII digits. *)
Lemma normalize_phone_plain phone :
  is_plain phone = true ->
  exists body,
    normalize_phone_e164_ua phone = UA_PREFIX ++ body
    /\ forallb isdecimal body = true
    /\ (length body <= 9)%nat
    /\ wordchars body.
Proof.
  intros Hp. unfold normalize_phone_e164_ua.
  destruct (keep isdecimal phone) as [|d ds] eqn:E.
  - exists []. simpl. repeat split; auto. lia.
  - exists (slice_last 9 (national_body (d :: ds))). simpl is_empty. cbv iota.
    assert (Hk : Forall (fun c => plain c = true /\ isdecimal c = true) (d :: ds)).
    { rewrite <- E. unfold keep. apply is_plain_Forall in Hp.
      rewrite List.Forall_forall in *. intros c Hc. apply filter_In in Hc.
      destruct Hc. split; auto. }
    apply (national_body_Forall _ _) in Hk.
    apply (Forall_drop _ (length (national_body (d :: ds)) - 9)) in Hk.
    fold (slice_last 9 (national_body (d :: ds))) in Hk.
    split; [reflexivity|]. split; [|split].
    + apply forallb_forall. rewrite List.Forall_forall in Hk. intros c Hc. apply Hk. exact Hc.
    + rewrite slice_last_length. lia.
    + eapply Forall_impl; [exact Hk|]. intros c [? ?]. apply plain_digit_wordchar; assumption.
Qed.

Lemma normalize_phone_of_digits body :
  forallb isdecimal body = true -> (length body <= 9)%nat ->
  normalize_phone_e164_ua (UA_CODE ++ body) = UA_PREFIX ++ body.
Proof.
  intros Hd Hl. unfold normalize_phone_e164_ua.
  assert (Hk : keep isdecimal (UA_CODE ++ body) = UA_CODE ++ body).
  { apply keep_all. simpl. rewrite !isdecimal_ascii by reflexivity. exact Hd. }
  rewrite Hk. simpl. unfold slice_from. simpl.
  rewrite slice_last_short by exact Hl. reflexivity.
Qed.

Lemma split_first_at sep l r :
  Forall (fun c => c <> sep) l -> split_first sep (l ++ sep :: r) = Some (l, r).
Proof.
  induction l as [|c l IH]; intros H; simpl.
  - rewrite chr_eqb_refl. reflexivity.
  - apply Forall_cons in H. destruct H as [Hc Hl]. rewrite (IH Hl).
    destruct (chr_eqb c sep) eqn:E; [apply chr_eqb_eq in E; contradiction|reflexivity].
Qed.

Lemma before_first_comma_at l r :
  Forall (fun c => c <> 44%N) l -> before_first_comma (l ++ 44%N :: r) = l.
Proof.
  intros H. unfold before_first_comma, split_on. change (ch ",") with 44%N.
  rewrite split_where_app_sep; [reflexivity| |apply chr_eqb_refl].
  eapply Forall_impl; [exact H|]. intros c Hc. simpl.
  destruct (chr_eqb c 44%N) eqn:E; [apply chr_eqb_eq in E; contradiction|reflexivity].
Qed.

Lemma existsb_absent (x : char) s : Forall (fun c => c <> x) s -> existsb (chr_eqb x) s = false.
Proof.
  induction s as [|c s IH]; intros H; [reflexivity|]. simpl.
  apply Forall_cons in H. destruct H as [Hc Hs]. rewrite (IH Hs).
  destruct (chr_eqb x c) eqn:E; [apply chr_eqb_eq in E; congruence|reflexivity].
Qed.

Lemma tidy_not_comma_lf c : tidy c -> c <> 44%N /\ c <> LF.
Proof.
  intros [_ [Hs Hq]]. split; intros ->.
  - discriminate Hq.
  - assert (E : isspace LF = true) by (rewrite isspace_plain by reflexivity; reflexivity).
    specialize (Hs E). discriminate Hs.
Qed.

Lemma drop_final_lf_id s : (forall z, last s = Some z -> z <> LF) -> drop_final_lf s = s.
Proof.
  intros H. unfold drop_final_lf. pose proof (head_rev s) as Hh.
  destruct (rev s) as [|z r]; [reflexivity|]. simpl in Hh.
  destruct (chr_eqb z LF) eqn:E; [|reflexivity].
  apply chr_eqb_eq in E. exfalso. apply (H z); auto.
Qed.

(** The title built from canonical tokens and a canonical phone body. *)
Lemma title_for_compare_fixed ws body :
  canonical_tokens ws ->
  forallb isdecimal body = true -> (length body <= 9)%nat -> wordchars body ->
  normalize_folder_title_for_compare (join SPACE ws ++ COMMA_SPACE ++ UA_PREFIX ++ body)
  = join SPACE ws ++ COMMA_SPACE ++ UA_PREFIX ++ body.
Proof.
  intros Hc Hd Hl Hb. pose proof Hc as [Hw Hf].
  set (F := join SPACE ws). set (P := UA_PREFIX ++ body).
  assert (HP : wordchars P).
  { apply Forall_app. split; [|exact Hb]. repeat (constructor; [reflexivity|]). constructor. }
  assert (HF : Forall tidy F) by (apply joined_words_tidy; exact Hw).
  assert (HPt : Forall tidy P).
  { eapply Forall_impl; [exact HP|]. intros c Hc'. apply wordchar_tidy. exact Hc'. }
  assert (HPs : Forall (fun c => isspace c = false) P) by (apply wordchars_not_space; exact HP).
  change (F ++ COMMA_SPACE ++ P) with (F ++ 44%N :: 32%N :: P).
  assert (HT : Forall unified (F ++ 44%N :: 32%N :: P)).
  { apply Forall_app. split; [eapply Forall_impl; [exact HF|]; intros c [? _]; assumption|].
    constructor; [split; [reflexivity|discriminate]|].
    constructor; [exact unified_space|].
    eapply Forall_impl; [exact HPt|]. intros c [? _]. assumption. }
  assert (H44 : isspace 44%N = false) by (rewrite isspace_plain by reflexivity; reflexivity).
  unfold normalize_folder_title_for_compare.
  rewrite unify_fixed by exact HT.
  assert (HN : normalize_spaces (F ++ 44%N :: 32%N :: P) = F ++ 44%N :: 32%N :: P).
  { rewrite normalize_spaces_plain by (apply unified_plain; exact HT).
    unfold sub_runs. rewrite sub_runs_from_app by exact H44.
    fold (sub_runs isspace SPACE F). unfold F at 1. rewrite joined_words_runs by exact Hw.
    fold F. cbn [sub_runs_from]. rewrite isspace_space.
    change (SPACE ++ ?x) with (32%N :: x).
    rewrite sub_runs_from_clean by exact HPs.
    apply strip_ends_outside. split; intros c Hc'.
    - destruct F as [|x F'] eqn:EF.
      + simpl in Hc'. injection Hc' as <-. exact H44.
      + simpl in Hc'. injection Hc' as <-. apply wordchar_not_space.
        apply (joined_words_head ws x Hw). fold F. rewrite EF. reflexivity.
    - rewrite last_app_cons, last_cons_cons in Hc'. unfold P in Hc'.
      change (32%N :: UA_PREFIX ++ body) with ([32%N; 43%N; 51%N; 56%N] ++ 48%N :: body) in Hc'.
      rewrite last_app_cons in Hc'.
      apply (Forall_last (fun c => isspace c = false) (48%N :: body) c); [|exact Hc'].
      apply wordchars_not_space. constructor; [reflexivity|exact Hb]. }
  rewrite HN.
  assert (Hsplit : match_name_comma_rest (F ++ 44%N :: 32%N :: P) = Some (F, 32%N :: P)).
  { unfold match_name_comma_rest. change (ch ",") with 44%N.
    rewrite split_first_at
      by (eapply Forall_impl; [exact HF|]; intros c Hc'; apply tidy_not_comma_lf; exact Hc').
    assert (Hlf : drop_final_lf (32%N :: P) = 32%N :: P).
    { apply drop_final_lf_id. intros z Hz. unfold P in Hz.
      change (32%N :: UA_PREFIX ++ body) with ([32%N; 43%N; 51%N; 56%N] ++ 48%N :: body) in Hz.
      rewrite last_app_cons in Hz.
      assert (Hz' : tidy z).
      { apply (Forall_last tidy (48%N :: body) z); [|exact Hz].
        constructor; [apply wordchar_tidy; reflexivity|].
        eapply Forall_impl; [exact Hb|]. intros c Hc'. apply wordchar_tidy. exact Hc'. }
      apply tidy_not_comma_lf in Hz'. tauto. }
    rewrite Hlf.
    rewrite existsb_absent
      by (eapply Forall_impl; [exact HF|]; intros c Hc'; apply tidy_not_comma_lf; exact Hc').
    rewrite existsb_absent; [reflexivity|].
    constructor; [discriminate|].
    eapply Forall_impl; [exact HPt|]. intros c Hc'. apply tidy_not_comma_lf. exact Hc'. }
  rewrite Hsplit.
  rewrite (strip_ends_outside isspace F) by (apply joined_words_ends; exact Hw).
  assert (HR : strip isspace (32%N :: P) = P).
  { unfold strip, lstrip. cbn [drop_while]. rewrite isspace_space.
    fold (lstrip isspace P). fold (strip isspace P). apply strip_clean. exact HPs. }
  rewrite HR. unfold F at 1. rewrite normalize_fio_string_fixed by exact Hc. fold F.
  change (keep isdecimal P) with (keep isdecimal (UA_PREFIX ++ body)).
  rewrite keep_prefixed by exact Hd.
  change (is_empty (UA_CODE ++ body)) with false. cbv iota.
  rewrite normalize_phone_of_digits by assumption. reflexivity.
Qed.

Lemma title_roundtrip fio phone :
  is_plain fio = true -> is_plain phone = true ->
  normalize_folder_title_for_compare (build_folder_title fio phone)
  = normalize_fio_string fio ++ COMMA_SPACE ++ normalize_phone_e164_ua phone.
Proof.
  intros Hf Hp. unfold build_folder_title.
  destruct (normalize_fio_string_canonical fio Hf) as (ws & Hc & ->).
  destruct (normalize_phone_plain phone Hp) as (body & -> & Hd & Hl & Hb).
  apply title_for_compare_fixed; assumption.
Qed.

(** The text the fuzzy tier searches for, when the expected title was built
    from a plain name and phone: the whole normalized name. *)
Lemma fuzzy_needle_of_built_title fio phone :
  is_plain fio = true -> is_plain phone = true ->
  before_first_comma (normalize_folder_title_for_compare (build_folder_title fio phone))
  = normalize_fio_string fio.
Proof.
  intros Hf Hp. rewrite title_roundtrip by assumption.
  destruct (normalize_fio_string_canonical fio Hf) as (ws & [Hw _] & ->).
  change (COMMA_SPACE ++ ?x) with (44%N :: 32%N :: x).
  apply before_first_comma_at.
  pose proof (joined_words_tidy ws Hw) as Ht.
  eapply Forall_impl; [exact Ht|]. intros c Hc. apply tidy_not_comma_lf. exact Hc.
Qed.

End FioPipeline.

(** C4, as stated, fails: the sharp s is uppercased to two letters, the
    second of which is lowercased by the second pass. *)
Lemma normalize_fio_string_sharp_s :
  @normalize_fio_string py_tables (U "ß") = U "SS"
  /\ @normalize_fio_string py_tables (@normalize_fio_string py_tables (U "ß")) = U "Ss"
  /\ @normalize_fio_string py_tables (@normalize_fio_string py_tables (U "ß"))
     <> @normalize_fio_string py_tables (U "ß").
Proof. split; [|split]; [reflexivity|reflexivity|]. vm_compute. discriminate. Qed.

(** C2, as stated, fails: the title built for the name sharp s and the
    phone 0671234567 starts with SS, and parsing it for comparison gives
    Ss. *)
Lemma built_title_roundtrip_sharp_s :
  @build_folder_title py_tables (U "ß") (U "0671234567") = U "SS, +380671234567"
  /\ @normalize_folder_title_for_compare py_tables
       (@build_folder_title py_tables (U "ß") (U "0671234567")) = U "Ss, +380671234567"
  /\ @normalize_folder_title_for_compare py_tables
       (@build_folder_title py_tables (U "ß") (U "0671234567"))
     <> @normalize_fio_string py_tables (U "ß") ++ U ", "
        ++ @normalize_phone_e164_ua py_tables (U "0671234567").
Proof. split; [|split]; [reflexivity|reflexivity|]. vm_compute. discriminate. Qed.

(** ** The folder search *)

Lemma bind_Ok {A B} (m : result A) (k : A -> result B) (b : B) :
  (x ← m; k x) = Ok b -> exists a, m = Ok a /\ k a = Ok b.
Proof. destruct m as [a|e]; simpl; [eauto|discriminate]. Qed.

Lemma nat_leb_total a b : Nat.leb a b = true \/ Nat.leb b a = true.
Proof. destruct (Nat.leb_spec a b), (Nat.leb_spec b a); auto; lia. Qed.

Lemma nat_leb_trans a b c : Nat.leb a b = true -> Nat.leb b c = true -> Nat.leb a c = true.
Proof. rewrite !Nat.leb_le. lia. Qed.

Lemma pair_leb_spec a b :
  pair_leb a b = true <-> (a.1 < b.1 \/ (a.1 = b.1 /\ a.2 <= b.2))%nat.
Proof.
  unfold pair_leb. rewrite orb_true_iff, andb_true_iff, Nat.ltb_lt, Nat.eqb_eq, Nat.leb_le.
  tauto.
Qed.

Lemma pair_leb_total a b : pair_leb a b = true \/ pair_leb b a = true.
Proof. rewrite !pair_leb_spec. lia. Qed.

Lemma pair_leb_trans a b c : pair_leb a b = true -> pair_leb b c = true -> pair_leb a c = true.
Proof. rewrite !pair_leb_spec. lia. Qed.

Lemma setdefault_values_In f seen g :
  In f (map snd (setdefault seen g)) -> In f (map snd seen) \/ f = g.
Proof.
  unfold setdefault. destruct (existsb _ seen); [auto|].
  rewrite map_app, in_app_iff. simpl. intuition.
Qed.

Lemma fold_setdefault_In f items seen :
  In f (map snd (fold_left setdefault items seen)) -> In f (map snd seen) \/ In f items.
Proof.
  revert seen. induction items as [|g items IH]; simpl; intros seen H; [auto|].
  apply IH in H. destruct H as [H|H]; [|auto].
  apply setdefault_values_In in H. intuition.
Qed.

Lemma seen_values_In f items : In f (seen_values items) -> In f items.
Proof.
  unfold seen_values. intros H. apply fold_setdefault_In in H.
  destruct H as [[]|H]. exact H.
Qed.

Section FolderFacts.
Context {UT : Unicode}.

Lemma find_folder_by_phone_cases drive parent phone expected f :
  find_folder_by_phone drive parent phone expected = Ok (Some f) ->
  exists matched,
    phone_matched drive parent phone = Ok matched
    /\ ((((length matched =? 1)%nat
          || match expected with None => true | Some s => is_empty s end) = true
         /\ first_greatest Nat.leb by_name_length f matched)
        \/ (((length matched =? 1)%nat
             || match expected with None => true | Some s => is_empty s end) = false
            /\ first_greatest pair_leb (overlap_key (tokens (default [] expected))) f matched)).
Proof.
  unfold find_folder_by_phone, phone_matched. intros H.
  apply bind_Ok in H. destruct H as (items & Hitems & H). rewrite Hitems. simpl.
  eexists. split; [reflexivity|].
  set (matched := List.filter _ (seen_values items)) in *.
  destruct matched as [|m ms] eqn:Em; [discriminate|]. rewrite <- Em in *.
  destruct ((length matched =? 1)%nat || _) eqn:Ec.
  - left. split; [reflexivity|]. injection H as H.
    eapply sort_by_reverse_head; eauto using nat_leb_total, nat_leb_trans.
  - right. split; [reflexivity|]. injection H as H.
    eapply sort_by_reverse_head; eauto using pair_leb_total, pair_leb_trans.
Qed.

Lemma first_greatest_In {A K} (leb : K -> K -> bool) (key : A -> K) f l :
  first_greatest leb key f l -> In f l.
Proof. intros (l1 & l2 & -> & _). apply in_app_iff. right. left. reflexivity. Qed.

Lemma phone_confirmed_extract e164 f :
  phone_confirmed e164 f = true -> _extract_e164_from_title (file_name f) = Some e164.
Proof.
  unfold phone_confirmed.
  destruct (_extract_e164_from_title (file_name f)) as [cand|] eqn:E; [|discriminate].
  intros H. apply andb_true_iff in H. destruct H as [_ H]. apply str_eqb_eq in H.
  unfold _extract_e164_from_title in E.
  destruct (length _ <? 9)%nat; [discriminate|].
  destruct (last _) as [run|]; [|discriminate].
  injection E as <-. rewrite normalize_phone_idempotent in H. congruence.
Qed.

End FolderFacts.

(** C3.  Every folder the phone tier returns has a name from which the
    phone extractor yields a phone, and that phone is exactly the canonical
    form of the phone searched for; the folder is one of those the store
    listed for the query of the tier. *)
Theorem find_folder_by_phone_confirms_phone :
  forall (UT : Unicode) (drive : Drive) (parent_id phone_e164 : str)
         (expected_fio : option str) (f : file),
    find_folder_by_phone drive parent_id phone_e164 expected_fio = Ok (Some f) ->
    _extract_e164_from_title (file_name f) = Some (normalize_phone_e164_ua phone_e164)
    /\ exists pages,
         drive (phone_query parent_id (normalize_phone_e164_ua phone_e164)) 100%nat = Ok pages
         /\ In f (concat pages).
Proof.
  intros UT drive parent phone expected f H.
  apply find_folder_by_phone_cases in H. destruct H as (matched & Hm & H).
  assert (Hin : In f matched).
  { destruct H as [[_ H]|[_ H]]; eapply first_greatest_In; eauto. }
  unfold phone_matched in Hm. apply bind_Ok in Hm. destruct Hm as (items & Hi & Hm).
  injection Hm as <-. apply filter_In in Hin. destruct Hin as [Hin Hc].
  split; [apply phone_confirmed_extract; exact Hc|].
  unfold all_pages in Hi. apply bind_Ok in Hi. destruct Hi as (pages & Hp & Hi).
  injection Hi as <-. exists pages. split; [exact Hp|].
  apply seen_values_In. exact Hin.
Qed.

Lemma filter_split {A} (p : A -> bool) (l : list A) b' f a' :
  List.filter p l = b' ++ f :: a' ->
  exists b a, l = b ++ f :: a /\ List.filter p b = b' /\ List.filter p a = a'.
Proof.
  revert b'. induction l as [|x l IH]; intros b' H; simpl in H.
  - destruct b'; discriminate.
  - destruct (p x) eqn:Hx.
    + destruct b' as [|y b'']; simpl in H; injection H as Hxy H.
      * subst x. exists [], l. auto.
      * subst y. destruct (IH _ H) as (b & a & -> & Hb & Ha).
        exists (x :: b), a. simpl. rewrite Hx, Hb. auto.
    + destruct (IH _ H) as (b & a & -> & Hb & Ha).
      exists (x :: b), a. simpl. rewrite Hx. auto.
Qed.

Section TierFacts.
Context {UT : Unicode}.

Lemma find_folder_by_fuzzy_choice drive parent fio_norm last9 f :
  find_folder_by_fuzzy drive parent fio_norm last9 = Ok (Some f) ->
  exists pages before after,
    drive (fuzzy_query parent fio_norm) 100%nat = Ok pages
    /\ concat pages = before ++ f :: after
    /\ fuzzy_kept last9 f
    /\ (forall g, In g before -> fuzzy_kept last9 g ->
                  (length (file_name g) < length (file_name f))%nat)
    /\ (forall g, In g after -> fuzzy_kept last9 g ->
                  (length (file_name g) <= length (file_name f))%nat).
Proof.
  unfold find_folder_by_fuzzy. intros H.
  apply bind_Ok in H. destruct H as (items & Hi & H). injection H as H.
  unfold all_pages in Hi. apply bind_Ok in Hi. destruct Hi as (pages & Hp & Hi).
  injection Hi as <-. exists pages.
  apply sort_by_reverse_head in H; eauto using nat_leb_total, nat_leb_trans.
  pose proof (first_greatest_In _ _ _ _ H) as Hin.
  destruct H as (l1 & l2 & Hl & H1 & H2). unfold by_name_length in *.
  destruct (is_empty last9) eqn:E.
  - apply is_empty_true in E. exists l1, l2. split; [exact Hp|]. split; [exact Hl|].
    split; [left; exact E|]. split; intros g Hg _.
    + specialize (H1 g Hg). apply Nat.leb_gt in H1. exact H1.
    + specialize (H2 g Hg). apply Nat.leb_le in H2. exact H2.
  - assert (Hne : last9 <> []) by (intros ->; discriminate).
    apply filter_In in Hin. destruct Hin as [_ Hf].
    apply filter_split in Hl. destruct Hl as (b & a & Hl & Hb & Ha).
    exists b, a. split; [exact Hp|]. split; [exact Hl|].
    split; [right; exact Hf|]. split; intros g Hg [Hk|Hk]; try contradiction.
    + assert (Hg' : In g l1) by (rewrite <- Hb; apply filter_In; auto).
      specialize (H1 g Hg'). apply Nat.leb_gt in H1. exact H1.
    + assert (Hg' : In g l2) by (rewrite <- Ha; apply filter_In; auto).
      specialize (H2 g Hg'). apply Nat.leb_le in H2. exact H2.
Qed.

Lemma find_folder_by_fuzzy_none drive parent fio_norm last9 pages :
  drive (fuzzy_query parent fio_norm) 100%nat = Ok pages ->
  (find_folder_by_fuzzy drive parent fio_norm last9 = Ok None
   <-> forall g, In g (concat pages) -> ~ fuzzy_kept last9 g).
Proof.
  intros Hp. unfold find_folder_by_fuzzy, all_pages. rewrite Hp. simpl.
  split.
  - intros H. injection H as H. apply sort_by_reverse_head_None in H.
    intros g Hg [Hk|Hk].
    + subst last9. simpl in H. rewrite H in Hg. exact Hg.
    + destruct (is_empty last9); [rewrite H in Hg; exact Hg|].
      assert (Hin : In g (List.filter (keeps_phone last9) (concat pages)))
        by (apply filter_In; auto).
      rewrite H in Hin. exact Hin.
  - intros H. f_equal.
    destruct (head _) as [f|] eqn:Hf; [|reflexivity]. exfalso.
    apply sort_by_reverse_head in Hf; eauto using nat_leb_total, nat_leb_trans.
    apply first_greatest_In in Hf.
    destruct (is_empty last9) eqn:E.
    + apply is_empty_true in E. apply (H f Hf). left. exact E.
    + apply filter_In in Hf. destruct Hf as [Hf Hk]. apply (H f Hf). right. exact Hk.
Qed.

Lemma find_folder_by_phone_several drive parent phone expected matched :
  phone_matched drive parent phone = Ok matched ->
  (2 <= length matched)%nat -> expected <> [] ->
  find_folder_by_phone drive parent phone (Some expected) =
  Ok (head (sort_by_reverse pair_leb (overlap_key (tokens expected)) matched)).
Proof.
  unfold phone_matched, find_folder_by_phone. intros Hm Hl He.
  apply bind_Ok in Hm. destruct Hm as (items & Hi & Hm). injection Hm as Hm.
  rewrite Hi. simpl. rewrite Hm.
  destruct matched as [|m1 [|m2 ms]]; simpl in Hl; try lia.
  destruct expected; [congruence|]. reflexivity.
Qed.

End TierFacts.

(** C5, as amended.  The fuzzy tier, called by [find_client_folder_strict]
    with the canonicalized expected title and the last nine digits of the
    phone, asks the store for the folders whose name contains the whole
    text before the first comma of the canonicalized title: for a title
    built from a plain name and phone, the whole normalized name, not its
    first token.  When it returns a folder, the folder is one the store
    listed; it is kept, that is, no phone suffix was given or the digits of
    its name contain the suffix; no kept folder has a longer name; and the
    kept folders listed before it have shorter names. *)
Theorem fuzzy_tier_searches_whole_name_and_prefers_longest :
  forall (UT : Unicode) (drive : Drive) (root_folder_id expected_title phone_e164 : str)
         (f : file),
    let fio_only := normalize_folder_title_for_compare expected_title in
    let last9 := slice_last 9 (keep isdecimal phone_e164) in
    find_folder_by_fuzzy drive root_folder_id fio_only last9 = Ok (Some f) ->
    fuzzy_query root_folder_id fio_only
    = U "'" ++ root_folder_id
      ++ U "' in parents and mimeType='application/vnd.google-apps.folder' and name contains '"
      ++ before_first_comma fio_only ++ U "' and trashed=false"
    /\ (forall fio phone,
          is_plain fio = true -> is_plain phone = true ->
          expected_title = build_folder_title fio phone ->
          before_first_comma fio_only = normalize_fio_string fio)
    /\ exists pages before after,
         drive (fuzzy_query root_folder_id fio_only) 100%nat = Ok pages
         /\ concat pages = before ++ f :: after
         /\ fuzzy_kept last9 f
         /\ (forall g, In g before -> fuzzy_kept last9 g ->
                (length (file_name g) < length (file_name f))%nat)
         /\ (forall g, In g after -> fuzzy_kept last9 g ->
                (length (file_name g) <= length (file_name f))%nat).
Proof.
  intros UT drive root title phone f fio_only last9 H. split; [|split].
  - reflexivity.
  - intros fio ph Hf Hp ->. apply fuzzy_needle_of_built_title; assumption.
  - apply find_folder_by_fuzzy_choice. exact H.
Qed.

Lemma fuzzy_tier_searches_whole_name_and_prefers_longest_witness :
  exists pages before after,
    two_folder_drive
      (fuzzy_query (U "root")
         (@normalize_folder_title_for_compare py_tables (U "Melnyk Petro, +380671234567")))
      100%nat = Ok pages
    /\ concat pages = before ++ folder_petrenko :: after
    /\ @fuzzy_kept py_tables (slice_last 9 (keep (@isdecimal py_tables) (U "+380671234567")))
         folder_petrenko
    /\ (forall g, In g before ->
           @fuzzy_kept py_tables (slice_last 9 (keep (@isdecimal py_tables) (U "+380671234567"))) g ->
           (length (file_name g) < length (file_name folder_petrenko))%nat)
    /\ (forall g, In g after ->
           @fuzzy_kept py_tables (slice_last 9 (keep (@isdecimal py_tables) (U "+380671234567"))) g ->
           (length (file_name g) <= length (file_name folder_petrenko))%nat).
Proof.
  refine (proj2 (proj2 (fuzzy_tier_searches_whole_name_and_prefers_longest py_tables
                          two_folder_drive (U "root") (U "Melnyk Petro, +380671234567")
                          (U "+380671234567") folder_petrenko _))).
  vm_compute. reflexivity.
Defined.

(** C5, as stated, fails: for the expected title of Melnyk Petro the query
    of the fuzzy tier asks for names that contain the two tokens Melnyk
    Petro, while the surname token is Melnyk. *)
Lemma fuzzy_tier_needle_is_whole_name :
  fuzzy_query (U "root")
    (@normalize_folder_title_for_compare py_tables (U "Melnyk Petro, +380671234567"))
  = U "'root' in parents and mimeType='application/vnd.google-apps.folder' and name contains 'Melnyk Petro' and trashed=false"
  /\ @surname_token py_tables (U "Melnyk Petro, +380671234567") = U "Melnyk"
  /\ before_first_comma
       (@normalize_folder_title_for_compare py_tables (U "Melnyk Petro, +380671234567"))
     <> @surname_token py_tables (U "Melnyk Petro, +380671234567").
Proof. split; [|split]; [reflexivity|reflexivity|]. vm_compute. discriminate. Qed.

Lemma find_folder_by_phone_confirms_phone_witness :
  @_extract_e164_from_title py_tables (file_name folder_melnyk)
  = Some (@normalize_phone_e164_ua py_tables (U "+380671234567"))
  /\ exists pages,
       two_folder_drive
         (@phone_query py_tables (U "root") (@normalize_phone_e164_ua py_tables (U "+380671234567")))
         100%nat = Ok pages
       /\ In folder_melnyk (concat pages).
Proof.
  apply (find_folder_by_phone_confirms_phone py_tables two_folder_drive (U "root")
           (U "+380671234567") (Some (U "Melnyk, +380671234567")) folder_melnyk).
  vm_compute. reflexivity.
Defined.

(** *** The exact tier and the text of its query *)

Lemma lex_literal ts acc x :
  quotable x = true ->
  fold_left lex_step x (ts, InLit acc) = (ts, InLit (rev x ++ acc)).
Proof.
  revert acc. induction x as [|c x IH]; intros acc H; [reflexivity|].
  simpl in H. apply andb_true_iff in H. destruct H as [Hc Hx].
  apply negb_true_iff, orb_false_iff in Hc. destruct Hc as [Hq Hb].
  simpl. rewrite Hq, Hb. rewrite (IH _ Hx). rewrite <- app_assoc. reflexivity.
Qed.

Lemma exact_query_text parent name :
  exact_query parent name
  = [QUOTE] ++ parent ++ U "' in parents and name = '" ++ name
    ++ U "' and mimeType='application/vnd.google-apps.folder' and trashed=false".
Proof. reflexivity. Qed.

Lemma exact_query_reads root title :
  quotable root = true -> quotable title = true ->
  read_query (exact_query root title)
  = Some [One (InParents root); One (NameIs title); One (MimeTypeIs FOLDER_MIME);
          One (TrashedIs false)].
Proof.
  intros Hr Ht. unfold read_query, lex. rewrite exact_query_text.
  rewrite !fold_left_app.
  change (fold_left lex_step [QUOTE] ([], Between)) with ([] : list token, InLit []).
  rewrite (lex_literal _ _ root Hr).
  rewrite <- (rev_involutive root) at 2. rewrite app_nil_r.
  generalize (rev root). intros r1.
  match goal with
  | |- context [fold_left lex_step (U ?s) (?ts, InLit ?acc)] =>
      change (fold_left lex_step (U s) (ts, InLit acc))
        with ([TEq; TWord (U "name"); TWord (U "and"); TWord (U "parents"); TWord (U "in");
               TLit (rev acc)], InLit [])
  end.
  rewrite (lex_literal _ _ title Ht).
  rewrite <- (rev_involutive title) at 2. rewrite app_nil_r.
  generalize (rev title). intros r2.
  vm_compute. reflexivity.
Qed.

Lemma hd_chunks {A} n (l : list A) : hd [] (chunks n l) = take n l.
Proof. unfold chunks. destruct l; [destruct n; reflexivity|reflexivity]. Qed.

Lemma exact_child_holds name_contains root title e :
  forallb (satisfies name_contains e)
    [One (InParents root); One (NameIs title); One (MimeTypeIs FOLDER_MIME);
     One (TrashedIs false)]
  = exact_child root title e.
Proof. unfold exact_child. simpl. rewrite andb_true_r, !andb_assoc. reflexivity. Qed.

(** For an expected title that can stand between quotes as it is, the
    exact tier finds the first child of the root with exactly that name,
    and the later tiers are not asked. *)
Lemma quotable_title_finds_the_exact_child
    {UT : Unicode} name_contains entries root title phone f rest :
  quotable root = true -> quotable title = true ->
  List.filter (exact_child root title) entries = f :: rest ->
  find_folder_by_exact_name_under (store_drive name_contains entries) root title
  = Ok (Some (listed f))
  /\ find_client_folder_strict (store_drive name_contains entries) root title phone
     = Ok (Some (listed f)).
Proof.
  intros Hr Ht Hf.
  assert (E : find_folder_by_exact_name_under (store_drive name_contains entries) root title
              = Ok (Some (listed f))).
  { unfold find_folder_by_exact_name_under, first_page, store_drive.
    rewrite (exact_query_reads root title Hr Ht).
    unfold mbind, result_bind. rewrite hd_chunks.
    rewrite (List.filter_ext _ (exact_child root title))
      by (intros e; apply exact_child_holds).
    rewrite Hf. reflexivity. }
  split; [exact E|]. unfold find_client_folder_strict. rewrite E. reflexivity.
Qed.

Lemma first_of_two_exact_children_is_returned :
  find_folder_by_exact_name_under (store_drive (fun text name => contains text name) melnyk_store)
    (U "root") title_melnyk
  = Ok (Some {| file_id := U "3"; file_name := title_melnyk |})
  /\ @find_client_folder_strict py_tables
       (store_drive (fun text name => contains text name) melnyk_store)
       (U "root") title_melnyk (U "+380671234567")
     = Ok (Some {| file_id := U "3"; file_name := title_melnyk |}).
Proof.
  apply (@quotable_title_finds_the_exact_child py_tables _ melnyk_store (U "root") title_melnyk
           (U "+380671234567") (melnyk_entry (U "3") (U "root") false)
           [melnyk_entry (U "4") (U "root") false]); reflexivity.
Qed.

(** The store reads the queries of the other two tiers too. *)
Lemma other_queries_are_read :
  read_query (fuzzy_query (U "root") title_melnyk)
  = Some [One (InParents (U "root")); One (MimeTypeIs FOLDER_MIME);
          One (NameContains (U "Melnyk Petro")); One (TrashedIs false)]
  /\ (exists cs,
        read_query (@phone_query py_tables (U "root") (U "+380671234567"))
        = Some [One (InParents (U "root")); One (MimeTypeIs FOLDER_MIME);
                One (TrashedIs false); AnyOf cs]
        /\ length cs = 6%nat).
Proof.
  split; [vm_compute; reflexivity|]. eexists. split; [vm_compute; reflexivity|reflexivity].
Qed.

(** C7, at the failing input.  The title built for the contact мар'яна
    коваль has an apostrophe.  A folder with exactly this title lies under
    the root.  The text the exact tier sends has the title between quotes
    as it is, so the value after [name =] ends at the apostrophe and the
    last quote of the text opens a value that is never closed: the text is
    no query.  The store answers with the error of a bad request, nothing
    catches it, and [find_client_folder_strict] raises it instead of
    returning the folder. *)
Lemma exact_tier_fails_on_a_title_with_an_apostrophe :
  @build_folder_title py_tables (U "мар'яна коваль") (U "067 123-45-67") = title_maryana
  /\ exact_child (U "root") title_maryana folder_maryana = true
  /\ lex (exact_query (U "root") title_maryana) = None
  /\ find_folder_by_exact_name_under maryana_drive (U "root") title_maryana
     = Raise (HttpError 400 (U "Invalid Value"))
  /\ @find_client_folder_strict py_tables maryana_drive (U "root") title_maryana
       (U "+380671234567")
     = Raise (HttpError 400 (U "Invalid Value")).
Proof. repeat split; vm_compute; reflexivity. Qed.

(** C10, as amended.  When two or more candidates pass the phone test and a
    non-empty expected name is given, the phone tier returns the candidate
    with the most tokens in common between its name before the first comma
    and the expected name before its first comma, the tokens compared as
    they are written (no case folding); among those, the one with the
    longest name; among those, the first that the store listed. *)
Theorem phone_tier_prefers_token_overlap_then_length :
  forall (UT : Unicode) (drive : Drive) (parent_id phone_e164 expected_fio : str)
         (matched : list file),
    phone_matched drive parent_id phone_e164 = Ok matched ->
    (2 <= length matched)%nat ->
    expected_fio <> [] ->
    let overlap g := size (tokens (file_name g) ∩ tokens expected_fio) in
    exists f before after,
      find_folder_by_phone drive parent_id phone_e164 (Some expected_fio) = Ok (Some f)
      /\ matched = before ++ f :: after
      /\ (forall g, In g before ->
            (overlap g < overlap f
             \/ (overlap g = overlap f /\ length (file_name g) < length (file_name f)))%nat)
      /\ (forall g, In g after ->
            (overlap g < overlap f
             \/ (overlap g = overlap f /\ length (file_name g) <= length (file_name f)))%nat).
Proof.
  intros UT drive parent phone expected matched Hm Hl He overlap.
  pose proof (find_folder_by_phone_several _ _ _ _ _ Hm Hl He) as Hfind.
  destruct (head _) as [f|] eqn:Hf in Hfind.
  - apply sort_by_reverse_head in Hf; eauto using pair_leb_total, pair_leb_trans.
    destruct Hf as (l1 & l2 & Hsplit & H1 & H2). exists f, l1, l2.
    split; [exact Hfind|]. split; [exact Hsplit|]. split; intros g Hg.
    + specialize (H1 g Hg).
      destruct (pair_leb_total (overlap_key (tokens expected) f)
                  (overlap_key (tokens expected) g)) as [E|E]; [congruence|].
      apply pair_leb_spec in E. simpl in E.
      assert (N : ~ (pair_leb (overlap_key (tokens expected) f)
                      (overlap_key (tokens expected) g) = true)) by congruence.
      rewrite pair_leb_spec in N. simpl in N. unfold overlap. lia.
    + specialize (H2 g Hg). apply pair_leb_spec in H2. simpl in H2. unfold overlap. lia.
  - apply sort_by_reverse_head_None in Hf. subst matched. simpl in Hl. lia.
Qed.

Lemma phone_tier_prefers_token_overlap_then_length_witness :
  exists f before after,
    @find_folder_by_phone py_tables two_folder_drive (U "root") (U "+380671234567")
      (Some (U "Melnyk Petro, +380671234567")) = Ok (Some f)
    /\ [folder_petrenko; folder_melnyk] = before ++ f :: after
    /\ (forall g, In g before ->
          (size (@tokens py_tables (file_name g) ∩ @tokens py_tables (U "Melnyk Petro, +380671234567"))
           < size (@tokens py_tables (file_name f) ∩ @tokens py_tables (U "Melnyk Petro, +380671234567"))
           \/ (size (@tokens py_tables (file_name g) ∩ @tokens py_tables (U "Melnyk Petro, +380671234567"))
               = size (@tokens py_tables (file_name f) ∩ @tokens py_tables (U "Melnyk Petro, +380671234567"))
               /\ length (file_name g) < length (file_name f)))%nat)
    /\ (forall g, In g after ->
          (size (@tokens py_tables (file_name g) ∩ @tokens py_tables (U "Melnyk Petro, +380671234567"))
           < size (@tokens py_tables (file_name f) ∩ @tokens py_tables (U "Melnyk Petro, +380671234567"))
           \/ (size (@tokens py_tables (file_name g) ∩ @tokens py_tables (U "Melnyk Petro, +380671234567"))
               = size (@tokens py_tables (file_name f) ∩ @tokens py_tables (U "Melnyk Petro, +380671234567"))
               /\ length (file_name g) <= length (file_name f)))%nat).
Proof.
  apply (phone_tier_prefers_token_overlap_then_length py_tables
           (fun _ _ => Ok [[folder_petrenko; folder_melnyk]]) (U "root") (U "+380671234567")
           (U "Melnyk Petro, +380671234567") [folder_petrenko; folder_melnyk]).
  - vm_compute. reflexivity.
  - simpl. lia.
  - discriminate.
Defined.

(** C10, as stated, fails.  Both folders pass the phone test; the name of
    the first has the token Melnyk, whose lowercase form is the expected
    token melnyk, and the second shares no token with the expected name
    even after lowercasing.  The code compares the tokens as written, finds
    no common token for either, and returns the second, whose name is
    longer. *)
Lemma phone_tier_does_not_lowercase_tokens :
  @phone_matched py_tables two_folder_drive (U "root") (U "+380671234567")
  = Ok [folder_melnyk; folder_petrenko]
  /\ @find_folder_by_phone py_tables two_folder_drive (U "root") (U "+380671234567")
       (Some (U "melnyk")) = Ok (Some folder_petrenko)
  /\ size (@lowercase_tokens py_tables (file_name folder_melnyk) ∩ @tokens py_tables (U "melnyk"))
     = 1%nat
  /\ size (@lowercase_tokens py_tables (file_name folder_petrenko) ∩ @tokens py_tables (U "melnyk"))
     = 0%nat.
Proof. vm_compute. repeat split; reflexivity. Qed.

(** ** The stage history *)

Lemma str_eqb_refl a : str_eqb a a = true.
Proof. apply str_eqb_eq. reflexivity. Qed.

Lemma str_eqb_neq a b : a <> b -> str_eqb a b = false.
Proof. intros H. destruct (str_eqb a b) eqn:E; [|reflexivity]. apply str_eqb_eq in E. contradiction. Qed.

Lemma str_leb_total a b : str_leb a b = true \/ str_leb b a = true.
Proof.
  revert b. induction a as [|x a IH]; intros [|y b]; simpl; auto.
  unfold chr_eqb. destruct (N.ltb_spec x y), (N.ltb_spec y x); simpl; auto; try lia.
  assert (x = y) by lia. subst y. rewrite N.eqb_refl. simpl. apply IH.
Qed.





Section SegmentFacts.
Variable fromisoformat : str -> option datetime.
Variable clock : Z.

Abbreviation segments := (compute_stage_segments fromisoformat clock).
Abbreviation parse := (_parse_iso fromisoformat).

Lemma utc_instant_now tz : utc_instant (datetime_now clock tz) = clock.
Proof. unfold utc_instant, datetime_now. simpl. lia. Qed.

Lemma datetime_sub_instants a b d :
  datetime_sub a b = Ok d -> d = (utc_instant a - utc_instant b)%Z.
Proof.
  unfold datetime_sub, utc_instant.
  destruct (tzinfo a), (tzinfo b); simpl; intros [=]; lia.
Qed.

(** One step of the loop of [compute_stage_segments]. *)
Lemma segments_cons r rest segs :
  segments (r :: rest) = Ok segs ->
  exists s segs',
    segs = s :: segs'
    /\ segments rest = Ok segs'
    /\ stage_id s = STAGE_ID r
    /\ parse (CREATED_TIME r) = Ok (seg_start s)
    /\ datetime_sub (seg_end s) (seg_start s) = Ok (duration s)
    /\ match rest with
       | next :: _ => parse (CREATED_TIME next) = Ok (seg_end s)
       | [] => seg_end s = datetime_now clock (default 0%Z (tzinfo (seg_start s)))
       end.
Proof.
  cbn [compute_stage_segments]. intros H.
  apply bind_Ok in H. destruct H as (start & Hs & H).
  apply bind_Ok in H. destruct H as (end_ & He & H).
  apply bind_Ok in H. destruct H as (d & Hd & H).
  apply bind_Ok in H. destruct H as (segs' & Hr & H).
  injection H as <-. eexists _, segs'. simpl.
  repeat split; try assumption; try reflexivity.
  destruct rest as [|next rest'].
  - injection He as <-. reflexivity.
  - destruct (CREATED_TIME next); [exact He|discriminate].
Qed.

Lemma segments_length rows segs : segments rows = Ok segs -> length segs = length rows.
Proof.
  revert segs. induction rows as [|r rest IH]; intros segs H.
  - injection H as <-. reflexivity.
  - apply segments_cons in H. destruct H as (s & segs' & -> & Hr & _).
    simpl. f_equal. auto.
Qed.

Lemma segments_duration rows segs s :
  segments rows = Ok segs -> In s segs ->
  datetime_sub (seg_end s) (seg_start s) = Ok (duration s).
Proof.
  revert segs. induction rows as [|r rest IH]; intros segs H Hin.
  - injection H as <-. destruct Hin.
  - apply segments_cons in H. destruct H as (s0 & segs' & -> & Hr & _ & _ & Hd & _).
    destruct Hin as [<-|Hin]; eauto.
Qed.

Lemma segments_contiguous rows segs i s1 s2 :
  segments rows = Ok segs ->
  segs !! i = Some s1 -> segs !! S i = Some s2 -> seg_end s1 = seg_start s2.
Proof.
  revert segs i. induction rows as [|r rest IH]; intros segs i H H1 H2.
  - injection H as <-. discriminate.
  - apply segments_cons in H. destruct H as (s & segs' & -> & Hr & _ & _ & _ & Hend).
    destruct i as [|i].
    + simpl in H1, H2. injection H1 as <-.
      destruct rest as [|next rest'].
      * injection Hr as <-. discriminate.
      * apply segments_cons in Hr. destruct Hr as (s' & segs'' & -> & _ & _ & Hstart & _).
        simpl in H2. injection H2 as <-. congruence.
    + simpl in H1, H2. eapply IH; eauto.
Qed.

Lemma segments_last rows segs :
  rows <> [] -> segments rows = Ok segs ->
  exists s, last segs = Some s
    /\ seg_end s = datetime_now clock (default 0%Z (tzinfo (seg_start s))).
Proof.
  revert segs. induction rows as [|r rest IH]; intros segs Hne H; [congruence|].
  apply segments_cons in H. destruct H as (s & segs' & -> & Hr & _ & _ & _ & Hend).
  destruct rest as [|next rest'].
  - injection Hr as <-. exists s. auto.
  - destruct (IH segs') as (s' & Hl & He); [discriminate|exact Hr|].
    exists s'. split; [|exact He].
    destruct segs' as [|s'' segs'']; [discriminate|]. exact Hl.
Qed.

End SegmentFacts.

Lemma ascending_starts (segs : list segment) :
  (forall k a b, segs !! k = Some a -> segs !! S k = Some b ->
     (utc_instant (seg_start a) <= utc_instant (seg_start b))%Z) ->
  forall i j si sj, (i <= j)%nat -> segs !! i = Some si -> segs !! j = Some sj ->
    (utc_instant (seg_start si) <= utc_instant (seg_start sj))%Z.
Proof.
  intros Hasc i j. induction j as [|j IH]; intros si sj Hij Hi Hj.
  - assert (i = 0)%nat by lia. subst i. rewrite Hi in Hj. injection Hj as <-. lia.
  - destruct (Nat.eq_dec i (S j)) as [->|Hne].
    + rewrite Hi in Hj. injection Hj as <-. lia.
    + destruct (lookup_lt_is_Some_2 segs j) as [s' Hs'].
      { apply lookup_lt_Some in Hj. lia. }
      specialize (IH si s' ltac:(lia) Hi Hs').
      specialize (Hasc j s' sj Hs' Hj). lia.
Qed.


Lemma nearest_even_bounds n d :
  (0 <= n)%Z -> (0 < d)%Z ->
  (n / d <= nearest_even n d <= n / d + 1)%Z
  /\ (nearest_even n d = n / d + 1 -> d <= 2 * (n mod d))%Z.
Proof.
  intros Hn Hd. unfold nearest_even.
  destruct (Z.ltb_spec (2 * (n mod d)) d); [lia|].
  destruct (Z.ltb_spec d (2 * (n mod d))); [lia|].
  destruct (Z.even (n / d)); lia.
Qed.

Lemma true_divide_mantissa a b :
  (0 < a)%Z -> (0 < b)%Z -> (0 <= (true_divide a b).1)%Z.
Proof.
  intros Ha Hb. unfold true_divide. cbn [fst].
  match goal with |- context [nearest_even (scaled_num a ?x) _] => set (e := x); clearbody e end.
  assert (Hn : (0 <= scaled_num a e)%Z).
  { unfold scaled_num. destruct (0 <=? e)%Z; [lia|].
    apply Z.mul_nonneg_nonneg; [lia|]. apply Z.pow_nonneg. lia. }
  assert (Hd : (0 < scaled_den b e)%Z).
  { unfold scaled_den. destruct (Z.leb_spec 0 e); [|lia].
    apply Z.mul_pos_pos; [lia|]. apply Z.pow_pos_nonneg; lia. }
  pose proof (nearest_even_bounds _ _ Hn Hd) as [[H _] _].
  pose proof (Z.div_pos _ _ Hn Hd). lia.
Qed.

Lemma total_seconds_nonpositive td : (td <= 0)%Z -> total_seconds_floor0 td = 0%N.
Proof.
  intros H. unfold total_seconds_floor0, total_seconds.
  destruct td as [|p|p]; [reflexivity|lia|].
  pose proof (true_divide_mantissa (- Z.neg p) 1000000 ltac:(lia) ltac:(lia)) as Hm.
  destruct (true_divide (- Z.neg p) 1000000) as [m e]. cbn [fst] in Hm.
  unfold max_zero. cbn [fst].
  destruct (Z.ltb_spec (- m) 0); [reflexivity|].
  assert (Em : m = 0%Z) by lia. subst m. cbn [Z.opp int_of_float].
  destruct (Z.leb_spec 0 e); [reflexivity|]. rewrite Z.quot_0_l; [reflexivity|].
  apply Z.pow_nonzero; lia.
Qed.

Lemma fmt_tdelta_floor td : _fmt_tdelta td = _fmt_tdelta (Z.max td 0).
Proof.
  destruct (Z.le_gt_cases td 0) as [H|H].
  - replace (Z.max td 0) with 0%Z by lia.
    unfold _fmt_tdelta. rewrite (total_seconds_nonpositive td H). reflexivity.
  - replace (Z.max td 0) with td by lia. reflexivity.
Qed.

Lemma fmt_tdelta_nonpositive td : (td <= 0)%Z -> _fmt_tdelta td = U "0 хв".
Proof.
  intros H. unfold _fmt_tdelta. rewrite (total_seconds_nonpositive td H). reflexivity.
Qed.

(** C6, as amended.  The duration stored in a segment is the difference
    between its end and its start, as it is, negative when the end is the
    earlier of the two; the floor at zero is applied where a duration is
    rendered: [_fmt_tdelta] renders a duration as it renders the greater of
    that duration and zero, so every negative duration reads as zero
    minutes. *)
Theorem stored_duration_is_difference_floor_is_in_rendering :
  forall (fromisoformat : str -> option datetime) (clock : Z) (rows : list row)
         (segs : list segment),
    compute_stage_segments fromisoformat clock rows = Ok segs ->
    (forall s, In s segs ->
       datetime_sub (seg_end s) (seg_start s) = Ok (duration s)
       /\ duration s = (utc_instant (seg_end s) - utc_instant (seg_start s))%Z)
    /\ (forall s, In s segs -> _fmt_tdelta (duration s) = _fmt_tdelta (Z.max (duration s) 0))
    /\ (forall s, In s segs -> (duration s <= 0)%Z -> _fmt_tdelta (duration s) = U "0 хв").
Proof.
  intros parse clock rows segs H. split; [|split].
  - intros s Hs. pose proof (segments_duration _ _ _ _ _ H Hs) as Hd.
    split; [exact Hd|]. apply datetime_sub_instants. exact Hd.
  - intros s _. apply fmt_tdelta_floor.
  - intros s _. apply fmt_tdelta_nonpositive.
Qed.

Lemma stored_duration_is_difference_floor_is_in_rendering_witness :
  (forall s, In s [ {| stage_id := Some (U "C1:NEW");
                        seg_start := {| wall := 1704103200000000; tzinfo := Some 0%Z |};
                        seg_end := {| wall := 1704099600000000; tzinfo := Some 0%Z |};
                        duration := (-3600000000)%Z |} ] ->
     datetime_sub (seg_end s) (seg_start s) = Ok (duration s)
     /\ duration s = (utc_instant (seg_end s) - utc_instant (seg_start s))%Z)
  /\ (forall s, In s [ {| stage_id := Some (U "C1:NEW");
                          seg_start := {| wall := 1704103200000000; tzinfo := Some 0%Z |};
                          seg_end := {| wall := 1704099600000000; tzinfo := Some 0%Z |};
                          duration := (-3600000000)%Z |} ] ->
       _fmt_tdelta (duration s) = _fmt_tdelta (Z.max (duration s) 0))
  /\ (forall s, In s [ {| stage_id := Some (U "C1:NEW");
                          seg_start := {| wall := 1704103200000000; tzinfo := Some 0%Z |};
                          seg_end := {| wall := 1704099600000000; tzinfo := Some 0%Z |};
                          duration := (-3600000000)%Z |} ] ->
       (duration s <= 0)%Z -> _fmt_tdelta (duration s) = U "0 хв").
Proof.
  apply (stored_duration_is_difference_floor_is_in_rendering py_fromisoformat
           skewed_clock skewed_rows).
  vm_compute. reflexivity.
Defined.

(** C6, as stated, fails: for one event stamped an hour after the reading
    of the clock, the stored duration is minus one hour. *)
Lemma clock_skew_stores_negative_duration :
  exists s,
    compute_stage_segments py_fromisoformat skewed_clock skewed_rows = Ok [s]
    /\ duration s = (-3600000000)%Z
    /\ (duration s < 0)%Z
    /\ duration s <> Z.max (utc_instant (seg_end s) - utc_instant (seg_start s)) 0.
Proof.
  eexists. split; [vm_compute; reflexivity|]. simpl.
  split; [reflexivity|]. split; [lia|]. vm_compute. discriminate.
Qed.

(** C9, as amended.  For a non-empty list of rows on which
    [compute_stage_segments] succeeds there is one segment per row and the
    end of each segment is the start of the next, so that, where the starts
    ascend, a segment ends no later than any later segment starts.  The end
    of the last segment is the reading of the clock; it is not earlier than
    the start of a segment when the clock does not read earlier than that
    start, which the code does not enforce. *)
Theorem segments_are_contiguous_and_end_at_clock :
  forall (fromisoformat : str -> option datetime) (clock : Z) (rows : list row)
         (segs : list segment),
    rows <> [] ->
    compute_stage_segments fromisoformat clock rows = Ok segs ->
    length segs = length rows
    /\ (forall i s1 s2, segs !! i = Some s1 -> segs !! S i = Some s2 ->
          seg_end s1 = seg_start s2)
    /\ ((forall k a b, segs !! k = Some a -> segs !! S k = Some b ->
            (utc_instant (seg_start a) <= utc_instant (seg_start b))%Z) ->
        forall i j si sj, (i < j)%nat -> segs !! i = Some si -> segs !! j = Some sj ->
          (utc_instant (seg_end si) <= utc_instant (seg_start sj))%Z)
    /\ exists final,
         last segs = Some final
         /\ utc_instant (seg_end final) = clock
         /\ forall s, In s segs -> (utc_instant (seg_start s) <= clock)%Z ->
               (utc_instant (seg_start s) <= utc_instant (seg_end final))%Z.
Proof.
  intros parse clock rows segs Hne H.
  assert (Hcontig : forall i s1 s2, segs !! i = Some s1 -> segs !! S i = Some s2 ->
                                    seg_end s1 = seg_start s2).
  { intros i s1 s2. eapply segments_contiguous; eauto. }
  split; [|split; [|split]].
  - eapply segments_length; eauto.
  - exact Hcontig.
  - intros Hasc i j si sj Hij Hi Hj.
    destruct (lookup_lt_is_Some_2 segs (S i)) as [s' Hs'].
    { apply lookup_lt_Some in Hj. lia. }
    rewrite (Hcontig i si s' Hi Hs').
    apply (ascending_starts segs Hasc (S i) j s' sj); [lia|exact Hs'|exact Hj].
  - destruct (segments_last _ _ _ _ Hne H) as (final & Hl & He).
    exists final. split; [exact Hl|].
    assert (Hc : utc_instant (seg_end final) = clock)
      by (rewrite He; apply utc_instant_now).
    split; [exact Hc|]. intros s _ Hs. rewrite Hc. exact Hs.
Qed.

(** C9, as stated, fails: for one event stamped an hour after the reading
    of the clock, the end of the last segment is the reading of the clock,
    an hour before the timestamp of the event. *)
Lemma final_end_can_precede_an_event :
  exists s,
    compute_stage_segments py_fromisoformat skewed_clock skewed_rows = Ok [s]
    /\ utc_instant (seg_end s) = skewed_clock
    /\ (utc_instant (seg_end s) < utc_instant (seg_start s))%Z.
Proof.
  eexists. split; [vm_compute; reflexivity|]. vm_compute. split; reflexivity.
Qed.

Lemma segments_are_contiguous_and_end_at_clock_witness :
  length sample_segments = length (get_deal_stage_history sample_rows 300)
  /\ (forall i s1 s2, sample_segments !! i = Some s1 -> sample_segments !! S i = Some s2 ->
        seg_end s1 = seg_start s2)
  /\ ((forall k a b, sample_segments !! k = Some a -> sample_segments !! S k = Some b ->
          (utc_instant (seg_start a) <= utc_instant (seg_start b))%Z) ->
      forall i j si sj, (i < j)%nat ->
        sample_segments !! i = Some si -> sample_segments !! j = Some sj ->
        (utc_instant (seg_end si) <= utc_instant (seg_start sj))%Z)
  /\ exists final,
       last sample_segments = Some final
       /\ utc_instant (seg_end final) = sample_clock
       /\ forall s, In s sample_segments -> (utc_instant (seg_start s) <= sample_clock)%Z ->
             (utc_instant (seg_start s) <= utc_instant (seg_end final))%Z.
Proof.
  apply (segments_are_contiguous_and_end_at_clock py_fromisoformat sample_clock
           (get_deal_stage_history sample_rows 300) sample_segments).
  - vm_compute. discriminate.
  - vm_compute. reflexivity.
Defined.




(** * Further properties *)

(** ** Phone numbers as they are written *)

Lemma drop_while_length {A} (p : A -> bool) (l : list A) :
  (length (drop_while p l) <= length l)%nat.
Proof.
  induction l as [|x l IH]; simpl; [lia|]. destruct (p x); simpl; lia.
Qed.

Lemma startswith_app p s : startswith p (p ++ s) = true.
Proof.
  induction p as [|x p IH]; simpl; [reflexivity|].
  rewrite chr_eqb_refl. exact IH.
Qed.

(** X1.  A number of nine national digits is normalized to the prefix
    followed by these digits when it is written with the country code 380,
    with the trunk zero, or bare with a first digit that is none of 3, 8
    and 0; characters that are not digits play no part. *)
Theorem normalize_phone_accepts_written_forms :
  forall (UT : Unicode) (phone body : str),
    forallb isdecimal body = true ->
    length body = 9%nat ->
    (keep isdecimal phone = UA_CODE ++ body
     \/ keep isdecimal phone = ZERO ++ body
     \/ (keep isdecimal phone = body
         /\ forall c, head body = Some c -> char_in UA_CODE c = false)) ->
    normalize_phone_e164_ua phone = UA_PREFIX ++ body.
Proof.
  intros UT phone body Hd Hl H. unfold normalize_phone_e164_ua.
  destruct H as [H|[H|[H Hc]]]; rewrite H.
  - change (national_body (UA_CODE ++ body)) with body.
    rewrite slice_last_short by lia. reflexivity.
  - change (national_body (ZERO ++ body)) with (48%N :: body).
    unfold slice_last. simpl length. rewrite Hl. reflexivity.
  - destruct body as [|c rest]; [discriminate|]. simpl is_empty. cbv iota.
    specialize (Hc c eq_refl).
    assert (Hbody : national_body (c :: rest) = c :: rest).
    { assert (E0 : startswith ZERO (c :: rest) = false).
      { unfold ZERO. cbn [startswith]. unfold chr_eqb.
        destruct (N.eqb_spec 48%N c) as [<-|]; [discriminate Hc|reflexivity]. }
      assert (E3 : startswith UA_CODE (c :: rest) = false).
      { unfold UA_CODE. cbn [startswith]. unfold chr_eqb.
        destruct (N.eqb_spec 51%N c) as [<-|]; [discriminate Hc|reflexivity]. }
      unfold national_body. rewrite E0, E3. unfold lstrip_chars.
      cbn [drop_while]. rewrite Hc. reflexivity. }
    rewrite Hbody. rewrite slice_last_short by (simpl in *; lia). reflexivity.
Qed.

Lemma normalize_phone_accepts_written_forms_witness :
  @normalize_phone_e164_ua py_tables (U "+38 (067) 123-45-67") = UA_PREFIX ++ U "671234567".
Proof.
  apply (normalize_phone_accepts_written_forms py_tables
           (U "+38 (067) 123-45-67") (U "671234567")).
  - vm_compute. reflexivity.
  - vm_compute. reflexivity.
  - left. vm_compute. reflexivity.
Defined.

Lemma phone_too_short_spec {UT : Unicode} (raw_phone : str) :
  phone_too_short raw_phone = false
  <-> (9 <= length (national_body (keep isdecimal raw_phone)))%nat.
Proof.
  unfold phone_too_short.
  destruct (normalize_phone_parts raw_phone) as (body & -> & Hd & Hl).
  rewrite keep_prefixed by exact Hd.
  rewrite length_app. change (length UA_CODE) with 3%nat.
  rewrite Nat.ltb_ge. lia.
Qed.

(** X2.  The test at the head of [handle_check] lets a phone through
    exactly when the national body of its digits has nine digits or more,
    which is exactly when the normalized phone is the prefix followed by
    nine digits. *)
Theorem handle_check_lets_through_full_numbers :
  forall (UT : Unicode) (raw_phone : str),
    (phone_too_short raw_phone = false
     <-> (9 <= length (national_body (keep isdecimal raw_phone)))%nat)
    /\ (phone_too_short raw_phone = false
        <-> exists body, normalize_phone_e164_ua raw_phone = UA_PREFIX ++ body
                         /\ forallb isdecimal body = true /\ length body = 9%nat).
Proof.
  intros UT raw. split; [apply phone_too_short_spec|]. split.
  - intros H. apply phone_too_short_spec in H.
    destruct (normalize_phone_parts raw) as (body & E & Hd & Hl).
    exists body. repeat split; [exact E|exact Hd|lia].
  - intros (body & E & Hd & Hl). unfold phone_too_short.
    rewrite E, keep_prefixed by exact Hd. rewrite length_app, Hl. reflexivity.
Qed.

(** X3.  The digits 3, 8 and 0 are stripped from the front of a number that
    starts neither with the trunk zero nor with the country code as a set
    of characters: a bare number of nine digits whose first digit is 3 or 8
    comes out shorter, and does not pass the test at the head of
    [handle_check]. *)
Theorem bare_number_starting_with_3_or_8_is_too_short :
  forall (UT : Unicode) (raw_phone : str) (c : char) (rest : str),
    keep isdecimal raw_phone = c :: rest ->
    length rest = 8%nat ->
    c = ch "3" \/ c = ch "8" ->
    phone_too_short raw_phone = true.
Proof.
  intros UT raw c rest E Hl Hc.
  destruct (phone_too_short raw) eqn:Hs; [reflexivity|exfalso].
  apply phone_too_short_spec in Hs. rewrite E in Hs.
  assert (E0 : startswith ZERO (c :: rest) = false).
  { unfold ZERO. cbn [startswith]. destruct Hc as [-> | ->]; reflexivity. }
  unfold national_body in Hs. rewrite E0 in Hs.
  destruct (startswith UA_CODE (c :: rest)).
  - unfold slice_from in Hs. rewrite length_drop in Hs. simpl in Hs. lia.
  - unfold lstrip_chars in Hs. cbn [drop_while] in Hs.
    assert (Hin : char_in UA_CODE c = true) by (destruct Hc as [-> | ->]; reflexivity).
    rewrite Hin in Hs. pose proof (drop_while_length (char_in UA_CODE) rest). lia.
Qed.

Lemma bare_number_starting_with_3_or_8_is_too_short_witness :
  @phone_too_short py_tables (U "39 123 45 67") = true.
Proof.
  apply (bare_number_starting_with_3_or_8_is_too_short py_tables
           (U "39 123 45 67") (ch "3") (U "91234567")).
  - vm_compute. reflexivity.
  - vm_compute. reflexivity.
  - left. reflexivity.
Defined.

(** ** The phone in a folder title *)

Section RunsOfDigits.
Context (cls : char -> bool) (lo hi : nat).

Lemma findall_runs_nonempty cur s :
  forallb cls s = true -> (length cur < hi)%nat -> (lo <= length cur + length s)%nat ->
  findall_runs cls lo hi cur s <> [].
Proof.
  revert cur. induction s as [|c s IH]; intros cur Hs Hc Hl; simpl in *.
  - replace (lo <=? length cur)%nat with true by (symmetry; apply Nat.leb_le; lia).
    discriminate.
  - apply andb_true_iff in Hs. destruct Hs as [-> Hs].
    destruct (Nat.eqb_spec (length (cur ++ [c])) hi) as [E|E]; [discriminate|].
    rewrite length_app in E. simpl in E.
    apply IH; [exact Hs| |]; rewrite length_app; simpl; lia.
Qed.

Lemma findall_runs_one cur s :
  forallb cls s = true -> (0 < lo)%nat -> (length cur < hi)%nat ->
  (lo <= length cur + length s)%nat -> (length cur + length s <= hi)%nat ->
  findall_runs cls lo hi cur s = [cur ++ s].
Proof.
  revert cur. induction s as [|c s IH]; intros cur Hs H0 Hc Hl Hh; simpl in *.
  - replace (lo <=? length cur)%nat with true by (symmetry; apply Nat.leb_le; lia).
    rewrite app_nil_r. reflexivity.
  - apply andb_true_iff in Hs. destruct Hs as [-> Hs].
    destruct (Nat.eqb_spec (length (cur ++ [c])) hi) as [E|E];
      rewrite length_app in E; simpl in E.
    + destruct s as [|d s]; [|simpl in Hh; lia]. simpl.
      replace (lo <=? 0)%nat with false by (symmetry; apply Nat.leb_gt; lia).
      reflexivity.
    + rewrite IH; [|exact Hs|exact H0|rewrite length_app; simpl; lia..].
      rewrite <- app_assoc. reflexivity.
Qed.

End RunsOfDigits.

Lemma keep_keep cls (s : str) : keep cls (keep cls s) = keep cls s.
Proof. apply keep_all. apply keep_forallb. Qed.

Lemma normalize_phone_of_its_digits {UT : Unicode} (s : str) :
  normalize_phone_e164_ua (keep isdecimal s) = normalize_phone_e164_ua s.
Proof. unfold normalize_phone_e164_ua. rewrite keep_keep. reflexivity. Qed.

Lemma extract_of_few_digits {UT : Unicode} (title : str) :
  (9 <= length (keep isdecimal title))%nat -> (length (keep isdecimal title) <= 12)%nat ->
  _extract_e164_from_title title = Some (normalize_phone_e164_ua title).
Proof.
  intros H9 H12. unfold _extract_e164_from_title.
  replace (length (keep isdecimal title) <? 9)%nat with false
    by (symmetry; apply Nat.ltb_ge; exact H9).
  rewrite findall_runs_one; simpl; try lia; [|apply keep_forallb].
  rewrite normalize_phone_of_its_digits. reflexivity.
Qed.

(** X4.  [_extract_e164_from_title] finds no phone exactly when the title
    has fewer than nine digits: digits scattered over the title count
    together, and the test for an empty list of matches never fires.  When
    the title has nine to twelve digits the result is the phone normalizer
    applied to the whole title. *)
Theorem extract_none_iff_fewer_than_nine_digits :
  forall (UT : Unicode) (title : str),
    (_extract_e164_from_title title = None
     <-> (length (keep isdecimal title) < 9)%nat)
    /\ ((9 <= length (keep isdecimal title) <= 12)%nat ->
        _extract_e164_from_title title = Some (normalize_phone_e164_ua title)).
Proof.
  intros UT title. split; [|intros [H9 H12]; apply extract_of_few_digits; assumption].
  unfold _extract_e164_from_title.
  destruct (Nat.ltb_spec (length (keep isdecimal title)) 9) as [H|H].
  - split; [intros _; exact H|reflexivity].
  - pose proof (findall_runs_nonempty isdecimal 9 12 [] (keep isdecimal title)
                  (keep_forallb _ _) ltac:(simpl; lia) ltac:(simpl; lia)) as Hne.
    destruct (last (findall_runs isdecimal 9 12 [] (keep isdecimal title))) eqn:E.
    + split; [discriminate|lia].
    + apply last_None in E. contradiction.
Qed.

Lemma extract_none_iff_fewer_than_nine_digits_witness :
  @_extract_e164_from_title py_tables (U "Melnyk 067 123, tel. 45 67")
  = Some (@normalize_phone_e164_ua py_tables (U "Melnyk 067 123, tel. 45 67")).
Proof.
  apply (proj2 (extract_none_iff_fewer_than_nine_digits py_tables
                  (U "Melnyk 067 123, tel. 45 67"))).
  vm_compute. split; lia.
Defined.

Lemma keep_app cls (a b : str) : keep cls (a ++ b) = keep cls a ++ keep cls b.
Proof. unfold keep. apply List.filter_app. Qed.

(** X5.  A title built by [build_folder_title] from a name without digits
    and a phone that passes the test of [handle_check] carries that phone:
    [_extract_e164_from_title] reads the normalized phone back, and the
    folder passes the phone test of [find_folder_by_phone]. *)
Theorem built_title_carries_its_phone :
  forall (UT : Unicode) (fio phone id : str),
    keep isdecimal (normalize_fio_string fio) = [] ->
    phone_too_short phone = false ->
    _extract_e164_from_title (build_folder_title fio phone)
      = Some (normalize_phone_e164_ua phone)
    /\ phone_confirmed (normalize_phone_e164_ua phone)
         {| file_id := id; file_name := build_folder_title fio phone |} = true.
Proof.
  intros UT fio phone id Hfio Hshort.
  apply phone_too_short_spec in Hshort.
  destruct (normalize_phone_parts phone) as (body & E & Hd & Hl).
  assert (Hdigits : keep isdecimal (build_folder_title fio phone) = UA_CODE ++ body).
  { unfold build_folder_title. rewrite !keep_app, Hfio, E, keep_prefixed by exact Hd.
    unfold keep, COMMA_SPACE. simpl. rewrite !isdecimal_ascii by reflexivity.
    reflexivity. }
  assert (Hx : _extract_e164_from_title (build_folder_title fio phone)
               = Some (normalize_phone_e164_ua phone)).
  { rewrite extract_of_few_digits
      by (rewrite Hdigits, length_app; change (length UA_CODE) with 3%nat; lia).
    f_equal. rewrite <- normalize_phone_of_its_digits, Hdigits.
    rewrite <- (keep_prefixed body) by exact Hd. rewrite normalize_phone_of_its_digits.
    rewrite E. apply normalize_phone_canonical; [exact Hd|lia]. }
  split; [exact Hx|].
  unfold phone_confirmed. simpl file_name. rewrite Hx.
  rewrite normalize_phone_idempotent, str_eqb_refl, E. reflexivity.
Qed.

Lemma built_title_carries_its_phone_witness :
  @_extract_e164_from_title py_tables
     (@build_folder_title py_tables (U "melnyk  petro") (U "067 123 45 67"))
    = Some (U "+380671234567")
  /\ @phone_confirmed py_tables (U "+380671234567")
       {| file_id := U "7";
          file_name := @build_folder_title py_tables (U "melnyk  petro") (U "067 123 45 67") |}
     = true.
Proof.
  apply (built_title_carries_its_phone py_tables
           (U "melnyk  petro") (U "067 123 45 67") (U "7")).
  - vm_compute. reflexivity.
  - vm_compute. reflexivity.
Defined.

(** ** The canonical form of a folder title *)

Lemma split_first_Forall (P : char -> Prop) sep s l r :
  split_first sep s = Some (l, r) -> Forall P s -> Forall P l /\ Forall P r.
Proof.
  revert l. induction s as [|c s IH]; intros l E H; simpl in E; [discriminate|].
  apply Forall_cons in H. destruct H as [Hc Hs].
  destruct (chr_eqb c sep).
  - injection E as <- <-. split; [constructor|exact Hs].
  - destruct (split_first sep s) as [[l' r']|]; [|discriminate].
    injection E as <- <-. destruct (IH l' eq_refl Hs) as [Hl Hr].
    split; [constructor; assumption|exact Hr].
Qed.

Lemma split_first_absent sep s :
  Forall (fun c => c <> sep) s -> split_first sep s = None.
Proof.
  induction s as [|c s IH]; intros H; [reflexivity|]. simpl.
  apply Forall_cons in H. destruct H as [Hc Hs]. rewrite (IH Hs).
  destruct (chr_eqb c sep) eqn:E; [apply chr_eqb_eq in E; contradiction|reflexivity].
Qed.

Lemma drop_final_lf_Forall (P : char -> Prop) s : Forall P s -> Forall P (drop_final_lf s).
Proof.
  intros H. unfold drop_final_lf. destruct (rev s) as [|c r] eqn:E; [exact H|].
  destruct (chr_eqb c LF); [|exact H].
  rewrite List.Forall_forall in *. intros x Hx. apply H.
  apply in_rev. rewrite E. right. apply in_rev in Hx. exact Hx.
Qed.

Lemma match_name_comma_rest_Forall (P : char -> Prop) s l r :
  match_name_comma_rest s = Some (l, r) -> Forall P s -> Forall P l /\ Forall P r.
Proof.
  unfold match_name_comma_rest. intros E H.
  destruct (split_first (ch ",") s) as [[l' r']|] eqn:Es; [|discriminate].
  destruct (split_first_Forall P _ _ _ _ Es H) as [Hl Hr].
  destruct (existsb (chr_eqb LF) l' || existsb (chr_eqb LF) (drop_final_lf r'));
    [discriminate|].
  injection E as <- <-. split; [exact Hl|apply drop_final_lf_Forall; exact Hr].
Qed.

Lemma match_name_comma_rest_absent s :
  Forall (fun c => c <> 44%N) s -> match_name_comma_rest s = None.
Proof.
  intros H. unfold match_name_comma_rest. change (ch ",") with 44%N.
  rewrite split_first_absent by exact H. reflexivity.
Qed.

Lemma keep_Forall (P : char -> Prop) cls s : Forall P s -> Forall P (keep cls s).
Proof.
  intros H. unfold keep. rewrite List.Forall_forall in *. intros x Hx.
  apply filter_In in Hx. apply H. tauto.
Qed.

Section TitleCanonicalForm.
Context {UT : Unicode}.

Lemma tidied_plain s :
  is_plain s = true -> is_plain (normalize_spaces (_unify_apostrophes s)) = true.
Proof.
  intros H. pose proof (unify_unified s H) as H1.
  pose proof (normalize_spaces_keeps unified _ (unified_plain _ H1) unified_space H1) as H2.
  apply unified_plain. eapply Forall_impl; [exact H2|]. intros c [Hc _]. exact Hc.
Qed.

Lemma canonical_name_as_title ws :
  canonical_tokens ws ->
  normalize_folder_title_for_compare (join SPACE ws) = join SPACE ws.
Proof.
  intros Hc. pose proof Hc as [Hw _]. unfold normalize_folder_title_for_compare.
  pose proof (joined_words_tidy ws Hw) as Ht.
  rewrite unify_fixed by (eapply Forall_impl; [exact Ht|]; intros c [? _]; assumption).
  rewrite joined_words_normalize_spaces by exact Hw.
  rewrite match_name_comma_rest_absent.
  - apply normalize_fio_string_fixed. exact Hc.
  - eapply Forall_impl; [exact Ht|]. intros c Hx. apply tidy_not_comma_lf. exact Hx.
Qed.

(** The canonical form of a plain title: a canonical name alone, or a
    canonical name, a comma and a space, and a canonical phone. *)
Lemma title_for_compare_canonical title :
  is_plain title = true ->
  exists ws, canonical_tokens ws
    /\ (normalize_folder_title_for_compare title = join SPACE ws
        \/ exists body,
             normalize_folder_title_for_compare title
               = join SPACE ws ++ COMMA_SPACE ++ UA_PREFIX ++ body
             /\ forallb isdecimal body = true /\ (length body <= 9)%nat /\ wordchars body).
Proof.
  intros Hp. pose proof (tidied_plain title Hp) as Ht.
  unfold normalize_folder_title_for_compare.
  destruct (match_name_comma_rest (normalize_spaces (_unify_apostrophes title)))
    as [[l r]|] eqn:E.
  - apply is_plain_Forall in Ht.
    destruct (match_name_comma_rest_Forall _ _ _ _ E Ht) as [Hl Hr].
    assert (Hl' : is_plain (strip isspace l) = true)
      by (apply is_plain_Forall, strip_Forall; exact Hl).
    assert (Hr' : is_plain (strip isspace r) = true)
      by (apply is_plain_Forall, strip_Forall; exact Hr).
    destruct (normalize_fio_string_canonical _ Hl') as (ws & Hc & ->).
    exists ws. split; [exact Hc|]. right.
    destruct (is_empty (keep isdecimal (strip isspace r))).
    + destruct (normalize_phone_plain _ Hr') as (body & -> & Hd & Hlen & Hb).
      exists body. auto.
    + assert (Hk : is_plain (keep isdecimal (strip isspace r)) = true).
      { apply is_plain_Forall, keep_Forall, is_plain_Forall. exact Hr'. }
      destruct (normalize_phone_plain _ Hk) as (body & -> & Hd & Hlen & Hb).
      exists body. auto.
  - destruct (normalize_fio_string_canonical _ Ht) as (ws & Hc & ->).
    exists ws. split; [exact Hc|]. left. reflexivity.
Qed.

End TitleCanonicalForm.

(** X6.  On a title over ASCII and basic Cyrillic
    [normalize_folder_title_for_compare] is idempotent: the form it gives,
    a normalized name alone or a normalized name, a comma and a space, and
    a normalized phone, is left as it is by a second pass. *)
Theorem title_for_compare_idempotent_on_plain_text :
  forall (UT : Unicode) (title : str),
    is_plain title = true ->
    normalize_folder_title_for_compare (normalize_folder_title_for_compare title)
    = normalize_folder_title_for_compare title.
Proof.
  intros UT title Hp.
  destruct (title_for_compare_canonical title Hp) as (ws & Hc & [-> | (body & -> & Hd & Hl & Hb)]).
  - apply canonical_name_as_title. exact Hc.
  - apply title_for_compare_fixed; assumption.
Qed.

Lemma title_for_compare_idempotent_on_plain_text_witness :
  @normalize_folder_title_for_compare py_tables
    (@normalize_folder_title_for_compare py_tables (U "  melnyk  PETRO ,tel. 067-123-45-67"))
  = @normalize_folder_title_for_compare py_tables (U "  melnyk  PETRO ,tel. 067-123-45-67").
Proof.
  apply (title_for_compare_idempotent_on_plain_text py_tables
           (U "  melnyk  PETRO ,tel. 067-123-45-67")).
  vm_compute. reflexivity.
Defined.

(** ** The shape of a normalized name *)

(** X7.  On a name over ASCII and basic Cyrillic [normalize_fio_string]
    gives words joined by single spaces: no word is empty, none holds white
    space, a comma, a period or a semicolon, and each is left as it is by
    [_smart_title]. *)
Theorem normalized_name_is_words_joined_by_single_spaces :
  forall (UT : Unicode) (raw : str),
    is_plain raw = true ->
    exists ws,
      normalize_fio_string raw = join SPACE ws
      /\ Forall (fun w => is_empty w = false
                          /\ forallb (fun c => negb (isspace c) && negb (is_punct c)) w = true
                          /\ _smart_title w = w) ws.
Proof.
  intros UT raw Hp.
  destruct (normalize_fio_string_canonical raw Hp) as (ws & [Hw Hf] & E).
  exists ws. split; [exact E|].
  rewrite List.Forall_forall in *. intros w Hin.
  destruct (Hw w Hin) as [Hn Hc]. split; [|split].
  - destruct w; [contradiction|reflexivity].
  - apply forallb_forall. intros c Hc'. rewrite List.Forall_forall in Hc.
    specialize (Hc c Hc'). rewrite (wordchar_not_space c Hc).
    unfold wordchar in Hc. apply andb_true_iff in Hc. destruct Hc as [_ Hq].
    rewrite Hq. reflexivity.
  - apply Hf. exact Hin.
Qed.

Lemma normalized_name_is_words_joined_by_single_spaces_witness :
  exists ws,
    @normalize_fio_string py_tables (U "  o`neil-SMITH ,anna;  ") = join SPACE ws
    /\ Forall (fun w => is_empty w = false
                        /\ forallb (fun c => negb (@isspace py_tables c) && negb (is_punct c)) w = true
                        /\ @_smart_title py_tables w = w) ws.
Proof.
  apply (normalized_name_is_words_joined_by_single_spaces py_tables
           (U "  o`neil-SMITH ,anna;  ")).
  vm_compute. reflexivity.
Defined.

(** ** Candidates of the phone tier *)

Lemma seen_has_key (seen : list (str * file)) k :
  existsb (fun kv => str_eqb kv.1 k) seen = true <-> In k (map fst seen).
Proof.
  rewrite existsb_exists, in_map_iff. split.
  - intros (kv & Hin & E). apply str_eqb_eq in E. exists kv. auto.
  - intros (kv & E & Hin). exists kv. split; [exact Hin|]. apply str_eqb_eq. exact E.
Qed.

Lemma setdefault_ok seen f : seen_ok seen -> seen_ok (setdefault seen f).
Proof.
  intros [Hk Hn]. unfold setdefault.
  destruct (existsb (fun kv => str_eqb kv.1 (file_id f)) seen) eqn:E; [split; assumption|].
  split.
  - apply Forall_app. split; [exact Hk|]. constructor; [reflexivity|constructor].
  - rewrite map_app. simpl. apply NoDup_app. split; [exact Hn|]. split.
    + intros k Hin Hk'. apply list_elem_of_In in Hin. apply list_elem_of_singleton in Hk'. subst k.
      apply seen_has_key in Hin. congruence.
    + apply NoDup_singleton.
Qed.

Lemma fold_setdefault_ok items seen : seen_ok seen -> seen_ok (fold_left setdefault items seen).
Proof.
  revert seen. induction items as [|f items IH]; intros seen H; simpl; [exact H|].
  apply IH, setdefault_ok, H.
Qed.

Lemma fold_setdefault_values items seen g :
  seen_ok seen ->
  In g (map snd (fold_left setdefault items seen))
  <-> In g (map snd seen)
      \/ (~ In (file_id g) (map fst seen) /\ first_listing g items).
Proof.
  revert seen. induction items as [|f items IH]; intros seen Hok; simpl.
  - split; [auto|]. intros [H|[_ (l1 & l2 & E & _)]]; [exact H|].
    destruct l1; discriminate.
  - rewrite (IH _ (setdefault_ok seen f Hok)). unfold setdefault.
    destruct (existsb (fun kv => str_eqb kv.1 (file_id f)) seen) eqn:E.
    + apply seen_has_key in E. split; (intros [H|[Hn (l1 & l2 & El & Hl)]]; [left; exact H|right]).
      * split; [exact Hn|]. exists (f :: l1), l2. split; [rewrite El; reflexivity|].
        constructor; [congruence|exact Hl].
      * split; [exact Hn|]. destruct l1 as [|x l1]; simpl in El.
        -- injection El as -> _. contradiction.
        -- injection El as -> ->. apply Forall_cons in Hl. exists l1, l2. tauto.
    + assert (Hf : ~ In (file_id f) (map fst seen)).
      { intros Hin. apply seen_has_key in Hin. congruence. }
      rewrite !map_app, !in_app_iff. simpl. split.
      * intros [[H|[H|[]]]|[Hn (l1 & l2 & El & Hl)]].
        -- left. exact H.
        -- right. subst g. split; [exact Hf|]. exists [], items. split; [reflexivity|constructor].
        -- right. split; [tauto|]. exists (f :: l1), l2. split; [rewrite El; reflexivity|].
           constructor; [|exact Hl]. intros Heq. apply Hn. right. left. exact Heq.
      * intros [H|[Hn (l1 & l2 & El & Hl)]]; [left; left; exact H|].
        destruct l1 as [|x l1]; simpl in El.
        -- injection El as -> _. left. right. left. reflexivity.
        -- injection El as -> ->. apply Forall_cons in Hl. destruct Hl as [Hx Hl].
           right. split; [|exists l1, l2; auto].
           intros [H|[H|[]]]; [contradiction|]. congruence.
Qed.

Lemma fold_setdefault_sublist items seen :
  exists new, map snd (fold_left setdefault items seen) = map snd seen ++ new
              /\ sublist new items.
Proof.
  revert seen. induction items as [|f items IH]; intros seen; simpl.
  - exists []. rewrite app_nil_r. split; [reflexivity|constructor].
  - destruct (IH (setdefault seen f)) as (new & E & Hs). rewrite E. unfold setdefault.
    destruct (existsb (fun kv => str_eqb kv.1 (file_id f)) seen).
    + exists new. split; [reflexivity|]. apply sublist_cons. exact Hs.
    + exists (f :: new). rewrite map_app, <- app_assoc. split; [reflexivity|].
      apply sublist_skip. exact Hs.
Qed.

(** X8.  The candidates the phone tier collects over the pages of the
    store hold each id once: a folder is kept exactly when it is the first
    one listed with its id, and the kept folders stay in the order of the
    listing. *)
Theorem seen_values_keeps_first_listing_of_each_id :
  forall (items : list file),
    NoDup (map file_id (seen_values items))
    /\ (forall g, In g (seen_values items)
                  <-> exists l1 l2, items = l1 ++ g :: l2
                                    /\ Forall (fun h => file_id h <> file_id g) l1)
    /\ sublist (seen_values items) items.
Proof.
  intros items. unfold seen_values.
  assert (Hok : seen_ok []) by (split; constructor).
  split; [|split].
  - destruct (fold_setdefault_ok items [] Hok) as [Hk Hn].
    replace (map file_id (map snd (fold_left setdefault items [])))
      with (map fst (fold_left setdefault items [])); [exact Hn|].
    rewrite map_map. apply map_ext_in. intros kv Hin.
    rewrite List.Forall_forall in Hk. apply Hk. exact Hin.
  - intros g. rewrite (fold_setdefault_values items [] g Hok). simpl.
    unfold first_listing. tauto.
  - destruct (fold_setdefault_sublist items []) as (new & -> & Hs). exact Hs.
Qed.

(** ** The national number in the name of a resolved folder *)

Lemma drop_while_suffix {A} (p : A -> bool) (l : list A) : exists pre, l = pre ++ drop_while p l.
Proof.
  induction l as [|x l [pre IH]]; simpl; [exists []; reflexivity|].
  destruct (p x); [exists (x :: pre); simpl; congruence|exists []; reflexivity].
Qed.

Lemma national_body_suffix digits : exists pre, digits = pre ++ national_body digits.
Proof.
  unfold national_body. destruct (startswith ZERO digits).
  - rewrite startswith_app. exists []. reflexivity.
  - destruct (startswith UA_CODE digits).
    + exists (take 3 digits). unfold slice_from. symmetry. apply take_drop.
    + apply drop_while_suffix.
Qed.

Lemma contains_app needle a b : contains needle (a ++ needle ++ b) = true.
Proof.
  induction a as [|x a IH]; simpl.
  - pose proof (startswith_app needle b) as H.
    destruct (needle ++ b); simpl; rewrite H; reflexivity.
  - rewrite IH. apply orb_true_r.
Qed.

Section NationalNumber.
Context {UT : Unicode}.

(** The nine digits of a full normalized phone end the digits of the input. *)
Lemma normalized_body_ends_digits phone body :
  normalize_phone_e164_ua phone = UA_PREFIX ++ body -> length body = 9%nat ->
  exists pre, keep isdecimal phone = pre ++ body.
Proof.
  unfold normalize_phone_e164_ua. intros E Hl.
  destruct (is_empty (keep isdecimal phone)).
  - change UA_PREFIX with (UA_PREFIX ++ []) in E at 1. apply app_inv_head in E.
    subst body. discriminate.
  - apply app_inv_head in E.
    destruct (national_body_suffix (keep isdecimal phone)) as [p Hp].
    rewrite Hp. rewrite <- E. unfold slice_last.
    exists (p ++ take (length (national_body (keep isdecimal phone)) - 9)
                   (national_body (keep isdecimal phone))).
    rewrite <- app_assoc, take_drop. reflexivity.
Qed.

Lemma findall_runs_within cls lo hi cur s run :
  In run (findall_runs cls lo hi cur s) -> exists a b, cur ++ s = a ++ run ++ b.
Proof.
  revert cur. induction s as [|c s IH]; intros cur H; simpl in H.
  - destruct (lo <=? length cur)%nat; [|contradiction].
    destruct H as [<-|[]]. exists [], []. reflexivity.
  - destruct (cls c).
    + destruct (length (cur ++ [c]) =? hi)%nat.
      * destruct H as [<-|H].
        -- exists [], s. rewrite <- app_assoc. reflexivity.
        -- destruct (IH [] H) as (a & b & E). simpl in E.
           exists (cur ++ c :: a), b. rewrite E, <- app_assoc. reflexivity.
      * destruct (IH _ H) as (a & b & E). exists a, b.
        rewrite <- E, <- app_assoc. reflexivity.
    + apply in_app_iff in H. destruct H as [H|H].
      * destruct (lo <=? length cur)%nat; [|contradiction].
        destruct H as [<-|[]]. exists [], (c :: s). reflexivity.
      * destruct (IH [] H) as (a & b & E). simpl in E.
        exists (cur ++ c :: a), b. rewrite E, <- app_assoc. reflexivity.
Qed.

Lemma phone_confirmed_contains e164 body f :
  e164 = UA_PREFIX ++ body -> length body = 9%nat ->
  phone_confirmed e164 f = true ->
  contains body (keep isdecimal (file_name f)) = true.
Proof.
  intros He Hl. unfold phone_confirmed, _extract_e164_from_title.
  destruct (length (keep isdecimal (file_name f)) <? 9)%nat; [discriminate|].
  destruct (last _) as [run|] eqn:Er; [|discriminate].
  intros H. apply andb_true_iff in H. destruct H as [_ H]. apply str_eqb_eq in H.
  rewrite normalize_phone_idempotent, He in H.
  apply last_Some in Er. destruct Er as [l' Er].
  assert (Hin : In run (findall_runs isdecimal 9 12 [] (keep isdecimal (file_name f)))).
  { rewrite Er. apply in_app_iff. right. left. reflexivity. }
  apply findall_runs_within in Hin. destruct Hin as (a & b & E). simpl in E.
  assert (Hrun : forallb isdecimal run = true).
  { pose proof (keep_forallb isdecimal (file_name f)) as Hk. rewrite E in Hk.
    rewrite !forallb_app in Hk. apply andb_true_iff in Hk. destruct Hk as [_ Hk].
    apply andb_true_iff in Hk. tauto. }
  destruct (normalized_body_ends_digits run body H Hl) as [p Hp].
  rewrite keep_all in Hp by exact Hrun.
  rewrite E, Hp, <- !app_assoc, app_assoc. apply contains_app.
Qed.

End NationalNumber.

(** X9.  When the exact tier finds nothing and the phone normalizes to the
    prefix and nine digits, every folder [find_client_folder_strict]
    returns, from the fuzzy tier or from the phone tier, has these nine
    digits in a row among the digits of its name. *)
Theorem resolved_folder_name_holds_the_national_number :
  forall (UT : Unicode) (drive : Drive) (root_folder_id expected_title phone_e164 body : str)
         (f : file),
    normalize_phone_e164_ua phone_e164 = UA_PREFIX ++ body ->
    length body = 9%nat ->
    find_folder_by_exact_name_under drive root_folder_id expected_title = Ok None ->
    find_client_folder_strict drive root_folder_id expected_title phone_e164 = Ok (Some f) ->
    contains body (keep isdecimal (file_name f)) = true.
Proof.
  intros UT drive root title phone body f He Hl Hx H.
  unfold find_client_folder_strict in H. rewrite Hx in H. simpl in H.
  apply bind_Ok in H. destruct H as (fuzzy & Hf & H).
  destruct fuzzy as [g|].
  - injection H as ->.
    apply find_folder_by_fuzzy_choice in Hf.
    destruct Hf as (pages & before & after & _ & _ & Hk & _).
    destruct (normalized_body_ends_digits phone body He Hl) as [p Hp].
    assert (E9 : slice_last 9 (keep isdecimal phone) = body).
    { rewrite Hp. unfold slice_last. rewrite length_app, Hl.
      replace (length p + 9 - 9)%nat with (length p) by lia.
      rewrite drop_app_length. reflexivity. }
    rewrite E9 in Hk. destruct Hk as [->|Hk]; [discriminate|exact Hk].
  - apply find_folder_by_phone_cases in H. destruct H as (matched & Hm & H).
    assert (Hin : In f matched).
    { destruct H as [[_ H]|[_ H]]; eapply first_greatest_In; eauto. }
    unfold phone_matched in Hm. apply bind_Ok in Hm. destruct Hm as (items & _ & Hm).
    injection Hm as <-. apply filter_In in Hin. destruct Hin as [_ Hc].
    eapply phone_confirmed_contains; eauto.
Qed.

Lemma resolved_folder_name_holds_the_national_number_witness :
  contains (U "671234567") (@keep (@isdecimal py_tables) (file_name folder_petrenko)) = true.
Proof.
  apply (resolved_folder_name_holds_the_national_number py_tables two_page_drive
           (U "root") (U "Petrenko Ivan, +380671234567") (U "+380 67 123 45 67")
           (U "671234567") folder_petrenko).
  - vm_compute. reflexivity.
  - vm_compute. reflexivity.
  - vm_compute. reflexivity.
  - vm_compute. reflexivity.
Defined.

(** ** The query of the phone tier *)

Lemma phone_patterns_Forall (P : char -> Prop) last9 :
  Forall P last9 -> Forall P (U "+380 ") ->
  Forall (Forall P) (phone_patterns last9).
Proof.
  intros H Hlit. unfold phone_patterns, slice_to, slice.
  assert (H32 : Forall P (U " ")).
  { apply Forall_cons in Hlit. destruct Hlit as [_ Hlit]. do 3 (apply Forall_cons in Hlit; destruct Hlit as [_ Hlit]).
    exact Hlit. }
  assert (H380 : Forall P (U "+380")).
  { change (U "+380 ") with (U "+380" ++ U " ") in Hlit. apply Forall_app in Hlit. tauto. }
  assert (Ht : forall n, Forall P (take n last9)) by (intros n; apply Forall_take; exact H).
  assert (Hs : forall i n, Forall P (take n (drop i last9)))
    by (intros i n; apply Forall_take, Forall_drop; exact H).
  apply List.Forall_forall. intros p Hin. cbn [In] in Hin.
  repeat (destruct Hin as [<-|Hin]); try contradiction;
    rewrite ?Forall_app; repeat split; auto.
Qed.

(** X10.  The query of the phone tier always names all six patterns of the
    phone: the patterns hold digits, spaces and a plus sign only, so the
    test that leaves out a pattern with an apostrophe never leaves one
    out. *)
Theorem phone_query_names_all_six_patterns :
  forall (UT : Unicode) (parent_id phone_e164 : str),
    phone_query parent_id (normalize_phone_e164_ua phone_e164)
    = U "'" ++ parent_id ++ U "' in parents and mimeType='" ++ FOLDER_MIME ++ U "' "
      ++ U "and trashed=false and ("
      ++ join (U " or ")
           (map (fun p => U "name contains '" ++ p ++ U "'")
              (phone_patterns
                 (slice_last 9 (keep isdecimal (normalize_phone_e164_ua phone_e164)))))
      ++ U ")"
    /\ length (phone_patterns
                 (slice_last 9 (keep isdecimal (normalize_phone_e164_ua phone_e164)))) = 6%nat.
Proof.
  intros UT parent phone. split; [|reflexivity].
  unfold phone_query.
  set (last9 := slice_last 9 (keep isdecimal (normalize_phone_e164_ua phone))).
  assert (Hd : Forall (fun c => c <> 39%N) last9).
  { unfold last9, slice_last. apply Forall_drop.
    pose proof (keep_forallb isdecimal (normalize_phone_e164_ua phone)) as Hk.
    rewrite forallb_forall in Hk. apply List.Forall_forall. intros c Hc ->.
    specialize (Hk _ Hc). rewrite isdecimal_ascii in Hk by reflexivity. discriminate Hk. }
  assert (Hp : Forall (Forall (fun c => c <> 39%N)) (phone_patterns last9)).
  { apply phone_patterns_Forall; [exact Hd|]. repeat constructor; discriminate. }
  replace (List.filter (fun p => negb (char_in p (ch "'"))) (phone_patterns last9))
    with (phone_patterns last9); [reflexivity|].
  symmetry. apply forallb_filter_id. apply forallb_forall. intros p Hin.
  rewrite List.Forall_forall in Hp. specialize (Hp p Hin).
  unfold char_in. change (ch "'") with 39%N. rewrite existsb_absent by exact Hp. reflexivity.
Qed.

(** ** The base address and the domain of the CRM *)

Lemma drop_while_stops {A} (p : A -> bool) (l : list A) x :
  head (drop_while p l) = Some x -> p x = false.
Proof.
  induction l as [|y l IH]; simpl; [discriminate|].
  destruct (p y) eqn:E; [exact IH|]. simpl. intros [= <-]. exact E.
Qed.

Lemma rstrip_last cls (s : str) c : last (rstrip cls s) = Some c -> cls c = false.
Proof. unfold rstrip. rewrite <- head_rev, rev_involutive. apply drop_while_stops. Qed.

Lemma take_drop_while {A} (p : A -> bool) (l : list A) : take_while p l ++ drop_while p l = l.
Proof. induction l as [|x l IH]; simpl; [reflexivity|]. destruct (p x); simpl; congruence. Qed.

Lemma take_while_Forall {A} (p : A -> bool) (l : list A) :
  Forall (fun x => p x = true) (take_while p l).
Proof.
  induction l as [|x l IH]; simpl; [constructor|].
  destruct (p x) eqn:E; constructor; assumption.
Qed.

Lemma take_while_stop {A} (p : A -> bool) (l r : list A) :
  Forall (fun x => p x = true) l -> (forall x, head r = Some x -> p x = false) ->
  take_while p (l ++ r) = l /\ drop_while p (l ++ r) = r.
Proof.
  intros Hl Hr. induction Hl as [|x l Hx Hl IH]; simpl.
  - destruct r as [|y r]; [auto|]. simpl. rewrite (Hr y eq_refl). auto.
  - rewrite Hx. destruct IH as [-> ->]. auto.
Qed.

Lemma after_literal_Some p s r : after_literal p s = Some r -> s = p ++ r.
Proof.
  unfold after_literal. revert s. induction p as [|x p IH]; intros s; simpl.
  - intros [= <-]. reflexivity.
  - destruct s as [|y s]; simpl; [discriminate|].
    destruct (chr_eqb x y) eqn:E; simpl; [|discriminate].
    apply chr_eqb_eq in E. subst y. intros H. f_equal. apply IH. exact H.
Qed.

Lemma after_literal_app p r : after_literal p (p ++ r) = Some r.
Proof.
  unfold after_literal. rewrite startswith_app, drop_app_length. reflexivity.
Qed.

Lemma one_or_more_Some cls s run r :
  one_or_more cls s = Some (run, r) ->
  s = run ++ r /\ run <> [] /\ Forall (fun c => cls c = true) run
  /\ (forall c, head r = Some c -> cls c = false).
Proof.
  unfold one_or_more. destruct (take_while cls s) eqn:E; simpl; [discriminate|].
  intros [= <- <-]. rewrite <- E. split; [symmetry; apply take_drop_while|].
  split; [rewrite E; discriminate|]. split; [apply take_while_Forall|].
  intros x. apply drop_while_stops.
Qed.

Lemma one_or_more_app cls run r :
  run <> [] -> Forall (fun c => cls c = true) run ->
  (forall c, head r = Some c -> cls c = false) ->
  one_or_more cls (run ++ r) = Some (run, r).
Proof.
  intros Hn Hrun Hr. unfold one_or_more.
  destruct (take_while_stop cls run r Hrun Hr) as [-> ->].
  destruct run; [contradiction|reflexivity].
Qed.

Lemma last_app_nonempty {A} (l k : list A) : k <> [] -> last (l ++ k) = last k.
Proof.
  intros H. destruct (exists_last H) as (k' & x & ->).
  rewrite app_assoc, !last_snoc. reflexivity.
Qed.

Lemma not_slash_false c : not_slash c = false <-> c = SLASH.
Proof.
  unfold not_slash. rewrite negb_false_iff. apply chr_eqb_eq.
Qed.

Section BitrixFacts.
Context {UT : Unicode}.

Lemma match_rest_base_Some url m :
  match_rest_base url = Some m ->
  exists host user key rest,
    m = U "https://" ++ host ++ U "/rest/" ++ user ++ U "/" ++ key ++ U "/"
    /\ url = m ++ rest
    /\ host <> [] /\ Forall (fun c => not_slash c = true) host
    /\ key <> [] /\ Forall (fun c => not_slash c = true) key.
Proof.
  unfold match_rest_base. intros H.
  apply bind_Some in H. destruct H as (r1 & H1 & H).
  apply bind_Some in H. destruct H as ([host r2] & H2 & H).
  apply bind_Some in H. destruct H as (r3 & H3 & H).
  apply bind_Some in H. destruct H as ([user r4] & H4 & H).
  apply bind_Some in H. destruct H as (r5 & H5 & H).
  apply bind_Some in H. destruct H as ([key r6] & H6 & H).
  apply bind_Some in H. destruct H as (r7 & H7 & H).
  apply (inj Some) in H. subst m.
  apply after_literal_Some in H1, H3, H5, H7.
  apply one_or_more_Some in H2, H4, H6.
  destruct H2 as (E2 & Hh & Hhost & _). destruct H4 as (E4 & _).
  destruct H6 as (E6 & Hk & Hkey & _).
  exists host, user, key, r7. split; [reflexivity|].
  split; [|auto].
  rewrite H1, E2, H3, E4, H5, E6, H7. rewrite <- !app_assoc. reflexivity.
Qed.

Lemma match_domain_of_host host rest :
  host <> [] -> Forall (fun c => not_slash c = true) host ->
  match_domain (U "https://" ++ host ++ SLASH :: rest) = Some (U "https://" ++ host).
Proof.
  intros Hn Hh. unfold match_domain.
  rewrite after_literal_app. simpl.
  rewrite (one_or_more_app not_slash host (SLASH :: rest) Hn Hh)
    by (intros c [= <-]; reflexivity).
  simpl. reflexivity.
Qed.

End BitrixFacts.

(** X11.  The base address [_b24_base] gives ends with exactly one slash,
    whether it comes from the webhook setting, with any number of slashes
    at its end, or from the address of the contact list. *)
Theorem b24_base_ends_with_exactly_one_slash :
  forall (UT : Unicode) (BITRIX_WEBHOOK_BASE BITRIX_CONTACT_URL base : str),
    _b24_base BITRIX_WEBHOOK_BASE BITRIX_CONTACT_URL = Return base ->
    exists stem, base = stem ++ U "/" /\ forall c, last stem = Some c -> c <> SLASH.
Proof.
  intros UT W URL base. unfold _b24_base.
  destruct (is_empty W); simpl.
  - destruct (match_rest_base URL) as [m|] eqn:E; [|discriminate].
    intros [= <-]. apply match_rest_base_Some in E.
    destruct E as (host & user & key & rest & -> & _ & _ & _ & Hk & Hkey).
    exists (U "https://" ++ host ++ U "/rest/" ++ user ++ U "/" ++ key).
    split; [rewrite <- !app_assoc; reflexivity|].
    intros c Hc. rewrite !app_assoc in Hc. rewrite last_app_nonempty in Hc by exact Hk.
    apply (Forall_last _ _ _ Hkey) in Hc. intros ->. discriminate Hc.
  - intros [= <-]. eexists. split; [reflexivity|].
    intros c Hc. apply rstrip_last in Hc. intros ->. discriminate Hc.
Qed.

Lemma b24_base_ends_with_exactly_one_slash_witness :
  exists stem, U "https://crm.example.ua/rest/596/k3y/" = stem ++ U "/"
               /\ forall c, last stem = Some c -> c <> SLASH.
Proof.
  apply (b24_base_ends_with_exactly_one_slash py_tables
           (U "https://crm.example.ua/rest/596/k3y///") []).
  vm_compute. reflexivity.
Defined.

(** X12.  Taken from the address of the contact list, the base address is
    the start of that address, and [_b24_domain] does not fail on it: it
    gives the scheme and the host. *)
Theorem b24_base_from_contact_url_has_a_domain :
  forall (UT : Unicode) (BITRIX_CONTACT_URL base : str),
    _b24_base [] BITRIX_CONTACT_URL = Return base ->
    (exists rest, BITRIX_CONTACT_URL = base ++ rest)
    /\ exists host tail,
         _b24_domain [] BITRIX_CONTACT_URL = Return (U "https://" ++ host)
         /\ base = U "https://" ++ host ++ U "/" ++ tail
         /\ forallb not_slash host = true /\ is_empty host = false.
Proof.
  intros UT URL base H. unfold _b24_domain. rewrite H. simpl.
  unfold _b24_base in H. simpl in H.
  destruct (match_rest_base URL) as [m|] eqn:E; [|discriminate].
  injection H as <-. apply match_rest_base_Some in E.
  destruct E as (host & user & key & rest & -> & -> & Hh & Hhost & _).
  split; [exists rest; reflexivity|].
  exists host, (U "rest/" ++ user ++ U "/" ++ key ++ U "/").
  change (U "/rest/" ++ ?x) with (SLASH :: U "rest/" ++ x).
  rewrite (match_domain_of_host host _ Hh Hhost).
  split; [reflexivity|]. split; [reflexivity|]. split.
  - apply forallb_forall. rewrite List.Forall_forall in Hhost. exact Hhost.
  - destruct host; [contradiction|reflexivity].
Qed.

Lemma b24_base_from_contact_url_has_a_domain_witness :
  (exists rest, U "https://crm.example.ua/rest/596/k3y/crm.contact.list.json"
                = U "https://crm.example.ua/rest/596/k3y/" ++ rest)
  /\ exists host tail,
       @_b24_domain py_tables [] (U "https://crm.example.ua/rest/596/k3y/crm.contact.list.json")
       = Return (U "https://" ++ host)
       /\ U "https://crm.example.ua/rest/596/k3y/" = U "https://" ++ host ++ U "/" ++ tail
       /\ forallb not_slash host = true /\ is_empty host = false.
Proof.
  apply (b24_base_from_contact_url_has_a_domain py_tables
           (U "https://crm.example.ua/rest/596/k3y/crm.contact.list.json")).
  vm_compute. reflexivity.
Defined.

Lemma drop_while_app_stop {A} (p : A -> bool) (x y : list A) :
  (forall c, head y = Some c -> p c = false) ->
  drop_while p (x ++ y) = drop_while p x ++ y.
Proof.
  intros Hy. induction x as [|a x IH]; simpl.
  - apply drop_while_head. exact Hy.
  - destruct (p a); [exact IH|reflexivity].
Qed.

Lemma rstrip_app_keep cls (a b : str) :
  (forall c, last a = Some c -> cls c = false) ->
  rstrip cls (a ++ b) = a ++ rstrip cls b.
Proof.
  intros Ha. unfold rstrip. rewrite rev_app_distr, drop_while_app_stop.
  - rewrite rev_app_distr, rev_involutive. reflexivity.
  - intros c. rewrite head_rev. apply Ha.
Qed.

Lemma rstrip_prefix cls (s : str) : exists t, s = rstrip cls s ++ t.
Proof.
  unfold rstrip. destruct (drop_while_suffix cls (rev s)) as [pre E].
  exists (rev pre). rewrite <- rev_app_distr, <- E, rev_involutive. reflexivity.
Qed.

(** X13.  For a webhook setting made of the scheme, a host without slash
    and nothing more or a path that starts with a slash, [_b24_domain]
    gives the scheme and the host, whatever the path. *)
Theorem b24_domain_of_webhook_is_scheme_and_host :
  forall (UT : Unicode) (host path BITRIX_CONTACT_URL : str),
    is_empty host = false ->
    forallb not_slash host = true ->
    path = [] \/ head path = Some SLASH ->
    _b24_domain (U "https://" ++ host ++ path) BITRIX_CONTACT_URL
    = Return (U "https://" ++ host).
Proof.
  intros UT host path URL Hn Hh Hp.
  assert (Hne : host <> []) by (intros ->; discriminate).
  assert (Hhost : Forall (fun c => not_slash c = true) host).
  { apply List.Forall_forall. apply forallb_forall. exact Hh. }
  unfold _b24_domain, _b24_base.
  replace (is_empty (U "https://" ++ host ++ path)) with false by reflexivity.
  cbn [negb]. cbv iota.
  rewrite app_assoc, rstrip_app_keep.
  - assert (Ht : exists tail, rstrip (fun c => chr_eqb c SLASH) path ++ U "/" = SLASH :: tail).
    { destruct (rstrip_prefix (fun c => chr_eqb c SLASH) path) as [t Et].
      destruct (rstrip (fun c => chr_eqb c SLASH) path) as [|c r]; [exists []; reflexivity|].
      destruct Hp as [->|Hp]; [destruct t; discriminate|].
      rewrite Et in Hp. simpl in Hp. injection Hp as ->. eexists. reflexivity. }
    destruct Ht as [tail Et]. unfold mbind, outcome_bind.
    rewrite <- !app_assoc, Et. rewrite (match_domain_of_host host tail Hne Hhost).
    reflexivity.
  - intros c Hc. rewrite last_app_nonempty in Hc by exact Hne.
    apply (Forall_last _ _ _ Hhost) in Hc. unfold not_slash in Hc.
    apply negb_true_iff in Hc. exact Hc.
Qed.

Lemma b24_domain_of_webhook_is_scheme_and_host_witness :
  @_b24_domain py_tables (U "https://" ++ U "crm.example.ua" ++ U "/rest/596/k3y//") []
  = Return (U "https://" ++ U "crm.example.ua").
Proof.
  apply (b24_domain_of_webhook_is_scheme_and_host py_tables
           (U "crm.example.ua") (U "/rest/596/k3y//") []).
  - reflexivity.
  - vm_compute. reflexivity.
  - right. reflexivity.
Defined.

(** ** The plan file *)

Lemma pref_lookup (k : str) :
  pref !! k = if decide (DOCX_MIME = k) then Some 3%nat
              else if decide (GDOC_MIME = k) then Some 2%nat else None.
Proof.
  unfold pref. rewrite lookup_insert. destruct (decide (DOCX_MIME = k)); [reflexivity|].
  rewrite lookup_singleton. reflexivity.
Qed.

Lemma mime_types_differ : DOCX_MIME <> GDOC_MIME.
Proof. intros H. apply (f_equal length) in H. vm_compute in H. discriminate H. Qed.

Lemma preference_cases (f : document) :
  (mimeType f = Some DOCX_MIME /\ preference f = 3%nat)
  \/ (mimeType f = Some GDOC_MIME /\ preference f = 2%nat)
  \/ (mimeType f <> Some DOCX_MIME /\ mimeType f <> Some GDOC_MIME /\ preference f = 1%nat).
Proof.
  unfold preference. rewrite pref_lookup.
  destruct (decide (DOCX_MIME = default [] (mimeType f))) as [E|E].
  - left. destruct (mimeType f); simpl in E; [subst; auto|discriminate].
  - destruct (decide (GDOC_MIME = default [] (mimeType f))) as [E'|E'].
    + right. left. destruct (mimeType f); simpl in E'; [subst; auto|discriminate].
    + right. right. destruct (mimeType f) as [m|]; simpl in *.
      * repeat split; congruence.
      * repeat split; discriminate.
Qed.

Lemma find_plan_file_fallback drive folder_id f :
  first_documents drive (plan_exact_query folder_id) 5 = Ok [] ->
  find_plan_file drive folder_id = Ok (Some f) ->
  exists page, first_documents drive (plan_contains_query folder_id) 20 = Ok page
               /\ first_greatest Nat.leb preference f page.
Proof.
  intros Hx H. unfold find_plan_file in H. rewrite Hx in H. simpl in H.
  apply bind_Ok in H. destruct H as (page & Hp & H). exists page. split; [exact Hp|].
  destruct page as [|g page]; [discriminate|]. injection H as H.
  eapply sort_by_reverse_head; eauto using nat_leb_total, nat_leb_trans.
Qed.

(** X14.  [find_plan_file] returns the first file the store lists under
    the exact name of the plan, if there is one.  Otherwise it looks at the
    first page of the files whose name contains the words of the title:
    it returns a Word document if the page has one, else a Google document
    if the page has one, else another file, and among the files of the
    type it returns, the one listed first. *)
Theorem find_plan_file_prefers_exact_name_then_type :
  forall (drive : Documents) (folder_id : str) (f : document),
    find_plan_file drive folder_id = Ok (Some f) ->
    (exists rest, first_documents drive (plan_exact_query folder_id) 5 = Ok (f :: rest))
    \/ (first_documents drive (plan_exact_query folder_id) 5 = Ok []
        /\ exists before after,
             first_documents drive (plan_contains_query folder_id) 20
             = Ok (before ++ f :: after)
             /\ (forall g, In g before -> mimeType g <> mimeType f)
             /\ (forall g, In g (before ++ after) ->
                   mimeType g = Some DOCX_MIME -> mimeType f = Some DOCX_MIME)
             /\ (forall g, In g (before ++ after) ->
                   mimeType g = Some GDOC_MIME ->
                   mimeType f = Some DOCX_MIME \/ mimeType f = Some GDOC_MIME)).
Proof.
  intros drive folder f H.
  destruct (first_documents drive (plan_exact_query folder) 5) as [res|e] eqn:Hx.
  - destruct res as [|x rest].
    + right. split; [reflexivity|].
      destruct (find_plan_file_fallback drive folder f Hx H)
        as (page & Hp & before & after & -> & Hb & Ha).
      exists before, after. split; [exact Hp|].
      assert (Hle : forall g, In g (before ++ after) -> (preference g <= preference f)%nat).
      { intros g Hg. apply in_app_iff in Hg. destruct Hg as [Hg|Hg].
        - specialize (Hb g Hg). apply Nat.leb_gt in Hb. lia.
        - specialize (Ha g Hg). apply Nat.leb_le in Ha. exact Ha. }
      split; [|split].
      * intros g Hg E. specialize (Hb g Hg). apply Nat.leb_gt in Hb.
        unfold preference in Hb. rewrite E in Hb. lia.
      * intros g Hg E. specialize (Hle g Hg).
        destruct (preference_cases g) as [[_ Pg]|[[Eg _]|[Eg _]]];
          [|exfalso; apply mime_types_differ; congruence|congruence].
        destruct (preference_cases f) as [[Ef _]|[[_ Pf]|[_ [_ Pf]]]]; [exact Ef|lia..].
      * intros g Hg E. specialize (Hle g Hg).
        destruct (preference_cases g) as [[Eg _]|[[_ Pg]|[_ [Eg _]]]];
          [exfalso; apply mime_types_differ; congruence| |congruence].
        destruct (preference_cases f) as [[Ef _]|[[Ef _]|[_ [_ Pf]]]]; [auto..|lia].
    + left. exists rest. unfold find_plan_file in H. rewrite Hx in H. simpl in H.
      injection H as ->. reflexivity.
  - unfold find_plan_file in H. rewrite Hx in H. discriminate.
Qed.

Lemma find_plan_file_prefers_exact_name_then_type_witness :
  (exists rest, first_documents plan_drive (plan_exact_query (U "folder")) 5
                = Ok (plan_docx :: rest))
  \/ (first_documents plan_drive (plan_exact_query (U "folder")) 5 = Ok []
      /\ exists before after,
           first_documents plan_drive (plan_contains_query (U "folder")) 20
           = Ok (before ++ plan_docx :: after)
           /\ (forall g, In g before -> mimeType g <> mimeType plan_docx)
           /\ (forall g, In g (before ++ after) ->
                 mimeType g = Some DOCX_MIME -> mimeType plan_docx = Some DOCX_MIME)
           /\ (forall g, In g (before ++ after) ->
                 mimeType g = Some GDOC_MIME ->
                 mimeType plan_docx = Some DOCX_MIME \/ mimeType plan_docx = Some GDOC_MIME)).
Proof.
  apply (find_plan_file_prefers_exact_name_then_type plan_drive (U "folder") plan_docx).
  vm_compute. reflexivity.
Defined.

(** X15.  [find_plan_file] reports no plan exactly when the first page of
    each of its two queries is empty; a failure of the store is not turned
    into this answer, and files on later pages are never looked at. *)
Theorem find_plan_file_none_iff_both_first_pages_empty :
  forall (drive : Documents) (folder_id : str),
    find_plan_file drive folder_id = Ok None
    <-> first_documents drive (plan_exact_query folder_id) 5 = Ok []
        /\ first_documents drive (plan_contains_query folder_id) 20 = Ok [].
Proof.
  intros drive folder. unfold find_plan_file. split.
  - intros H. apply bind_Ok in H. destruct H as (res & Hx & H).
    destruct res as [|x rest]; [|discriminate].
    apply bind_Ok in H. destruct H as (page & Hp & H).
    destruct page as [|g page]; [auto|].
    assert (H' : head (sort_by_reverse Nat.leb preference (g :: page)) = None) by congruence.
    apply sort_by_reverse_head_None in H'. discriminate.
  - intros [-> ->]. reflexivity.
Qed.

(** ** The name of a contact *)

Lemma join_app sep (a b : list str) :
  a <> [] -> b <> [] -> join sep (a ++ b) = join sep a ++ sep ++ join sep b.
Proof.
  intros Ha Hb. induction a as [|x a IH]; [contradiction|].
  destruct a as [|y a].
  - simpl. destruct b; [contradiction|reflexivity].
  - change ((x :: y :: a) ++ b) with (x :: (y :: a) ++ b).
    change ((y :: a) ++ b) with (y :: a ++ b) at 1. rewrite join_cons2.
    change (y :: a ++ b) with ((y :: a) ++ b). rewrite IH by discriminate.
    rewrite join_cons2, <- !app_assoc. reflexivity.
Qed.

Lemma joined_words_empty ws : Forall word ws -> join SPACE ws = [] -> ws = [].
Proof.
  intros H E. destruct ws as [|w ws]; [reflexivity|].
  apply Forall_cons in H. destruct H as [[Hn _] _].
  destruct (join_nonempty SPACE w ws Hn E).
Qed.

Lemma join_joined_words (wss : list (list str)) :
  Forall (Forall word) wss ->
  join SPACE (List.filter (fun p => negb (is_empty p)) (map (join SPACE) wss))
  = join SPACE (concat wss).
Proof.
  induction wss as [|ws wss IH]; intros H; [reflexivity|].
  apply Forall_cons in H. destruct H as [Hws Hwss]. specialize (IH Hwss).
  assert (Hc : Forall word (concat wss)) by (apply Forall_concat; exact Hwss).
  simpl map. simpl concat. cbn [List.filter].
  destruct ws as [|w ws].
  - simpl. exact IH.
  - pose proof Hws as Hws'. apply Forall_cons in Hws'. destruct Hws' as [[Hn _] _].
    pose proof (join_nonempty SPACE w ws Hn) as Hj.
    destruct (join SPACE (w :: ws)) as [|c0 J] eqn:EJ; [contradiction|].
    cbn [is_empty negb]. rewrite <- EJ.
    destruct (List.filter _ (map (join SPACE) wss)) as [|r R] eqn:ER.
    + simpl in IH. symmetry in IH. apply (joined_words_empty _ Hc) in IH.
      rewrite IH, app_nil_r. reflexivity.
    + assert (Hne : concat wss <> []).
      { intros E0. rewrite E0 in IH. 
        assert (Hr : In r (List.filter (fun p => negb (is_empty p)) (map (join SPACE) wss)))
          by (rewrite ER; left; reflexivity).
        apply filter_In in Hr. destruct Hr as [_ Hr].
        destruct r; [discriminate|]. destruct R; discriminate. }
      rewrite join_cons2, IH. symmetry. apply join_app; [discriminate|exact Hne].
Qed.

Section ContactFacts.
Context {UT : Unicode}.

Lemma canonical_tokens_app a b :
  canonical_tokens a -> canonical_tokens b -> canonical_tokens (a ++ b).
Proof. intros [? ?] [? ?]. split; apply Forall_app; auto. Qed.

(** The name of a contact with plain fields is made of the canonical
    tokens of its three names. *)
Lemma build_fio_from_contact_tokens c :
  is_plain (default [] (LAST_NAME c)) = true ->
  is_plain (default [] (NAME c)) = true ->
  is_plain (default [] (SECOND_NAME c)) = true ->
  exists ws, canonical_tokens ws /\ build_fio_from_contact c = join SPACE ws
    /\ build_fio_from_contact c
       = join SPACE (List.filter (fun p => negb (is_empty p))
                       [normalize_fio_string (default [] (LAST_NAME c));
                        normalize_fio_string (default [] (NAME c));
                        normalize_fio_string (default [] (SECOND_NAME c))]).
Proof.
  intros Hl Hf Hm. unfold build_fio_from_contact.
  destruct (normalize_fio_string_canonical _ Hl) as (w1 & C1 & E1).
  destruct (normalize_fio_string_canonical _ Hf) as (w2 & C2 & E2).
  destruct (normalize_fio_string_canonical _ Hm) as (w3 & C3 & E3).
  rewrite E1, E2, E3.
  assert (Hc : canonical_tokens (concat [w1; w2; w3])).
  { simpl. rewrite app_nil_r. auto using canonical_tokens_app. }
  pose proof (join_joined_words [w1; w2; w3]) as Hj. simpl map in Hj.
  rewrite Hj by (repeat constructor; [apply C1|apply C2|apply C3]).
  exists (concat [w1; w2; w3]). split; [exact Hc|].
  assert (Hs : strip isspace (join SPACE (concat [w1; w2; w3])) = join SPACE (concat [w1; w2; w3])).
  { apply strip_ends_outside, joined_words_ends. apply Hc. }
  rewrite Hs. split; reflexivity.
Qed.

End ContactFacts.

(** X16.  For a contact whose three names are over ASCII and basic
    Cyrillic, [build_fio_from_contact] gives the normalized names that are
    not empty, family name first, joined by single spaces; the result is a
    normalized name itself, so [build_folder_title] puts it into the title
    as it is. *)
Theorem contact_name_is_a_normalized_name :
  forall (UT : Unicode) (c : contact) (phone : str),
    is_plain (default [] (LAST_NAME c)) = true ->
    is_plain (default [] (NAME c)) = true ->
    is_plain (default [] (SECOND_NAME c)) = true ->
    build_fio_from_contact c
    = join SPACE (List.filter (fun p => negb (is_empty p))
                    [normalize_fio_string (default [] (LAST_NAME c));
                     normalize_fio_string (default [] (NAME c));
                     normalize_fio_string (default [] (SECOND_NAME c))])
    /\ normalize_fio_string (build_fio_from_contact c) = build_fio_from_contact c
    /\ build_folder_title (build_fio_from_contact c) phone
       = build_fio_from_contact c ++ COMMA_SPACE ++ normalize_phone_e164_ua phone.
Proof.
  intros UT c phone Hl Hf Hm.
  destruct (build_fio_from_contact_tokens c Hl Hf Hm) as (ws & Hc & E & Ej).
  split; [exact Ej|].
  assert (Hfix : normalize_fio_string (build_fio_from_contact c) = build_fio_from_contact c).
  { rewrite E. apply normalize_fio_string_fixed. exact Hc. }
  split; [exact Hfix|]. unfold build_folder_title. rewrite Hfix. reflexivity.
Qed.

Lemma contact_name_is_a_normalized_name_witness :
  @build_fio_from_contact py_tables contact_melnyk
  = join SPACE (List.filter (fun p => negb (is_empty p))
                  [@normalize_fio_string py_tables (default [] (LAST_NAME contact_melnyk));
                   @normalize_fio_string py_tables (default [] (NAME contact_melnyk));
                   @normalize_fio_string py_tables (default [] (SECOND_NAME contact_melnyk))])
  /\ @normalize_fio_string py_tables (@build_fio_from_contact py_tables contact_melnyk)
     = @build_fio_from_contact py_tables contact_melnyk
  /\ @build_folder_title py_tables (@build_fio_from_contact py_tables contact_melnyk)
       (U "0671234567")
     = @build_fio_from_contact py_tables contact_melnyk ++ COMMA_SPACE
       ++ @normalize_phone_e164_ua py_tables (U "0671234567").
Proof.
  apply (contact_name_is_a_normalized_name py_tables contact_melnyk (U "0671234567"));
    vm_compute; reflexivity.
Defined.

(** ** Looking a contact up by phone *)

Lemma bind_Return {A B} (m : outcome A) (k : A -> outcome B) (b : B) :
  (x ← m; k x) = Return b -> exists a, m = Return a /\ k a = Return b.
Proof. destruct m as [a|e]; simpl; [eauto|discriminate]. Qed.

Lemma phone_entry_eta ph : ph = {| VALUE := VALUE ph |}.
Proof. destruct ph. reflexivity. Qed.

Section ContactLookup.
Context {UT : Unicode}.

Lemma has_phone_true want phs :
  want <> [] -> has_phone want phs = Return true ->
  exists v, In {| VALUE := Value v |} phs /\ keep isdecimal v = want.
Proof.
  intros Hw. induction phs as [|ph phs IH]; simpl; [discriminate|].
  intros H. apply bind_Return in H. destruct H as (hit & Hp & H).
  destruct hit.
  - unfold phone_is in Hp. destruct (VALUE ph) as [| |v] eqn:Ev.
    + change (keep isdecimal []) with (@nil char) in Hp.
      assert (Hp' : str_eqb [] want = true) by congruence.
      apply str_eqb_eq in Hp'. congruence.
    + discriminate.
    + assert (Hp' : str_eqb (keep isdecimal v) want = true) by congruence.
      apply str_eqb_eq in Hp'. rename Hp' into Hq. exists v. split; [|exact Hq].
      left. rewrite (phone_entry_eta ph), Ev. reflexivity.
  - destruct (IH H) as (v & Hin & Hv). exists v. auto.
Qed.

Lemma has_phone_false want phs :
  has_phone want phs = Return false ->
  forall v, In {| VALUE := Value v |} phs -> keep isdecimal v <> want.
Proof.
  induction phs as [|ph phs IH]; simpl; [intros _ v []|].
  intros H. apply bind_Return in H. destruct H as (hit & Hp & H).
  destruct hit; [discriminate|]. intros v [E|Hin]; [|apply IH; assumption].
  subst ph. unfold phone_is in Hp. cbn [VALUE] in Hp.
  intros E. rewrite E, str_eqb_refl in Hp. discriminate.
Qed.

Lemma first_with_phone_Some want result c :
  want <> [] -> first_with_phone want result = Return (Some c) ->
  exists before after,
    result = before ++ c :: after
    /\ holds_phone want c
    /\ Forall (fun c' => ~ holds_phone want c') before.
Proof.
  intros Hw. induction result as [|c0 result IH]; simpl; [discriminate|].
  intros H. apply bind_Return in H. destruct H as (phs & Hphs & H).
  apply bind_Return in H. destruct H as (hit & Hhit & H).
  assert (Ep : PHONE c0 = Value phs \/ (PHONE c0 = Absent /\ phs = [])).
  { unfold phones_of in Hphs. destruct (PHONE c0) as [| |l]; [right; split; congruence|discriminate|left; congruence]. }
  destruct hit.
  - injection H as <-. exists [], result. split; [reflexivity|]. split; [|constructor].
    destruct (has_phone_true want phs Hw Hhit) as (v & Hin & Hv).
    destruct Ep as [Ep|[_ ->]]; [|destruct Hin]. exists phs, v. auto.
  - destruct (IH H) as (before & after & -> & Hc & Hb).
    exists (c0 :: before), after. split; [reflexivity|]. split; [exact Hc|].
    constructor; [|exact Hb]. intros (phs' & v & E & Hin & Hv).
    destruct Ep as [Ep|[Ep _]]; [|congruence].
    assert (phs' = phs) by congruence. subst phs'.
    exact (has_phone_false want phs Hhit v Hin Hv).
Qed.

Lemma wanted_digits phone :
  exists body, keep isdecimal (normalize_phone_e164_ua phone) = UA_CODE ++ body.
Proof.
  destruct (normalize_phone_parts phone) as (body & -> & Hd & _).
  exists body. apply keep_prefixed. exact Hd.
Qed.

End ContactLookup.

(** X17.  The contact [find_contact_by_phone] returns is one of the list
    the CRM answered with, and it holds the phone: the digits of one of its
    stored phones are exactly the digits of the normalized phone searched
    for.  No contact listed before it does: the filter of the CRM is not
    taken on trust. *)
Theorem found_contact_holds_the_phone_digit_for_digit :
  forall (UT : Unicode) (BITRIX_WEBHOOK_BASE BITRIX_CONTACT_URL : str)
         (get_contacts : str -> str -> outcome (list contact)) (phone : str) (c : contact),
    find_contact_by_phone BITRIX_WEBHOOK_BASE BITRIX_CONTACT_URL get_contacts phone
    = Return (Some c) ->
    exists url before after,
      contact_list_url BITRIX_WEBHOOK_BASE BITRIX_CONTACT_URL = Return url
      /\ get_contacts url (normalize_phone_e164_ua phone) = Return (before ++ c :: after)
      /\ holds_phone (keep isdecimal (normalize_phone_e164_ua phone)) c
      /\ Forall (fun c' => ~ holds_phone (keep isdecimal (normalize_phone_e164_ua phone)) c')
           before.
Proof.
  intros UT W URL get_contacts phone c H. unfold find_contact_by_phone in H.
  apply bind_Return in H. destruct H as (url & Hu & H).
  apply bind_Return in H. destruct H as (result & Hr & H).
  exists url.
  assert (Hw : keep isdecimal (normalize_phone_e164_ua phone) <> []).
  { destruct (wanted_digits phone) as [body ->]. discriminate. }
  destruct result as [|c0 result]; [discriminate|].
  destruct (first_with_phone_Some _ _ _ Hw H) as (before & after & E & Hc & Hb).
  exists before, after. rewrite <- E. auto.
Qed.

Lemma found_contact_holds_the_phone_digit_for_digit_witness :
  exists url before after,
    @contact_list_url py_tables (U "https://crm.example.ua/rest/596/k3y/") [] = Return url
    /\ sample_crm url (@normalize_phone_e164_ua py_tables (U "067 123 45 67"))
       = Return (before ++ contact_melnyk :: after)
    /\ @holds_phone py_tables
         (keep (@isdecimal py_tables) (@normalize_phone_e164_ua py_tables (U "067 123 45 67")))
         contact_melnyk
    /\ Forall (fun c' =>
                 ~ @holds_phone py_tables
                     (keep (@isdecimal py_tables)
                        (@normalize_phone_e164_ua py_tables (U "067 123 45 67"))) c')
         before.
Proof.
  apply (found_contact_holds_the_phone_digit_for_digit py_tables
           (U "https://crm.example.ua/rest/596/k3y/") [] sample_crm
           (U "067 123 45 67") contact_melnyk).
  vm_compute. reflexivity.
Defined.

Section StoredFormats.
Context {UT : Unicode}.

Lemma has_phone_trunk_zero want phs :
  startswith ZERO want = false ->
  Forall (fun ph => exists v, VALUE ph = Value v
                              /\ startswith ZERO (keep isdecimal v) = true) phs ->
  has_phone want phs = Return false.
Proof.
  intros Hw. induction 1 as [|ph phs (v & Ev & Hz) _ IH]; [reflexivity|].
  simpl. unfold phone_is. rewrite Ev.
  replace (str_eqb (keep isdecimal v) want) with false; [exact IH|].
  symmetry. apply str_eqb_neq. intros E. rewrite E in Hz. congruence.
Qed.

Lemma first_with_phone_trunk_zero want result :
  startswith ZERO want = false ->
  Forall stored_with_trunk_zero result ->
  first_with_phone want result = Return None.
Proof.
  intros Hw. induction 1 as [|c result (phs & Ep & Hphs) _ IH]; [reflexivity|].
  simpl. unfold phones_of. rewrite Ep. simpl.
  rewrite (has_phone_trunk_zero want phs Hw Hphs). exact IH.
Qed.

End StoredFormats.

(** X18.  Stored phones are compared by their digits as they are stored,
    not by their normalized form: when every phone of every contact the
    CRM lists is stored with the trunk zero, [find_contact_by_phone] finds
    no contact. *)
Theorem contact_stored_with_trunk_zero_is_not_found :
  forall (UT : Unicode) (BITRIX_WEBHOOK_BASE BITRIX_CONTACT_URL : str)
         (get_contacts : str -> str -> outcome (list contact)) (phone url : str)
         (result : list contact),
    contact_list_url BITRIX_WEBHOOK_BASE BITRIX_CONTACT_URL = Return url ->
    get_contacts url (normalize_phone_e164_ua phone) = Return result ->
    Forall stored_with_trunk_zero result ->
    find_contact_by_phone BITRIX_WEBHOOK_BASE BITRIX_CONTACT_URL get_contacts phone
    = Return None.
Proof.
  intros UT W URL get_contacts phone url result Hu Hr Hz.
  unfold find_contact_by_phone. rewrite Hu. simpl. rewrite Hr. simpl.
  destruct result as [|c result]; [reflexivity|].
  apply first_with_phone_trunk_zero; [|exact Hz].
  destruct (wanted_digits phone) as [body ->]. reflexivity.
Qed.

Lemma contact_stored_with_trunk_zero_is_not_found_witness :
  @find_contact_by_phone py_tables [] (U "https://crm.example.ua/rest/596/k3y/crm.contact.list.json")
    (fun _ _ => Return [contact_trunk_zero]) (U "067 123 45 67")
  = Return None.
Proof.
  apply (contact_stored_with_trunk_zero_is_not_found py_tables []
           (U "https://crm.example.ua/rest/596/k3y/crm.contact.list.json")
           (fun _ _ => Return [contact_trunk_zero]) (U "067 123 45 67")
           (U "https://crm.example.ua/rest/596/k3y/crm.contact.list.json")
           [contact_trunk_zero]).
  - vm_compute. reflexivity.
  - reflexivity.
  - constructor; [|constructor].
    exists [ {| VALUE := Value (U "067 123 45 67") |} ]. split; [reflexivity|].
    constructor; [|constructor]. exists (U "067 123 45 67").
    split; [reflexivity|vm_compute; reflexivity].
Defined.

(** ** The stage log *)

Lemma opt_str_eqb_eq a b : opt_str_eqb a b = true <-> a = b.
Proof.
  destruct a as [x|], b as [y|]; simpl; try (split; congruence).
  rewrite str_eqb_eq. split; congruence.
Qed.

Lemma drop_repeats_sublist prev items : sublist (drop_repeats prev items) items.
Proof.
  revert prev. induction items as [|r rest IH]; intros prev; simpl; [constructor|].
  destruct (opt_str_eqb (STAGE_ID r) prev); [apply sublist_cons|apply sublist_skip]; apply IH.
Qed.

Lemma drop_repeats_head prev items a :
  head (drop_repeats prev items) = Some a -> STAGE_ID a <> prev.
Proof.
  induction items as [|r rest IH]; simpl; [discriminate|].
  destruct (opt_str_eqb (STAGE_ID r) prev) eqn:E; [exact IH|].
  simpl. intros [= <-] Heq. apply opt_str_eqb_eq in Heq. congruence.
Qed.

Lemma drop_repeats_adjacent prev items i a b :
  drop_repeats prev items !! i = Some a -> drop_repeats prev items !! S i = Some b ->
  STAGE_ID a <> STAGE_ID b.
Proof.
  revert prev i. induction items as [|r rest IH]; intros prev i; simpl; [discriminate|].
  destruct (opt_str_eqb (STAGE_ID r) prev); [apply IH|].
  destruct i as [|i]; simpl.
  - intros [= <-] Hb Heq. apply (drop_repeats_head (STAGE_ID r) rest b).
    + destruct (drop_repeats (STAGE_ID r) rest); [discriminate|]. exact Hb.
    + congruence.
  - apply IH.
Qed.

Lemma str_leb_trans a b c : str_leb a b = true -> str_leb b c = true -> str_leb a c = true.
Proof.
  revert b c. induction a as [|x a IH]; intros [|y b] [|z c]; simpl; try congruence.
  unfold chr_eqb. intros H1 H2.
  apply orb_true_iff in H1. apply orb_true_iff in H2. apply orb_true_iff.
  destruct H1 as [H1|H1], H2 as [H2|H2].
  - left. apply N.ltb_lt in H1, H2. apply N.ltb_lt. lia.
  - apply andb_true_iff in H2. destruct H2 as [E _]. apply N.eqb_eq in E. subst z. auto.
  - apply andb_true_iff in H1. destruct H1 as [E _]. apply N.eqb_eq in E. subst y. auto.
  - apply andb_true_iff in H1, H2. destruct H1 as [E1 H1], H2 as [E2 H2].
    apply N.eqb_eq in E1, E2. subst y z. right. rewrite N.eqb_refl. simpl. eauto.
Qed.

Section SortedBySort.
Context {A K : Type} (leb : K -> K -> bool) (key : A -> K).
Hypothesis leb_total : forall a b, leb a b = true \/ leb b a = true.
Hypothesis leb_trans : forall a b c, leb a b = true -> leb b c = true -> leb a c = true.

Let ascending (x y : A) : Prop := leb (key x) (key y) = true.

Lemma insert_sorted_ascending x l :
  StronglySorted ascending l ->
  StronglySorted ascending (insert_sorted (fun a b => leb (key a) (key b)) x l).
Proof.
  induction 1 as [|y l Hs IH Hy]; simpl.
  - constructor; constructor.
  - destruct (leb (key x) (key y)) eqn:E.
    + constructor; [constructor; assumption|].
      constructor; [exact E|]. eapply Forall_impl; [exact Hy|].
      intros z Hz. unfold ascending in *. eauto.
    + constructor; [exact IH|].
      apply List.Forall_forall. intros z Hz. apply insert_sorted_In in Hz.
      destruct Hz as [->|Hz].
      * unfold ascending. destruct (leb_total (key y) (key x)); congruence.
      * rewrite List.Forall_forall in Hy. auto.
Qed.

Lemma sort_by_ascending l : StronglySorted ascending (sort_by leb key l).
Proof.
  unfold sort_by, stable_sort. induction l as [|x l IH]; simpl; [constructor|].
  apply insert_sorted_ascending. exact IH.
Qed.

End SortedBySort.

Lemma sublist_In {A} (l k : list A) x : sublist l k -> In x l -> In x k.
Proof.
  intros Hs Hx. apply list_elem_of_In. apply list_elem_of_In in Hx.
  eapply sublist_submseteq in Hs. eapply elem_of_submseteq; eauto.
Qed.

Lemma sublist_StronglySorted {A} (R : A -> A -> Prop) (l k : list A) :
  sublist l k -> StronglySorted R k -> StronglySorted R l.
Proof.
  induction 1 as [|x l k Hs IH|x l k Hs IH]; intros Hk.
  - constructor.
  - apply StronglySorted_inv in Hk. destruct Hk as [Hk Hx].
    constructor; [auto|]. apply List.Forall_forall. intros y Hy.
    rewrite List.Forall_forall in Hx. apply Hx. eapply sublist_In; eauto.
  - apply StronglySorted_inv in Hk. destruct Hk as [Hk _]. auto.
Qed.

(** X19.  The stage history holds no stage twice in a row, and its first
    row has a stage id; its rows are rows of the log, among the first
    [limit] the CRM returned, and keep the order of their time stamps as
    strings. *)
Theorem stage_history_is_ascending_without_repeats :
  forall (items : list row) (limit : nat),
    (forall i a b, get_deal_stage_history items limit !! i = Some a ->
                   get_deal_stage_history items limit !! S i = Some b ->
                   STAGE_ID a <> STAGE_ID b)
    /\ (forall a, head (get_deal_stage_history items limit) = Some a -> STAGE_ID a <> None)
    /\ (forall r, In r (get_deal_stage_history items limit) -> In r (take limit items))
    /\ StronglySorted (fun a b => str_leb (created_key a) (created_key b) = true)
         (get_deal_stage_history items limit).
Proof.
  intros items limit. unfold get_deal_stage_history. split; [|split; [|split]].
  - intros i a b. apply drop_repeats_adjacent.
  - intros a. apply drop_repeats_head.
  - intros r Hr. eapply sublist_In in Hr; [|apply drop_repeats_sublist].
    unfold sort_by in Hr. apply stable_sort_In in Hr. exact Hr.
  - eapply sublist_StronglySorted; [apply drop_repeats_sublist|].
    apply (sort_by_ascending str_leb created_key str_leb_total str_leb_trans).
Qed.

(** ** Segments and their rows *)

Lemma datetime_sub_Ok_aware a b d :
  datetime_sub a b = Ok d -> is_Some (tzinfo a) -> is_Some (tzinfo b).
Proof.
  unfold datetime_sub. intros H [oa Ha]. rewrite Ha in H.
  destruct (tzinfo b); [eauto|discriminate].
Qed.

Section SegmentRows.
Variable fromisoformat : str -> option datetime.
Variable clock : Z.

Lemma segments_of_rows rows segs :
  compute_stage_segments fromisoformat clock rows = Ok segs ->
  Forall2 (segment_of_row fromisoformat) rows segs.
Proof.
  revert segs. induction rows as [|r rest IH]; intros segs H.
  - injection H as <-. constructor.
  - apply segments_cons in H.
    destruct H as (s & segs' & -> & Hr & Hid & Hstart & Hd & Hend).
    specialize (IH segs' Hr). constructor; [|exact IH].
    assert (He : is_Some (tzinfo (seg_end s))).
    { destruct rest as [|next rest'].
      - rewrite Hend. simpl. eauto.
      - inversion IH as [|? s' ? ? (_ & Hs' & Ha & _) _]; subst.
        assert (seg_end s = seg_start s') by congruence. congruence. }
    split; [exact Hid|]. split; [exact Hstart|]. split; [|exact He].
    eapply datetime_sub_Ok_aware; eauto.
Qed.

End SegmentRows.

(** X20.  When [compute_stage_segments] succeeds, every row has given one
    segment, in order, with the stage of the row and its parsed time stamp
    as start, and every start and end carries an offset from UTC: a time
    stamp without offset makes the subtraction from the aware end fail.
    Where the parser rejects the empty string, every row has a time
    stamp. *)
Theorem segments_come_from_rows_with_offsets :
  forall (fromisoformat : str -> option datetime) (clock : Z) (rows : list row)
         (segs : list segment),
    compute_stage_segments fromisoformat clock rows = Ok segs ->
    Forall2 (segment_of_row fromisoformat) rows segs
    /\ (fromisoformat [] = None -> Forall (fun r => is_Some (CREATED_TIME r)) rows).
Proof.
  intros parse clock rows segs H.
  pose proof (segments_of_rows parse clock rows segs H) as H2.
  split; [exact H2|]. intros Hempty.
  clear H. induction H2 as [|r s rows segs (_ & Hp & _) _ IH]; constructor; [|exact IH].
  destruct (CREATED_TIME r) as [ts|]; [eauto|].
  unfold _parse_iso in Hp. simpl in Hp. rewrite Hempty in Hp. discriminate.
Qed.

Lemma segments_come_from_rows_with_offsets_witness :
  Forall2 (segment_of_row py_fromisoformat) (get_deal_stage_history sample_rows 300)
    sample_segments
  /\ (py_fromisoformat [] = None ->
      Forall (fun r => is_Some (CREATED_TIME r)) (get_deal_stage_history sample_rows 300)).
Proof.
  apply (segments_come_from_rows_with_offsets py_fromisoformat sample_clock
           (get_deal_stage_history sample_rows 300) sample_segments).
  vm_compute. reflexivity.
Defined.

(** X21.  The durations of the segments add up to the time from the first
    event to the reading of the clock. *)
Theorem durations_add_up_to_the_time_since_the_first_event :
  forall (fromisoformat : str -> option datetime) (clock : Z) (rows : list row)
         (segs : list segment) (first : segment),
    compute_stage_segments fromisoformat clock rows = Ok segs ->
    head segs = Some first ->
    foldr Z.add 0%Z (map duration segs) = (clock - utc_instant (seg_start first))%Z.
Proof.
  intros fromisoformat clock rows.
  induction rows as [|r rest IH]; intros segs first H Hf.
  - injection H as <-. discriminate.
  - apply segments_cons in H.
    destruct H as (s & segs' & -> & Hr & _ & _ & Hd & Hend).
    injection Hf as <-. simpl. apply datetime_sub_instants in Hd. rewrite Hd.
    destruct rest as [|next rest'].
    + injection Hr as <-. simpl. rewrite Hend, utc_instant_now. lia.
    + pose proof Hr as Hr'. apply segments_cons in Hr'.
      destruct Hr' as (s' & segs'' & E & _ & _ & Hs' & _).
      rewrite (IH segs' s' Hr) by (rewrite E; reflexivity).
      assert (seg_end s = seg_start s') by congruence. rewrite H. lia.
Qed.

Lemma durations_add_up_to_the_time_since_the_first_event_witness :
  exists first,
    head sample_segments = Some first
    /\ foldr Z.add 0%Z (map duration sample_segments)
       = (sample_clock - utc_instant (seg_start first))%Z.
Proof.
  eexists. split; [reflexivity|].
  apply (durations_add_up_to_the_time_since_the_first_event py_fromisoformat sample_clock
           (get_deal_stage_history sample_rows 300) sample_segments).
  - vm_compute. reflexivity.
  - reflexivity.
Defined.

(** ** Durations as text *)

(** Below [2 ^ 34] seconds the float of a duration has the whole seconds of
    the duration as its integer part: the microseconds that are left are
    too far from the next second to be rounded up to it. *)
Lemma whole_seconds (secs : N) (rest : Z) :
  (secs < 2 ^ 34)%N -> (0 <= rest < 1000000)%Z ->
  total_seconds_floor0 (Z.of_N secs * 1000000 + rest)%Z = secs.
Proof.
  intros Hs Hr.
  assert (Hs' : (0 <= Z.of_N secs < 2 ^ 34)%Z).
  { split; [lia|]. change (2 ^ 34)%Z with (Z.of_N (2 ^ 34)). lia. }
  set (s := Z.of_N secs) in *.
  destruct (Z.eq_dec (s * 1000000 + rest)%Z 0%Z) as [E0|E0].
  { rewrite E0. assert (Es : secs = 0%N) by (unfold s in *; lia). rewrite Es. reflexivity. }
  remember (s * 1000000 + rest)%Z as a eqn:Ea.
  assert (Ha : (0 < a)%Z) by lia.
  unfold total_seconds_floor0, total_seconds.
  destruct a as [|p|p]; [lia| |lia].
  remember (Z.pos p) as a eqn:Ep. clear p Ep.
  pose proof (true_divide_mantissa a 1000000 Ha ltac:(lia)) as Hm.
  unfold max_zero. destruct (Z.ltb_spec (true_divide a 1000000).1 0); [lia|]. clear Hm.
  unfold true_divide.
  change (Z.log2 1000000) with 19%Z.
  set (L := Z.log2 a).
  assert (HL : (2 ^ L <= a < 2 ^ (L + 1))%Z).
  { pose proof (Z.log2_spec a Ha) as HL. unfold L. replace (Z.succ (Z.log2 a)) with (Z.log2 a + 1)%Z in HL by lia. exact HL. }
  assert (HL0 : (0 <= L)%Z) by apply Z.log2_nonneg.
  assert (HL53 : (L <= 53)%Z).
  { destruct (Z.le_gt_cases L 53); [assumption|].
    assert (2 ^ 54 <= 2 ^ L)%Z by (apply Z.pow_le_mono_r; lia).
    assert (a < 2 ^ 34 * 1000000)%Z by lia.
    change (2 ^ 54)%Z with 18014398509481984%Z in *.
    change (2 ^ 34)%Z with 17179869184%Z in *. lia. }
  set (e0 := (L - 19 - 52)%Z).
  match goal with |- context [nearest_even (scaled_num a ?x) _] => set (e := x) end.
  assert (He : exists E, (19 <= E)%Z /\ e = (- E)%Z).
  { unfold e, scaled_num, scaled_den.
    destruct (Z.leb_spec 0 e0) as [H0|H0]; [unfold e0 in H0; lia|].
    destruct (Z.ltb_spec (a * 2 ^ (- e0)) (2 ^ 52 * 1000000)) as [Hlt|Hge].
    - exists (1 - e0)%Z. unfold e0. split; lia.
    - exists (- e0)%Z. split; [|lia].
      destruct (Z.le_gt_cases 19 (- e0)); [assumption|].
      assert (He0 : (- e0 = 18)%Z) by (unfold e0 in *; lia).
      rewrite He0 in Hge. change (2 ^ 18)%Z with 262144%Z in Hge.
      change (2 ^ 52)%Z with 4503599627370496%Z in Hge.
      change (2 ^ 34)%Z with 17179869184%Z in *. lia. }
  clearbody e. destruct He as (E & HE & ->).
  unfold scaled_num, scaled_den.
  destruct (Z.leb_spec 0 (- E)); [lia|].
  replace (- - E)%Z with E by lia.
  cbn [int_of_float]. destruct (Z.leb_spec 0 (- E)); [lia|].
  replace (- - E)%Z with E by lia.
  set (P := (2 ^ E)%Z).
  assert (HP : (524288 <= P)%Z).
  { change 524288%Z with (2 ^ 19)%Z. apply Z.pow_le_mono_r; lia. }
  assert (Hn : (0 <= a * P)%Z) by (apply Z.mul_nonneg_nonneg; lia).
  pose proof (nearest_even_bounds (a * P) 1000000 Hn ltac:(lia)) as [[Hlo Hhi] Hup].
  set (m := nearest_even (a * P) 1000000) in *.
  pose proof (Z.div_mod (a * P) 1000000 ltac:(lia)) as Hdm.
  pose proof (Z.mod_pos_bound (a * P) 1000000 ltac:(lia)) as Hmod.
  set (q := (a * P / 1000000)%Z) in *. set (r := ((a * P) mod 1000000)%Z) in *.
  assert (HaP : (a * P = s * 1000000 * P + rest * P)%Z) by (rewrite Ea; ring).
  assert (HsP : (0 <= s * P)%Z) by (apply Z.mul_nonneg_nonneg; lia).
  assert (HrP : (0 <= rest * P <= 999999 * P)%Z).
  { split; [apply Z.mul_nonneg_nonneg; lia|]. apply Z.mul_le_mono_nonneg_r; lia. }
  assert (Hq : (m / P = s)%Z).
  { symmetry. apply Z.div_unique with (r := (m - s * P)%Z); [|ring].
    left. replace (s * 1000000 * P)%Z with (1000000 * (s * P))%Z in HaP by ring.
    destruct (Z.eq_dec m (q + 1)%Z) as [Em|Em].
    - specialize (Hup Em). lia.
    - lia. }
  rewrite Z.quot_div_nonneg by lia. rewrite Hq. unfold s. apply N2Z.id.
Qed.

(** X22.  [_fmt_tdelta] writes a duration of [d] days, [h] hours, [m]
    minutes and any part of a minute, of less than [2 ^ 34] seconds in
    all, as the days, the hours and the minutes that are not zero, in this
    order, joined by spaces, and as zero minutes when all three are zero:
    seconds never show, and the text is never empty. *)
Theorem fmt_tdelta_writes_days_hours_minutes :
  forall (d h m secs : N) (us : Z),
    (h < 24)%N -> (m < 60)%N -> (secs < 60)%N -> (0 <= us < 1000000)%Z ->
    (((d * 24 + h) * 60 + m) * 60 + secs < 2 ^ 34)%N ->
    _fmt_tdelta (Z.of_N (((d * 24 + h) * 60 + m) * 60 + secs) * 1000000 + us)%Z
    = join SPACE
        ((if (d =? 0)%N then [] else [str_of_N d ++ U " д"])
         ++ (if (h =? 0)%N then [] else [str_of_N h ++ U " год"])
         ++ (if (m =? 0)%N && negb ((d =? 0)%N && (h =? 0)%N) then []
             else [str_of_N m ++ U " хв"]))
    /\ is_empty (_fmt_tdelta (Z.of_N (((d * 24 + h) * 60 + m) * 60 + secs) * 1000000 + us)%Z)
       = false.
Proof.
  intros d h m secs us Hh Hm Hs Hus Hbound.
  assert (E : _fmt_tdelta (Z.of_N (((d * 24 + h) * 60 + m) * 60 + secs) * 1000000 + us)%Z
              = join SPACE
                  ((if (d =? 0)%N then [] else [str_of_N d ++ U " д"])
                   ++ (if (h =? 0)%N then [] else [str_of_N h ++ U " год"])
                   ++ (if (m =? 0)%N && negb ((d =? 0)%N && (h =? 0)%N) then []
                       else [str_of_N m ++ U " хв"]))).
  { unfold _fmt_tdelta. rewrite whole_seconds by assumption.
    set (total := ((((d * 24 + h) * 60 + m) * 60 + secs))%N).
    assert (Ed : (total / 86400 = d)%N).
    { symmetry. apply N.div_unique with (r := ((h * 60 + m) * 60 + secs)%N); unfold total; lia. }
    assert (Er : (total mod 86400 = (h * 60 + m) * 60 + secs)%N).
    { symmetry. apply N.mod_unique with (q := d); unfold total; lia. }
    rewrite Ed, Er.
    assert (Eh : (((h * 60 + m) * 60 + secs) / 3600 = h)%N).
    { symmetry. apply N.div_unique with (r := (m * 60 + secs)%N); lia. }
    assert (Er2 : (((h * 60 + m) * 60 + secs) mod 3600 = m * 60 + secs)%N).
    { symmetry. apply N.mod_unique with (q := h); lia. }
    rewrite Eh, Er2.
    assert (Em : ((m * 60 + secs) / 60 = m)%N).
    { symmetry. apply N.div_unique with (r := secs); lia. }
    rewrite Em.
    destruct (d =? 0)%N, (h =? 0)%N, (m =? 0)%N; reflexivity. }
  split; [exact E|]. rewrite E.
  destruct (d =? 0)%N, (h =? 0)%N, (m =? 0)%N; simpl;
    repeat match goal with
           | |- context [str_of_N ?n ++ ?s] => destruct (str_of_N n)
           end; reflexivity.
Qed.

Lemma fmt_tdelta_writes_days_hours_minutes_witness :
  _fmt_tdelta (Z.of_N (((2 * 24 + 0) * 60 + 5) * 60 + 42) * 1000000 + 999999)%Z
  = join SPACE
      ((if (2 =? 0)%N then [] else [str_of_N 2 ++ U " д"])
       ++ (if (0 =? 0)%N then [] else [str_of_N 0 ++ U " год"])
       ++ (if (5 =? 0)%N && negb ((2 =? 0)%N && (0 =? 0)%N) then []
           else [str_of_N 5 ++ U " хв"]))
  /\ is_empty (_fmt_tdelta (Z.of_N (((2 * 24 + 0) * 60 + 5) * 60 + 42) * 1000000 + 999999)%Z)
     = false.
Proof.
  apply (fmt_tdelta_writes_days_hours_minutes 2 0 5 42 999999%Z); lia.
Defined.

(** From [2 ^ 34] seconds on the float of a duration can be the next whole
    second: 200000 days, 59 seconds and 999999 microseconds read as one
    minute more than the days. *)
Lemma rounded_up_above_the_bound :
  total_seconds_floor0 (Z.of_N (200000 * 86400 + 59) * 1000000 + 999999)%Z
  = (200000 * 86400 + 60)%N
  /\ _fmt_tdelta (Z.of_N (200000 * 86400 + 59) * 1000000 + 999999)%Z = U "200000 д 1 хв".
Proof. split; vm_compute; reflexivity. Qed.

(** ** Stage names and their cache *)

Section StageNameFacts.
Context {UT : Unicode}.

Lemma match_category_nonempty sid digits : match_category sid = Some digits -> sid <> [].
Proof. intros H ->. discriminate H. Qed.

Lemma stage_name_cached int stage_list cache sid digits names :
  match_category sid = Some digits -> cache !! int digits = Some names ->
  _stage_name_by_sid int stage_list cache (Some sid)
  = (Return (default sid (names !! sid)), cache).
Proof.
  intros Hm Hc. unfold _stage_name_by_sid.
  destruct sid as [|c sid]; [discriminate Hm|]. rewrite Hm, Hc. reflexivity.
Qed.

End StageNameFacts.

(** X23.  [_stage_name_by_sid] asks the CRM for the stages of a pipeline
    once: after a call that answered for a stage of a pipeline, the cache
    holds the names of that pipeline, it has lost nothing it held, and
    every later call for a stage of the same pipeline answers from the
    cache, whatever the CRM would say, and leaves the cache as it is. *)
Theorem stage_names_are_fetched_once_per_pipeline :
  forall (UT : Unicode) (int : str -> N) (stage_list : N -> outcome (list stage_item))
         (cache cache' : stage_cache) (sid digits name : str),
    match_category sid = Some digits ->
    _stage_name_by_sid int stage_list cache (Some sid) = (Return name, cache') ->
    cache ⊆ cache'
    /\ exists names,
         cache' !! int digits = Some names
         /\ name = default sid (names !! sid)
         /\ forall (stage_list' : N -> outcome (list stage_item)) (sid' digits' : str),
              match_category sid' = Some digits' -> int digits' = int digits ->
              _stage_name_by_sid int stage_list' cache' (Some sid')
              = (Return (default sid' (names !! sid')), cache').
Proof.
  intros UT int stage_list cache cache' sid digits name Hm H.
  unfold _stage_name_by_sid in H.
  destruct sid as [|c sid]; [discriminate Hm|]. rewrite Hm in H.
  destruct (cache !! int digits) as [names|] eqn:Hc.
  - injection H as <- <-. split; [reflexivity|]. exists names.
    split; [exact Hc|]. split; [reflexivity|].
    intros stage_list' sid' digits' Hm' Hi. eapply stage_name_cached; [exact Hm'|].
    rewrite Hi. exact Hc.
  - destruct (get_stage_map_for_category stage_list (int digits)) as [names|e];
      [|discriminate].
    injection H as <- <-. split; [apply insert_subseteq; exact Hc|]. exists names.
    split; [apply lookup_insert_eq|]. split; [reflexivity|].
    intros stage_list' sid' digits' Hm' Hi. eapply stage_name_cached; [exact Hm'|].
    rewrite Hi. apply lookup_insert_eq.
Qed.

Lemma stage_names_are_fetched_once_per_pipeline_witness :
  (∅ : stage_cache) ⊆ (@_stage_name_by_sid py_tables ascii_int sample_stages ∅ (Some (U "C1:WON"))).2
  /\ exists names,
       (@_stage_name_by_sid py_tables ascii_int sample_stages ∅ (Some (U "C1:WON"))).2
         !! ascii_int (U "1") = Some names
       /\ U "Успішна" = default (U "C1:WON") (names !! U "C1:WON")
       /\ forall (stage_list' : N -> outcome (list stage_item)) (sid' digits' : str),
            @match_category py_tables sid' = Some digits' ->
            ascii_int digits' = ascii_int (U "1") ->
            @_stage_name_by_sid py_tables ascii_int stage_list'
              (@_stage_name_by_sid py_tables ascii_int sample_stages ∅ (Some (U "C1:WON"))).2
              (Some sid')
            = (Return (default sid' (names !! sid')),
               (@_stage_name_by_sid py_tables ascii_int sample_stages ∅ (Some (U "C1:WON"))).2).
Proof.
  apply (stage_names_are_fetched_once_per_pipeline py_tables ascii_int sample_stages ∅
           (@_stage_name_by_sid py_tables ascii_int sample_stages ∅ (Some (U "C1:WON"))).2
           (U "C1:WON") (U "1") (U "Успішна")).
  - vm_compute. reflexivity.
  - vm_compute. reflexivity.
Defined.

Lemma stage_item_eta it : it = {| STATUS_ID := STATUS_ID it; ITEM_NAME := ITEM_NAME it |}.
Proof. destruct it. reflexivity. Qed.

Lemma stage_map_of_lookup items acc names k v :
  stage_map_of items acc = Return names ->
  names !! k = Some v
  <-> (exists before after,
         items = before ++ {| STATUS_ID := Some k; ITEM_NAME := Some v |} :: after
         /\ Forall (fun it => STATUS_ID it <> Some k) after)
      \/ (Forall (fun it => STATUS_ID it <> Some k) items /\ acc !! k = Some v).
Proof.
  revert acc. induction items as [|it rest IH]; intros acc H; simpl in H.
  - injection H as <-. split.
    + intros Hk. right. split; [constructor|exact Hk].
    + intros [(before & after & E & _)|[_ Hk]]; [destruct before; discriminate|exact Hk].
  - destruct (STATUS_ID it) as [k0|] eqn:Ek; [|discriminate].
    destruct (ITEM_NAME it) as [v0|] eqn:Ev; [|discriminate].
    rewrite (IH _ H). split.
    + intros [(before & after & -> & Ha)|[Hr Hk]].
      * left. exists (it :: before), after. auto.
      * rewrite lookup_insert in Hk. destruct (decide (k0 = k)) as [->|Hne].
        -- injection Hk as ->. left. exists [], rest. split; [|exact Hr].
           rewrite (stage_item_eta it), Ek, Ev. reflexivity.
        -- right. split; [|exact Hk]. constructor; [congruence|exact Hr].
    + intros [(before & after & E & Ha)|[Hr Hk]].
      * destruct before as [|x before]; simpl in E.
        -- injection E as -> ->. right. split; [exact Ha|].
           simpl in Ek, Ev. injection Ek as ->. injection Ev as ->. apply lookup_insert_eq.
        -- injection E as -> ->. left. exists before, after. auto.
      * apply Forall_cons in Hr. destruct Hr as [Hit Hr]. right. split; [exact Hr|].
        rewrite lookup_insert_ne; [exact Hk|]. congruence.
Qed.

(** X24.  The map [get_stage_map_for_category] builds gives a status id
    the name of the last stage the CRM lists with that id; it has no entry
    for an id the CRM does not list. *)
Theorem stage_map_gives_the_last_listed_name :
  forall (stage_list : N -> outcome (list stage_item)) (category_id : N)
         (names : gmap str str) (k v : str),
    get_stage_map_for_category stage_list category_id = Return names ->
    names !! k = Some v
    <-> exists before after,
          stage_list category_id
          = Return (before ++ {| STATUS_ID := Some k; ITEM_NAME := Some v |} :: after)
          /\ Forall (fun it => STATUS_ID it <> Some k) after.
Proof.
  intros stage_list cat names k v H. unfold get_stage_map_for_category in H.
  apply bind_Return in H. destruct H as (items & Hi & H).
  rewrite (stage_map_of_lookup items ∅ names k v H), Hi. split.
  - intros [(before & after & -> & Ha)|[_ Hk]]; [eauto|].
    rewrite lookup_empty in Hk. discriminate.
  - intros (before & after & E & Ha). left. exists before, after.
    split; [congruence|exact Ha].
Qed.

Lemma stage_map_gives_the_last_listed_name_witness :
  default ∅ (match get_stage_map_for_category sample_stages 1 with
             | Return names => Some names
             | Throw _ => None
             end) !! U "C1:NEW" = Some (U "Новий клієнт")
  <-> exists before after,
        sample_stages 1%N
        = Return (before
                  ++ {| STATUS_ID := Some (U "C1:NEW"); ITEM_NAME := Some (U "Новий клієнт") |}
                  :: after)
        /\ Forall (fun it => STATUS_ID it <> Some (U "C1:NEW")) after.
Proof.
  apply (stage_map_gives_the_last_listed_name sample_stages 1%N).
  vm_compute. reflexivity.
Defined.

(** ** The case of the letters of a name *)

Lemma cased_iff c :
  cased c = true
  <-> ((65 <= c <= 90) \/ (97 <= c <= 122) \/ (1024 <= c <= 1119) \/ c = 1168 \/ c = 1169)%N.
Proof.
  unfold cased.
  rewrite !orb_true_iff, !andb_true_iff, !N.leb_le, !N.eqb_eq. lia.
Qed.

Lemma plain_iff c :
  plain c = true <-> (c < 128 \/ (1024 <= c /\ c <= 1119) \/ c = 1168 \/ c = 1169)%N.
Proof.
  unfold plain.
  rewrite !orb_true_iff, !andb_true_iff, !N.leb_le, !N.eqb_eq, N.ltb_lt. lia.
Qed.

Lemma bool_eq_iff (a b : bool) : (a = true <-> b = true) -> a = b.
Proof. destruct a, b; intuition congruence. Qed.

Lemma case_map_upper : case_map plain_upper.
Proof.
  intros c Hc. apply plain_iff in Hc.
  pose proof (plain_upper_spec c) as H1.
  pose proof (plain_upper_spec (plain_upper c)) as H2.
  pose proof (plain_lower_spec c) as H3.
  pose proof (plain_lower_spec (plain_upper c)) as H4.
  split; [apply plain_iff; lia|]. split; [lia|]. split; [lia|]. split.
  - apply bool_eq_iff. rewrite !cased_iff. lia.
  - intros Hn. destruct (cased c) eqn:E; [discriminate|].
    assert (~ cased c = true) by congruence. rewrite cased_iff in H. lia.
Qed.

Lemma case_map_lower : case_map plain_lower.
Proof.
  intros c Hc. apply plain_iff in Hc.
  pose proof (plain_lower_spec c) as H1.
  pose proof (plain_lower_spec (plain_lower c)) as H2.
  pose proof (plain_upper_spec c) as H3.
  pose proof (plain_upper_spec (plain_lower c)) as H4.
  split; [apply plain_iff; lia|]. split; [lia|]. split; [lia|]. split.
  - apply bool_eq_iff. rewrite !cased_iff. lia.
  - intros Hn. destruct (cased c) eqn:E; [discriminate|].
    assert (~ cased c = true) by congruence. rewrite cased_iff in H. lia.
Qed.

Section MapThrough.
Variable f : char -> char.
Variable good : char -> Prop.

Lemma drop_while_map cls s :
  Forall good s -> (forall c, good c -> cls (f c) = cls c) ->
  drop_while cls (map f s) = map f (drop_while cls s).
Proof.
  intros Hs Hcls. induction Hs as [|c s Hc Hs IH]; simpl; [reflexivity|].
  rewrite (Hcls c Hc). destruct (cls c); [exact IH|reflexivity].
Qed.

Lemma strip_map cls s :
  Forall good s -> (forall c, good c -> cls (f c) = cls c) ->
  strip cls (map f s) = map f (strip cls s).
Proof.
  intros Hs Hcls. unfold strip, lstrip, rstrip.
  rewrite (drop_while_map cls s Hs Hcls), <- map_rev, drop_while_map, map_rev;
    [reflexivity| |exact Hcls].
  apply Forall_rev. apply drop_while_Forall. exact Hs.
Qed.

Lemma sub_runs_from_map cls rep b s :
  Forall good s -> (forall c, good c -> cls (f c) = cls c) -> map f rep = rep ->
  sub_runs_from cls rep b (map f s) = map f (sub_runs_from cls rep b s).
Proof.
  intros Hs Hcls Hrep. revert b. induction Hs as [|c s Hc Hs IH]; intros b; simpl; [reflexivity|].
  rewrite (Hcls c Hc). destruct (cls c).
  - rewrite IH, map_app. destruct b; simpl; [reflexivity|]. rewrite Hrep. reflexivity.
  - rewrite IH. reflexivity.
Qed.

Lemma split_where_map cls s :
  Forall good s -> (forall c, good c -> cls (f c) = cls c) ->
  split_where cls (map f s) = map (map f) (split_where cls s).
Proof.
  intros Hs Hcls. induction Hs as [|c s Hc Hs IH]; simpl; [reflexivity|].
  rewrite (Hcls c Hc), IH. destruct (cls c); [reflexivity|].
  destruct (split_where cls s); reflexivity.
Qed.

Lemma join_map sep (l : list str) : join (map f sep) (map (map f) l) = map f (join sep l).
Proof.
  induction l as [|x l IH]; [reflexivity|].
  destruct l as [|y l]; [reflexivity|].
  change (map (map f) (x :: y :: l)) with (map f x :: map (map f) (y :: l)).
  change (map (map f) (y :: l)) with (map f y :: map (map f) l) at 1.
  rewrite !join_cons2. change (map f y :: map (map f) l) with (map (map f) (y :: l)).
  rewrite IH, !map_app. reflexivity.
Qed.

Lemma filter_nonempty_map (l : list str) :
  List.filter (fun t => negb (is_empty t)) (map (map f) l)
  = map (map f) (List.filter (fun t => negb (is_empty t)) l).
Proof.
  induction l as [|x l IH]; [reflexivity|]. simpl.
  destruct x; simpl; rewrite IH; reflexivity.
Qed.

End MapThrough.

Section CaseMapFacts.
Context {UT : Unicode}.
Variable f : char -> char.
Hypothesis f_case : case_map f.

Let is_plain_char (c : char) : Prop := plain c = true.

Lemma case_map_plain s : is_plain s = true -> is_plain (map f s) = true.
Proof.
  rewrite !is_plain_Forall. intros H. apply Forall_map.
  eapply Forall_impl; [exact H|]. intros c Hc. apply (f_case c Hc).
Qed.

Lemma case_map_keeps_mark (x c : char) :
  cased x = false -> plain c = true -> chr_eqb (f c) x = chr_eqb c x.
Proof.
  intros Hx Hc. destruct (f_case c Hc) as (_ & _ & _ & Hcased & Hfix).
  destruct (cased c) eqn:E.
  - unfold chr_eqb. apply bool_eq_iff. rewrite !N.eqb_eq.
    split; intros Heq; exfalso; rewrite <- Heq in Hx; congruence.
  - rewrite (Hfix eq_refl). reflexivity.
Qed.

Lemma cased_not_space c : cased c = true -> plain_space c = false.
Proof.
  rewrite cased_iff. intros H. unfold plain_space.
  apply orb_false_iff. rewrite !andb_false_iff, !N.leb_gt. lia.
Qed.

Lemma cased_not_punct c : cased c = true -> is_punct c = false.
Proof.
  rewrite cased_iff. intros H. unfold is_punct, char_in, chr_eqb. simpl.
  rewrite !orb_false_iff, !N.eqb_neq. lia.
Qed.

Lemma case_map_space c : plain c = true -> isspace (f c) = isspace c.
Proof.
  intros Hc. destruct (f_case c Hc) as (Hp & _ & _ & Hcased & Hfix).
  rewrite (isspace_plain _ Hp), (isspace_plain _ Hc).
  destruct (cased c) eqn:E.
  - rewrite (cased_not_space c E), (cased_not_space (f c)) by congruence. reflexivity.
  - rewrite (Hfix eq_refl). reflexivity.
Qed.

Lemma case_map_punct c : plain c = true -> is_punct (f c) = is_punct c.
Proof.
  intros Hc. destruct (f_case c Hc) as (Hp & _ & _ & Hcased & Hfix).
  destruct (cased c) eqn:E.
  - rewrite (cased_not_punct c E), (cased_not_punct (f c)) by congruence. reflexivity.
  - rewrite (Hfix eq_refl). reflexivity.
Qed.

Lemma case_map_fixes (x : char) : plain x = true -> cased x = false -> f x = x.
Proof. intros Hp Hx. apply (f_case x Hp). exact Hx. Qed.

Lemma case_map_unify c : plain c = true -> unify_char (f c) = f (unify_char c).
Proof.
  intros Hc. destruct (f_case c Hc) as (Hp & _).
  rewrite (unify_char_eq _ Hp), (unify_char_eq _ Hc).
  change (f c =? 96)%N with (chr_eqb (f c) 96%N).
  rewrite (case_map_keeps_mark 96%N c eq_refl Hc). unfold chr_eqb.
  destruct (c =? 96)%N; [|reflexivity].
  symmetry. apply case_map_fixes; reflexivity.
Qed.

Lemma case_map_unify_apostrophes s :
  is_plain s = true -> _unify_apostrophes (map f s) = map f (_unify_apostrophes s).
Proof.
  intros H. rewrite !unify_map, !map_map. apply map_ext_in. intros c Hc.
  apply case_map_unify. apply is_plain_Forall in H. rewrite List.Forall_forall in H. auto.
Qed.

Lemma case_map_normalize_spaces s :
  is_plain s = true -> normalize_spaces (map f s) = map f (normalize_spaces s).
Proof.
  intros H. rewrite (normalize_spaces_plain s H).
  rewrite (normalize_spaces_plain _ (case_map_plain s H)).
  pose proof H as HF. apply is_plain_Forall in HF.
  unfold sub_runs. rewrite (sub_runs_from_map f is_plain_char isspace SPACE false s HF).
  - apply (strip_map f is_plain_char).
    + apply sub_runs_from_Forall; [repeat constructor|].
      eapply Forall_impl; [exact HF|]. auto.
    + intros c Hc. apply case_map_space. exact Hc.
  - intros c Hc. apply case_map_space. exact Hc.
  - simpl. rewrite case_map_fixes by reflexivity. reflexivity.
Qed.

End CaseMapFacts.

Section CaseMapNames.
Context {UT : Unicode}.
Variable f : char -> char.
Hypothesis f_case : case_map f.

Let is_plain_char (c : char) : Prop := plain c = true.

Lemma normalize_spaces_is_plain s : is_plain s = true -> is_plain (normalize_spaces s) = true.
Proof.
  intros H. apply is_plain_Forall.
  pose proof (normalize_spaces_keeps (fun c => plain c = true) s H eq_refl
                (proj1 (is_plain_Forall s) H)) as Hk.
  eapply Forall_impl; [exact Hk|]. intros c [Hc _]. exact Hc.
Qed.

Lemma sub_punct_is_plain s : is_plain s = true -> is_plain (sub_runs is_punct SPACE s) = true.
Proof.
  intros H. apply is_plain_Forall. apply sub_runs_from_Forall; [repeat constructor|].
  apply is_plain_Forall in H. eapply Forall_impl; [exact H|]. auto.
Qed.

Lemma case_map_sub_punct s :
  is_plain s = true ->
  sub_runs is_punct SPACE (map f s) = map f (sub_runs is_punct SPACE s).
Proof.
  intros H. apply is_plain_Forall in H. unfold sub_runs.
  apply (sub_runs_from_map f is_plain_char); [exact H| |].
  - intros c Hc. apply case_map_punct; assumption.
  - simpl. rewrite (case_map_fixes f f_case) by reflexivity. reflexivity.
Qed.

Lemma case_map_split_on (x : char) s :
  cased x = false -> is_plain s = true ->
  split_on x (map f s) = map (map f) (split_on x s).
Proof.
  intros Hx H. apply is_plain_Forall in H. unfold split_on.
  apply (split_where_map f is_plain_char); [exact H|].
  intros c Hc. apply case_map_keeps_mark; assumption.
Qed.

Lemma case_map_fio_tokens raw :
  is_plain raw = true -> fio_tokens (map f raw) = map (map f) (fio_tokens raw).
Proof.
  intros H. unfold fio_tokens.
  pose proof (tidied_plain raw H) as H2.
  pose proof (sub_punct_is_plain _ H2) as H3.
  pose proof (normalize_spaces_is_plain _ H3) as H4.
  assert (H1 : is_plain (_unify_apostrophes raw) = true)
    by (apply unified_plain, unify_unified; exact H).
  rewrite (case_map_unify_apostrophes f f_case raw H).
  rewrite (case_map_normalize_spaces f f_case _ H1).
  rewrite (case_map_sub_punct _ H2).
  rewrite (case_map_normalize_spaces f f_case _ H3).
  change (ch " ") with 32%N.
  rewrite (case_map_split_on 32%N _ eq_refl H4).
  apply filter_nonempty_map.
Qed.

Lemma case_map_title_part x : is_plain x = true -> title_part (map f x) = title_part x.
Proof.
  intros H. rewrite (title_part_plain x H).
  rewrite (title_part_plain _ (case_map_plain f f_case x H)).
  destruct x as [|c r]; [reflexivity|]. simpl.
  apply is_plain_cons in H. destruct H as [Hc Hr].
  destruct (f_case c Hc) as (_ & -> & _). f_equal.
  rewrite map_map. apply map_ext_in. intros y Hy.
  apply is_plain_Forall in Hr. rewrite List.Forall_forall in Hr.
  apply (f_case y (Hr y Hy)).
Qed.

Lemma pieces_plain (x : char) s p :
  is_plain s = true -> In p (split_on x s) -> is_plain p = true.
Proof.
  intros H Hp. apply is_plain_Forall in H.
  pose proof (split_where_Forall (fun c => chr_eqb c x) _ s H) as Hs.
  rewrite List.Forall_forall in Hs. apply is_plain_Forall. exact (Hs p Hp).
Qed.

Lemma case_map_title_apostrophe p :
  is_plain p = true -> title_apostrophe_pieces (map f p) = title_apostrophe_pieces p.
Proof.
  intros H. unfold title_apostrophe_pieces, map_pieces.
  rewrite (case_map_split_on 39%N p eq_refl H), map_map. f_equal.
  apply map_ext_in. intros x Hx. apply case_map_title_part.
  eapply pieces_plain; eauto.
Qed.

Lemma case_map_title_hyphen t :
  is_plain t = true -> title_hyphen_pieces (map f t) = title_hyphen_pieces t.
Proof.
  intros H. unfold title_hyphen_pieces, map_pieces.
  rewrite (case_map_split_on 45%N t eq_refl H), map_map. f_equal.
  apply map_ext_in. intros p Hp. apply case_map_title_apostrophe.
  eapply pieces_plain; eauto.
Qed.

Lemma case_map_wordchar c : wordchar c = true -> wordchar (f c) = true.
Proof.
  intros H. pose proof (wordchar_plain c H) as Hp.
  destruct (f_case c Hp) as (Hfp & _ & _ & Hcased & Hfix).
  destruct (cased c) eqn:E; [|rewrite (Hfix eq_refl); exact H].
  assert (Ef : cased (f c) = true) by congruence.
  unfold wordchar. rewrite Hfp, (cased_not_space _ Ef), (cased_not_punct _ Ef).
  rewrite (case_map_keeps_mark f f_case 96%N c eq_refl Hp).
  unfold wordchar in H. rewrite Hp in H. simpl in H.
  apply andb_true_iff in H. destruct H as [H _].
  apply andb_true_iff in H. destruct H as [H _]. rewrite H. reflexivity.
Qed.

Lemma case_map_smart_title t : wordchars t -> _smart_title (map f t) = _smart_title t.
Proof.
  intros H. rewrite (smart_title_word t H). rewrite smart_title_word.
  - apply case_map_title_hyphen. apply words_plain. exact H.
  - apply Forall_map. eapply Forall_impl; [exact H|]. intros c. apply case_map_wordchar.
Qed.

Lemma case_map_normalize_fio_string raw :
  is_plain raw = true -> normalize_fio_string (map f raw) = normalize_fio_string raw.
Proof.
  intros H. rewrite !normalize_fio_string_tokens, (case_map_fio_tokens raw H), map_map.
  f_equal. apply map_ext_in. intros t Ht. apply case_map_smart_title.
  pose proof (fio_tokens_words raw H) as Hw. rewrite List.Forall_forall in Hw.
  apply (Hw t Ht).
Qed.

End CaseMapNames.

(** X25.  On a name over ASCII and basic Cyrillic the normalized name does
    not depend on the case the name is written in: the name in capitals and
    the name in small letters are normalized to what the name itself is
    normalized to. *)
Theorem normalized_name_ignores_case :
  forall (UT : Unicode) (raw : str),
    is_plain raw = true ->
    normalize_fio_string (upper raw) = normalize_fio_string raw
    /\ normalize_fio_string (lower raw) = normalize_fio_string raw.
Proof.
  intros UT raw H. rewrite (upper_plain raw H), (lower_plain raw H). split.
  - apply (case_map_normalize_fio_string plain_upper case_map_upper raw H).
  - apply (case_map_normalize_fio_string plain_lower case_map_lower raw H).
Qed.

Lemma normalized_name_ignores_case_witness :
  @normalize_fio_string py_tables (@upper py_tables (U "Нечуй-Левицький іван  o'neil"))
  = @normalize_fio_string py_tables (U "Нечуй-Левицький іван  o'neil")
  /\ @normalize_fio_string py_tables (@lower py_tables (U "Нечуй-Левицький іван  o'neil"))
     = @normalize_fio_string py_tables (U "Нечуй-Левицький іван  o'neil").
Proof.
  apply (normalized_name_ignores_case py_tables (U "Нечуй-Левицький іван  o'neil")).
  vm_compute. reflexivity.
Defined.

(** ** Routing a message to the check *)

Lemma drop_while_all {A} (p : A -> bool) (x y : list A) :
  forallb p x = true -> drop_while p (x ++ y) = drop_while p y.
Proof.
  induction x as [|a x IH]; simpl; [reflexivity|].
  intros H. apply andb_true_iff in H. destruct H as [-> H]. auto.
Qed.

Lemma take_while_all {A} (p : A -> bool) (x : list A) :
  forallb p x = true -> take_while p x = x /\ drop_while p x = [].
Proof.
  induction x as [|a x IH]; simpl; [auto|].
  intros H. apply andb_true_iff in H. destruct H as [-> H].
  destruct (IH H) as [-> ->]. auto.
Qed.

Lemma match_word_app word letters rest :
  Forall2 (fun set c => char_in set c = true) word letters ->
  match_word word (letters ++ rest) = Some rest.
Proof.
  induction 1 as [|set c word letters Hc _ IH]; simpl.
  - destruct rest; reflexivity.
  - rewrite Hc. exact IH.
Qed.

Lemma forallb_rev {A} (p : A -> bool) (l : list A) :
  forallb p l = true -> forallb p (rev l) = true.
Proof.
  rewrite !forallb_forall. intros H x Hx. apply H. apply in_rev. exact Hx.
Qed.

Lemma forallb_Forall {A} (p : A -> bool) (l : list A) :
  forallb p l = true <-> Forall (fun x => p x = true) l.
Proof. rewrite forallb_forall, List.Forall_forall. reflexivity. Qed.

Section RoutingFacts.
Context {UT : Unicode}.

Lemma strip_trailing arg post :
  (forall c, head arg = Some c -> isspace c = false) ->
  (forall c, last arg = Some c -> isspace c = false) ->
  forallb isspace post = true ->
  strip isspace (arg ++ post) = arg.
Proof.
  intros Hh Hl Hp. unfold strip, lstrip, rstrip.
  destruct arg as [|a arg].
  - simpl. destruct (take_while_all isspace post Hp) as [_ ->]. reflexivity.
  - simpl. rewrite (Hh a eq_refl).
    change (a :: arg ++ post) with ((a :: arg) ++ post).
    rewrite rev_app_distr, drop_while_all by (apply forallb_rev; exact Hp).
    rewrite drop_while_head; [apply rev_involutive|].
    intros c. rewrite head_rev. apply Hl.
Qed.

Lemma isspace_LF : isspace LF = true.
Proof. rewrite isspace_plain by reflexivity. reflexivity. Qed.

(** The text of a message that asks for a check: white space, an optional
    slash, the word in any case, white space, and the argument followed by
    white space. *)
Lemma check_rx_group pre slash letters ws arg post :
  forallb isspace pre = true ->
  slash = [] \/ slash = [SLASH] ->
  Forall2 (fun set c => char_in set c = true) CHECK_WORD letters ->
  is_empty ws = false -> forallb isspace ws = true ->
  is_empty arg = false -> forallb not_lf arg = true ->
  (forall c, head arg = Some c -> isspace c = false) ->
  forallb not_lf post = true ->
  CHECK_RX (pre ++ slash ++ letters ++ ws ++ arg ++ post) = Some (arg ++ post).
Proof.
  intros Hpre Hslash Hword Hws1 Hws Harg1 Harg Hhead Hpost.
  unfold CHECK_RX. rewrite drop_while_all by exact Hpre.
  destruct letters as [|l0 letters]; [inversion Hword|].
  assert (Hl0 : l0 = 99%N \/ l0 = 67%N).
  { inversion Hword as [|? ? ? ? H0 _]; subst. unfold char_in, chr_eqb in H0. simpl in H0.
    rewrite !orb_true_iff, !N.eqb_eq in H0. lia. }
  assert (Hsp0 : isspace l0 = false).
  { destruct Hl0 as [-> | ->]; rewrite isspace_plain by reflexivity; reflexivity. }
  assert (Hstart : (match drop_while isspace (slash ++ (l0 :: letters) ++ ws ++ arg ++ post) with
                    | c :: s' => if chr_eqb c SLASH then s'
                                 else drop_while isspace (slash ++ (l0 :: letters) ++ ws ++ arg ++ post)
                    | [] => drop_while isspace (slash ++ (l0 :: letters) ++ ws ++ arg ++ post)
                    end) = (l0 :: letters) ++ ws ++ arg ++ post).
  { destruct Hslash as [-> | ->]; simpl.
    - rewrite Hsp0. destruct Hl0 as [-> | ->]; reflexivity.
    - assert (Hs : isspace SLASH = false) by (rewrite isspace_plain by reflexivity; reflexivity).
      rewrite Hs. reflexivity. }
  rewrite Hstart. rewrite (match_word_app _ _ _ Hword). simpl mbind. unfold option_bind.
  assert (Hw : take_while isspace (ws ++ arg ++ post) = ws
               /\ drop_while isspace (ws ++ arg ++ post) = arg ++ post).
  { apply take_while_stop; [apply forallb_Forall; exact Hws|].
    intros c Hc. destruct arg as [|a arg]; [discriminate|]. apply Hhead. exact Hc. }
  destruct Hw as [-> _].
  destruct ws as [|w ws]; [discriminate|]. cbn [length match_argument].
  change (drop (S (length ws)) ((w :: ws) ++ arg ++ post))
    with (drop (length (w :: ws)) ((w :: ws) ++ arg ++ post)).
  rewrite drop_app_length.
  assert (Hall : forallb not_lf (arg ++ post) = true).
  { rewrite forallb_app, Harg, Hpost. reflexivity. }
  destruct (take_while_all not_lf _ Hall) as [-> ->].
  destruct arg; [discriminate|]. reflexivity.
Qed.

End RoutingFacts.

(** X26.  [on_text] calls [handle_check] for a text made of white space,
    an optional slash, the word check in any case, white space, and an
    argument on one line with white space after it; it hands over the
    argument without the white space around it. *)
Theorem on_text_hands_over_the_trimmed_argument :
  forall (UT : Unicode) (pre slash letters ws arg post : str),
    forallb isspace pre = true ->
    slash = [] \/ slash = [SLASH] ->
    Forall2 (fun set c => char_in set c = true) CHECK_WORD letters ->
    is_empty ws = false -> forallb isspace ws = true ->
    is_empty arg = false -> forallb not_lf arg = true ->
    (forall c, head arg = Some c -> isspace c = false) ->
    (forall c, last arg = Some c -> isspace c = false) ->
    forallb isspace post = true -> forallb not_lf post = true ->
    on_text (Some (pre ++ slash ++ letters ++ ws ++ arg ++ post)) = Some (HandleCheck arg).
Proof.
  intros UT pre slash letters ws arg post Hpre Hslash Hword Hws1 Hws Harg1 Harg Hh Hl Hp1 Hp2.
  unfold on_text. simpl default.
  rewrite (check_rx_group pre slash letters ws arg post) by assumption.
  simpl. rewrite strip_trailing by assumption. reflexivity.
Qed.

Lemma on_text_hands_over_the_trimmed_argument_witness :
  @on_text py_tables
    (Some (U "  " ++ U "/" ++ U "Check" ++ U "   " ++ U "+380 67 123-45-67" ++ U "  "))
  = Some (HandleCheck (U "+380 67 123-45-67")).
Proof.
  apply (on_text_hands_over_the_trimmed_argument py_tables
           (U "  ") (U "/") (U "Check") (U "   ") (U "+380 67 123-45-67") (U "  "));
    try (vm_compute; reflexivity).
  - right. reflexivity.
  - repeat constructor.
  - intros c [= <-]. reflexivity.
  - intros c [= <-]. reflexivity.
Defined.

Section CommandArguments.
Context {UT : Unicode}.

Lemma argument_chars t c : argument t -> In c t -> isspace c = false.
Proof.
  intros [_ H] Hc. rewrite forallb_forall in H. specialize (H c Hc).
  apply negb_true_iff in H. exact H.
Qed.

Lemma joined_arguments_head t ts c :
  argument t -> head (join SPACE (t :: ts)) = Some c -> isspace c = false.
Proof.
  intros Ht Hc. destruct t as [|x t]; [destruct Ht; discriminate|].
  assert (c = x) by (destruct ts; simpl in Hc; congruence). subst c.
  apply (argument_chars (x :: t)); [exact Ht|left; reflexivity].
Qed.

Lemma joined_arguments_nonempty t ts : argument t -> is_empty (join SPACE (t :: ts)) = false.
Proof. intros [Hn _]. destruct t; [discriminate|]. destruct ts; reflexivity. Qed.

Lemma joined_arguments_last ts c :
  Forall argument ts -> last (join SPACE ts) = Some c -> isspace c = false.
Proof.
  induction ts as [|t ts IH]; intros H; [discriminate|].
  apply Forall_cons in H. destruct H as [Ht Hts].
  destruct ts as [|t' ts].
  - simpl. intros Hc. apply (argument_chars t); [exact Ht|].
    apply list_elem_of_In. apply last_Some_elem_of. exact Hc.
  - rewrite join_cons2.
    pose proof Hts as Hts'. apply Forall_cons in Hts'. destruct Hts' as [Ht' _].
    pose proof (joined_arguments_nonempty t' ts Ht') as Hj.
    destruct (join SPACE (t' :: ts)) as [|c0 J] eqn:EJ; [discriminate|].
    change (SPACE ++ c0 :: J) with (32%N :: c0 :: J).
    rewrite last_app_cons, last_cons_cons. intros Hc. apply IH; [exact Hts|exact Hc].
Qed.

Lemma joined_arguments_one_line ts :
  Forall argument ts -> forallb not_lf (join SPACE ts) = true.
Proof.
  intros H. apply forallb_Forall. apply join_Forall; [repeat constructor|].
  eapply Forall_impl; [exact H|]. intros t Ht. apply List.Forall_forall. intros c Hc.
  pose proof (argument_chars t c Ht Hc) as Hs. unfold not_lf.
  destruct (chr_eqb c LF) eqn:E; [|reflexivity].
  apply chr_eqb_eq in E. subst c. rewrite isspace_LF in Hs. discriminate.
Qed.

End CommandArguments.

(** X27.  The command and the plain text lead to the same call: for
    arguments without white space, [on_text] on the word check, a space and
    the arguments joined by spaces does what [on_check_cmd] does on the
    arguments, and this is a call of [handle_check] with the joined
    arguments. *)
Theorem text_and_command_make_the_same_call :
  forall (UT : Unicode) (arg : str) (args : list str),
    Forall argument (arg :: args) ->
    on_text (Some (U "check " ++ join SPACE (arg :: args))) = Some (on_check_cmd (arg :: args))
    /\ on_check_cmd (arg :: args) = HandleCheck (join SPACE (arg :: args)).
Proof.
  intros UT arg args H.
  pose proof H as H'. apply Forall_cons in H'. destruct H' as [Harg _].
  pose proof (joined_arguments_nonempty arg args Harg) as Hne.
  assert (Hcmd : on_check_cmd (arg :: args) = HandleCheck (join SPACE (arg :: args))).
  { unfold on_check_cmd. rewrite Hne. reflexivity. }
  split; [|exact Hcmd]. rewrite Hcmd.
  pose proof (check_rx_group [] [] (U "check") (U " ") (join SPACE (arg :: args)) []) as Hrx.
  rewrite app_nil_r in Hrx.
  assert (Hg : CHECK_RX (U "check " ++ join SPACE (arg :: args))
               = Some (join SPACE (arg :: args))).
  { apply Hrx.
    - reflexivity.
    - left. reflexivity.
    - repeat constructor.
    - reflexivity.
    - change (forallb isspace (U " ")) with (isspace 32%N && true).
      rewrite isspace_space. reflexivity.
    - exact Hne.
    - apply joined_arguments_one_line. exact H.
    - intros c. apply joined_arguments_head. exact Harg.
    - reflexivity. }
  change (on_text (Some (U "check " ++ join SPACE (arg :: args))))
    with (group ← CHECK_RX (U "check " ++ join SPACE (arg :: args));
          Some (HandleCheck (strip isspace group))).
  rewrite Hg.
  change (Some (HandleCheck (strip isspace (join SPACE (arg :: args))))
          = Some (HandleCheck (join SPACE (arg :: args)))).
  f_equal. f_equal. apply strip_ends_outside. split; intros c.
  - apply joined_arguments_head. exact Harg.
  - apply joined_arguments_last. exact H.
Qed.

Lemma text_and_command_make_the_same_call_witness :
  @on_text py_tables (Some (U "check " ++ join SPACE [U "+380"; U "67"; U "1234567"]))
  = Some (@on_check_cmd [U "+380"; U "67"; U "1234567"])
  /\ on_check_cmd [U "+380"; U "67"; U "1234567"]
     = HandleCheck (join SPACE [U "+380"; U "67"; U "1234567"]).
Proof.
  apply (text_and_command_make_the_same_call py_tables (U "+380") [U "67"; U "1234567"]).
  repeat constructor.
Defined.

(** ** When no folder is found *)

Lemma filter_nil_iff {A} (p : A -> bool) (l : list A) :
  List.filter p l = [] <-> forall x, In x l -> p x = false.
Proof.
  split.
  - intros H x Hx. destruct (p x) eqn:E; [|reflexivity].
    assert (Hin : In x (List.filter p l)) by (apply filter_In; auto).
    rewrite H in Hin. destruct Hin.
  - intros H. induction l as [|x l IH]; [reflexivity|]. simpl.
    rewrite (H x) by (left; reflexivity). apply IH. intros y Hy. apply H. right. exact Hy.
Qed.

Section NothingFound.
Context {UT : Unicode}.

Lemma find_folder_by_phone_none drive parent phone expected pages :
  drive (phone_query parent (normalize_phone_e164_ua phone)) 100%nat = Ok pages ->
  find_folder_by_phone drive parent phone expected = Ok None
  <-> forall g, In g (seen_values (concat pages)) ->
                phone_confirmed (normalize_phone_e164_ua phone) g = false.
Proof.
  intros Hp. unfold find_folder_by_phone, all_pages. rewrite Hp. simpl.
  rewrite <- filter_nil_iff.
  destruct (List.filter _ (seen_values (concat pages))) as [|m ms] eqn:E.
  - split; reflexivity.
  - split; [|discriminate]. intros H. exfalso.
    destruct ((length (m :: ms) =? 1)%nat || _).
    + assert (H' : head (sort_by_reverse Nat.leb by_name_length (m :: ms)) = None) by congruence.
      apply sort_by_reverse_head_None in H'. discriminate.
    + assert (H' : head (sort_by_reverse pair_leb
                           (overlap_key (tokens (default [] expected))) (m :: ms)) = None)
        by congruence.
      apply sort_by_reverse_head_None in H'. discriminate.
Qed.

End NothingFound.

(** X28.  When the store answers the three queries,
    [find_client_folder_strict] finds no folder exactly when the first
    page of the exact query is empty, no folder listed for the fuzzy query
    is kept, and none of the folders listed for the phone query, each id
    once, passes the phone test. *)
Theorem no_folder_is_found_iff_no_tier_has_a_candidate :
  forall (UT : Unicode) (drive : Drive) (root_folder_id expected_title phone_e164 : str)
         (page : list file) (fuzzy_pages phone_pages : list (list file)),
    first_page drive (exact_query root_folder_id expected_title) 1 = Ok page ->
    drive (fuzzy_query root_folder_id (normalize_folder_title_for_compare expected_title))
      100%nat = Ok fuzzy_pages ->
    drive (phone_query root_folder_id (normalize_phone_e164_ua phone_e164)) 100%nat
    = Ok phone_pages ->
    find_client_folder_strict drive root_folder_id expected_title phone_e164 = Ok None
    <-> page = []
        /\ (forall g, In g (concat fuzzy_pages) ->
              ~ fuzzy_kept (slice_last 9 (keep isdecimal phone_e164)) g)
        /\ (forall g, In g (seen_values (concat phone_pages)) ->
              phone_confirmed (normalize_phone_e164_ua phone_e164) g = false).
Proof.
  intros UT drive root title phone page p2 p3 H1 H2 H3.
  unfold find_client_folder_strict, find_folder_by_exact_name_under. rewrite H1. simpl.
  destruct page as [|f page]; simpl.
  - pose proof (find_folder_by_fuzzy_none drive root
                  (normalize_folder_title_for_compare title)
                  (slice_last 9 (keep isdecimal phone)) p2 H2) as Hf.
    pose proof (find_folder_by_phone_none drive root phone (Some title) p3 H3) as Hp.
    destruct (find_folder_by_fuzzy drive root (normalize_folder_title_for_compare title)
                (slice_last 9 (keep isdecimal phone))) as [[g|]|e] eqn:E; simpl.
    + split; [discriminate|]. intros (_ & Hk & _). apply Hf in Hk. discriminate.
    + rewrite Hp. split; [intros H; split; [reflexivity|split; [apply Hf; reflexivity|exact H]]|].
      intros (_ & _ & H). exact H.
    + split; [discriminate|]. intros (_ & Hk & _). apply Hf in Hk. discriminate.
  - split; [discriminate|]. intros [H _]. discriminate.
Qed.

Lemma no_folder_is_found_iff_no_tier_has_a_candidate_witness :
  @find_client_folder_strict py_tables two_page_drive (U "root")
    (U "Koval Oksana, +380501112233") (U "+380501112233") = Ok None
  <-> [] = ([] : list file)
      /\ (forall g, In g (concat [[folder_melnyk]; [folder_petrenko; folder_melnyk]]) ->
            ~ @fuzzy_kept py_tables
                (slice_last 9 (keep (@isdecimal py_tables) (U "+380501112233"))) g)
      /\ (forall g, In g (seen_values (concat [[folder_melnyk]; [folder_petrenko; folder_melnyk]])) ->
            @phone_confirmed py_tables (@normalize_phone_e164_ua py_tables (U "+380501112233")) g
            = false).
Proof.
  apply (no_folder_is_found_iff_no_tier_has_a_candidate py_tables two_page_drive (U "root")
           (U "Koval Oksana, +380501112233") (U "+380501112233")
           [] [[folder_melnyk]; [folder_petrenko; folder_melnyk]]
           [[folder_melnyk]; [folder_petrenko; folder_melnyk]]);
    vm_compute; reflexivity.
Defined.

(** ** Titles with many digits *)

Section Chunks.
Context (cls : char -> bool) (lo hi : nat).

Lemma findall_runs_full cur chunk s :
  forallb cls chunk = true -> chunk <> [] -> (length cur + length chunk = hi)%nat ->
  findall_runs cls lo hi cur (chunk ++ s) = (cur ++ chunk) :: findall_runs cls lo hi [] s.
Proof.
  revert cur. induction chunk as [|c chunk IH]; intros cur Hc Hn Hl; [contradiction|].
  simpl in *. apply andb_true_iff in Hc. destruct Hc as [-> Hc].
  rewrite length_app. simpl length.
  destruct chunk as [|d chunk].
  - simpl in *. replace (length cur + 1 =? hi)%nat with true
      by (symmetry; apply Nat.eqb_eq; lia). reflexivity.
  - replace (length cur + 1 =? hi)%nat with false
      by (symmetry; apply Nat.eqb_neq; simpl in Hl; lia).
    rewrite IH; [|exact Hc|discriminate|rewrite length_app; simpl in *; lia].
    rewrite <- app_assoc. reflexivity.
Qed.

Lemma findall_runs_short cur s :
  forallb cls s = true -> (length cur + length s < lo)%nat -> (lo <= hi)%nat ->
  findall_runs cls lo hi cur s = [].
Proof.
  revert cur. induction s as [|c s IH]; intros cur Hs Hl Hh; simpl in *.
  - replace (lo <=? length cur)%nat with false by (symmetry; apply Nat.leb_gt; lia).
    reflexivity.
  - apply andb_true_iff in Hs. destruct Hs as [-> Hs].
    replace (length (cur ++ [c]) =? hi)%nat with false
      by (symmetry; apply Nat.eqb_neq; rewrite length_app; simpl; lia).
    apply IH; [exact Hs|rewrite length_app; simpl; lia|exact Hh].
Qed.

Lemma findall_runs_chunks chunks rest :
  (0 < lo)%nat -> (lo <= hi)%nat ->
  Forall (fun c => length c = hi /\ forallb cls c = true) chunks ->
  forallb cls rest = true -> (length rest < hi)%nat ->
  findall_runs cls lo hi [] (concat chunks ++ rest)
  = chunks ++ (if (lo <=? length rest)%nat then [rest] else []).
Proof.
  intros H0 Hh Hc Hr Hl. induction Hc as [|c chunks [Hlen Hcls] _ IH]; simpl.
  - destruct (Nat.leb_spec lo (length rest)).
    + apply findall_runs_one; simpl; try lia. exact Hr.
    + apply findall_runs_short; simpl; try lia. exact Hr.
  - rewrite <- app_assoc, findall_runs_full; [|exact Hcls| |simpl; lia].
    + rewrite IH. reflexivity.
    + intros ->. simpl in Hlen. lia.
Qed.

End Chunks.

(** X29.  [_extract_e164_from_title] cuts the digits of the title, taken
    together, into runs of twelve from the left and reads the last run of
    nine digits or more: the digits left after the runs of twelve when
    there are nine or more of them, the last run of twelve otherwise.  Two
    phones in one title are read as one row of digits. *)
Theorem extract_reads_the_last_run_of_the_digits :
  forall (UT : Unicode) (title : str) (chunks : list str) (rest : str),
    keep isdecimal title = concat chunks ++ rest ->
    Forall (fun c => length c = 12%nat) chunks ->
    (length rest < 12)%nat ->
    _extract_e164_from_title title
    = if (9 <=? length rest)%nat then Some (normalize_phone_e164_ua rest)
      else match last chunks with
           | Some chunk => Some (normalize_phone_e164_ua chunk)
           | None => None
           end.
Proof.
  intros UT title chunks rest E Hc Hl.
  pose proof (keep_forallb isdecimal title) as Hd. rewrite E in Hd.
  rewrite forallb_app in Hd. apply andb_true_iff in Hd. destruct Hd as [Hd1 Hd2].
  assert (Hchunks : Forall (fun c => length c = 12%nat /\ forallb isdecimal c = true) chunks).
  { rewrite List.Forall_forall in *. intros c Hin. split; [auto|].
    rewrite forallb_forall in *. intros x Hx. apply Hd1. apply in_concat. eauto. }
  unfold _extract_e164_from_title. rewrite E.
  rewrite (findall_runs_chunks isdecimal 9 12 chunks rest) by (try lia; assumption).
  destruct (Nat.leb_spec 9 (length rest)) as [H9|H9].
  - replace (length (concat chunks ++ rest) <? 9)%nat with false
      by (symmetry; apply Nat.ltb_ge; rewrite length_app; lia).
    rewrite last_snoc. reflexivity.
  - rewrite app_nil_r.
    assert (Hcases : chunks = [] \/ exists chunks' c, chunks = chunks' ++ [c]).
    { destruct chunks as [|c0 cs]; [left; reflexivity|right].
      destruct (@exists_last _ (c0 :: cs)) as (chunks' & c & Heq); [discriminate|].
      exists chunks', c. exact Heq. }
    destruct Hcases as [->|(chunks' & c & ->)].
    + simpl in *. replace (length rest <? 9)%nat with true
        by (symmetry; apply Nat.ltb_lt; lia). reflexivity.
    + rewrite last_snoc.
      replace (length (concat (chunks' ++ [c]) ++ rest) <? 9)%nat with false; [reflexivity|].
      symmetry. apply Nat.ltb_ge. rewrite length_app, concat_app, length_app. simpl.
      apply Forall_app in Hc. destruct Hc as [_ Hc]. apply Forall_cons in Hc.
      destruct Hc as [Hc _]. rewrite length_app, Hc. lia.
Qed.

Lemma extract_reads_the_last_run_of_the_digits_witness :
  @_extract_e164_from_title py_tables (U "Melnyk 067 123 45 67, 050 111 22 33")
  = if (9 <=? length (U "01112233"))%nat
    then Some (@normalize_phone_e164_ua py_tables (U "01112233"))
    else match last [U "067123456705"] with
         | Some chunk => Some (@normalize_phone_e164_ua py_tables chunk)
         | None => None
         end.
Proof.
  apply (extract_reads_the_last_run_of_the_digits py_tables
           (U "Melnyk 067 123 45 67, 050 111 22 33") [U "067123456705"] (U "01112233")).
  - vm_compute. reflexivity.
  - repeat constructor.
  - vm_compute. lia.
Defined.

(** ** Names in several parts *)

Lemma split_where_at cls a (c : char) b :
  cls c = true -> split_where cls (a ++ c :: b) = split_where cls a ++ split_where cls b.
Proof.
  intros Hc. induction a as [|x a IH]; simpl.
  - rewrite Hc. reflexivity.
  - rewrite IH. destruct (cls x); [reflexivity|].
    pose proof (split_where_nonnil cls a) as Hn.
    destruct (split_where cls a); [contradiction|reflexivity].
Qed.

Lemma map_pieces_at sep (g : str -> str) a b :
  map_pieces sep g (a ++ sep :: b) = map_pieces sep g a ++ sep :: map_pieces sep g b.
Proof.
  unfold map_pieces, split_on. rewrite split_where_at by apply chr_eqb_refl.
  rewrite map_app. apply join_app.
  - pose proof (split_where_nonnil (fun c => chr_eqb c sep) a).
    destruct (split_where _ a); [contradiction|discriminate].
  - pose proof (split_where_nonnil (fun c => chr_eqb c sep) b).
    destruct (split_where _ b); [contradiction|discriminate].
Qed.

Lemma map_pieces_whole sep (g : str -> str) s :
  Forall (fun c => c <> sep) s -> map_pieces sep g s = g s.
Proof.
  intros H. unfold map_pieces, split_on. rewrite split_where_none; [reflexivity|].
  eapply Forall_impl; [exact H|]. intros c Hc. simpl.
  destruct (chr_eqb c sep) eqn:E; [apply chr_eqb_eq in E; contradiction|reflexivity].
Qed.

Section NameParts.
Context {UT : Unicode}.

Lemma smart_title_of_clean t :
  forallb (fun c => negb (isspace c)) t = true -> _smart_title t = title_hyphen_pieces t.
Proof.
  intros H. rewrite smart_title_unfold. rewrite strip_clean.
  - destruct t; reflexivity.
  - apply List.Forall_forall. rewrite forallb_forall in H. intros c Hc.
    apply negb_true_iff. auto.
Qed.

Lemma clean_app a (c : char) b :
  isspace c = false ->
  forallb (fun c => negb (isspace c)) a = true ->
  forallb (fun c => negb (isspace c)) b = true ->
  forallb (fun c => negb (isspace c)) (a ++ c :: b) = true.
Proof. intros Hc Ha Hb. rewrite forallb_app. simpl. rewrite Ha, Hb, Hc. reflexivity. Qed.

End NameParts.

(** X30.  [_smart_title] treats the parts of a name on their own: for
    parts without white space, the title form of two parts joined by a
    hyphen is the title forms of the parts joined by a hyphen, and the same
    holds for an apostrophe between two parts without hyphen.  A part
    without hyphen or apostrophe gets its first character in upper case and
    the rest in lower case. *)
Theorem smart_title_treats_the_parts_of_a_name_on_their_own :
  forall (UT : Unicode) (a b : str),
    forallb (fun c => negb (isspace c)) a = true ->
    forallb (fun c => negb (isspace c)) b = true ->
    _smart_title (a ++ U "-" ++ b) = _smart_title a ++ U "-" ++ _smart_title b
    /\ (forallb (fun c => negb (chr_eqb c (ch "-"))) (a ++ b) = true ->
        _smart_title (a ++ U "'" ++ b) = _smart_title a ++ U "'" ++ _smart_title b)
    /\ (forallb (fun c => negb (chr_eqb c (ch "-")) && negb (chr_eqb c (ch "'"))) a = true ->
        _smart_title a = title_part a).
Proof.
  intros UT a b Ha Hb.
  assert (H45 : isspace 45%N = false) by (rewrite isspace_plain by reflexivity; reflexivity).
  assert (H39 : isspace 39%N = false) by (rewrite isspace_plain by reflexivity; reflexivity).
  change (U "-" ++ b) with (45%N :: b). change (U "'" ++ b) with (39%N :: b).
  change (U "-" ++ _smart_title b) with (45%N :: _smart_title b).
  change (U "'" ++ _smart_title b) with (39%N :: _smart_title b).
  change (ch "-") with 45%N. change (ch "'") with 39%N.
  rewrite (smart_title_of_clean a Ha), (smart_title_of_clean b Hb).
  unfold title_hyphen_pieces. split; [|split].
  - etransitivity; [apply smart_title_of_clean, clean_app; assumption|].
    apply (map_pieces_at 45%N).
  - intros Hn. rewrite forallb_app in Hn. apply andb_true_iff in Hn. destruct Hn as [Hna Hnb].
    assert (Hfa : Forall (fun c => c <> 45%N) a).
    { apply List.Forall_forall. rewrite forallb_forall in Hna. intros c Hc ->.
      specialize (Hna _ Hc). discriminate Hna. }
    assert (Hfb : Forall (fun c => c <> 45%N) b).
    { apply List.Forall_forall. rewrite forallb_forall in Hnb. intros c Hc ->.
      specialize (Hnb _ Hc). discriminate Hnb. }
    etransitivity; [apply smart_title_of_clean, clean_app; assumption|].
    unfold title_hyphen_pieces.
    rewrite (map_pieces_whole 45%N _ a Hfa), (map_pieces_whole 45%N _ b Hfb).
    etransitivity; [apply (map_pieces_whole 45%N)|apply (map_pieces_at 39%N)].
    apply Forall_app. split; [exact Hfa|]. constructor; [discriminate|exact Hfb].
  - intros Hn.
    assert (Hf45 : Forall (fun c => c <> 45%N) a).
    { apply List.Forall_forall. rewrite forallb_forall in Hn. intros c Hc ->.
      specialize (Hn _ Hc). discriminate Hn. }
    assert (Hf39 : Forall (fun c => c <> 39%N) a).
    { apply List.Forall_forall. rewrite forallb_forall in Hn. intros c Hc ->.
      specialize (Hn _ Hc). discriminate Hn. }
    rewrite (map_pieces_whole 45%N _ a Hf45). unfold title_apostrophe_pieces.
    apply map_pieces_whole. exact Hf39.
Qed.

Lemma smart_title_treats_the_parts_of_a_name_on_their_own_witness :
  @_smart_title py_tables (U "нечуй" ++ U "-" ++ U "ЛЕВИЦЬКИЙ")
  = @_smart_title py_tables (U "нечуй") ++ U "-" ++ @_smart_title py_tables (U "ЛЕВИЦЬКИЙ")
  /\ (forallb (fun c => negb (chr_eqb c (ch "-"))) (U "нечуй" ++ U "ЛЕВИЦЬКИЙ") = true ->
      @_smart_title py_tables (U "нечуй" ++ U "'" ++ U "ЛЕВИЦЬКИЙ")
      = @_smart_title py_tables (U "нечуй") ++ U "'" ++ @_smart_title py_tables (U "ЛЕВИЦЬКИЙ"))
  /\ (forallb (fun c => negb (chr_eqb c (ch "-")) && negb (chr_eqb c (ch "'"))) (U "нечуй") = true ->
      @_smart_title py_tables (U "нечуй") = @title_part py_tables (U "нечуй")).
Proof.
  apply (smart_title_treats_the_parts_of_a_name_on_their_own py_tables
           (U "нечуй") (U "ЛЕВИЦЬКИЙ")); vm_compute; reflexivity.
Defined.

(** * The normalizers on the wider alphabet *)

(** ** Accents that stay apart *)

Lemma plain_lower_upper c : plain_lower (plain_upper c) = plain_lower c.
Proof.
  pose proof (plain_upper_spec c). pose proof (plain_lower_spec c).
  pose proof (plain_lower_spec (plain_upper c)). lia.
Qed.

Lemma plain_upper_acute c : plain_upper c = ACUTE <-> c = ACUTE.
Proof. unfold ACUTE. pose proof (plain_upper_spec c). lia. Qed.

Lemma plain_lower_acute c : plain_lower c = ACUTE <-> c = ACUTE.
Proof. unfold ACUTE. pose proof (plain_lower_spec c). lia. Qed.

Lemma chr_eqb_iff a b c d : (a = b <-> c = d) -> chr_eqb a b = chr_eqb c d.
Proof. intros H. apply bool_eq_iff. unfold chr_eqb. rewrite !N.eqb_eq. exact H. Qed.

Lemma case_of_role c c' :
  case_of c c' -> composes c' = composes c /\ chr_eqb c' ACUTE = chr_eqb c ACUTE.
Proof.
  intros [->|[->| ->]]; [auto| |]; unfold composes.
  - rewrite plain_lower_upper. split; [reflexivity|]. apply chr_eqb_iff, plain_upper_acute.
  - rewrite plain_lower_idem. split; [reflexivity|]. apply chr_eqb_iff, plain_lower_acute.
Qed.

Lemma case_of_accented c c' : case_of c c' -> accented c = true -> accented c' = true.
Proof.
  intros H Hc. unfold accented in *. apply orb_true_iff in Hc. destruct Hc as [Hc|Hc].
  - assert (Hp : plain c' = true); [|rewrite Hp; reflexivity].
    destruct H as [->|[->| ->]]; [exact Hc| |].
    + apply (case_map_upper c Hc).
    + apply (case_map_lower c Hc).
  - apply chr_eqb_eq in Hc. subst c.
    destruct H as [->|[->| ->]]; reflexivity.
Qed.

Lemma apart_cons2 c d s :
  accents_apart (c :: d :: s)
  = negb (composes c && chr_eqb d ACUTE) && accents_apart (d :: s).
Proof. reflexivity. Qed.

Lemma apart_one c : accents_apart [c] = true.
Proof. simpl. rewrite andb_false_r. reflexivity. Qed.

Lemma apart_app_inv a b :
  accents_apart (a ++ b) = true -> accents_apart a = true /\ accents_apart b = true.
Proof.
  induction a as [|c a IH]; [auto|].
  destruct a as [|d a].
  - simpl. intros H. apply andb_true_iff in H. destruct H as [_ H].
    rewrite andb_false_r. auto.
  - change ((c :: d :: a) ++ b) with (c :: d :: (a ++ b)).
    rewrite !apart_cons2. intros H. apply andb_true_iff in H. destruct H as [H1 H2].
    destruct (IH H2) as [Ha Hb]. rewrite H1, Ha. auto.
Qed.

Lemma apart_app_sep a x b :
  composes x = false -> chr_eqb x ACUTE = false ->
  accents_apart (a ++ x :: b) = accents_apart a && accents_apart b.
Proof.
  intros Hx Hx'.
  assert (Hb : accents_apart (x :: b) = accents_apart b) by (simpl; rewrite Hx; reflexivity).
  induction a as [|c a IH]; [exact Hb|].
  destruct a as [|d a].
  - change ([c] ++ x :: b) with (c :: x :: b).
    rewrite apart_cons2, Hx', andb_false_r, apart_one, Hb. reflexivity.
  - change ((c :: d :: a) ++ x :: b) with (c :: d :: (a ++ x :: b)).
    rewrite !apart_cons2. change (d :: a ++ x :: b) with ((d :: a) ++ x :: b).
    rewrite IH. rewrite andb_assoc. reflexivity.
Qed.

Lemma apart_Forall2 s s' :
  Forall2 (fun c c' => composes c' = composes c /\ chr_eqb c' ACUTE = chr_eqb c ACUTE) s s' ->
  accents_apart s' = accents_apart s.
Proof.
  induction 1 as [|c c' s s' [Hc _] Hs IH]; [reflexivity|].
  destruct Hs as [|d d' s s' [_ Hd] Hs].
  - simpl. rewrite !andb_false_r. reflexivity.
  - rewrite !apart_cons2, IH, Hc, Hd. reflexivity.
Qed.

Lemma apart_map f s :
  (forall c, composes (f c) = composes c /\ chr_eqb (f c) ACUTE = chr_eqb c ACUTE) ->
  accents_apart (map f s) = accents_apart s.
Proof.
  intros H. apply apart_Forall2. induction s; constructor; auto.
Qed.

Lemma apart_without s : Forall (fun c => c <> ACUTE) s -> accents_apart s = true.
Proof.
  induction s as [|c s IH]; [reflexivity|]. intros H.
  apply Forall_cons in H. destruct H as [_ H]. specialize (IH H).
  destruct s as [|d s]; [apply apart_one|].
  rewrite apart_cons2, IH. apply Forall_cons in H. destruct H as [Hd _].
  destruct (chr_eqb d ACUTE) eqn:E; [apply chr_eqb_eq in E; contradiction|].
  rewrite andb_false_r. reflexivity.
Qed.

Lemma apart_sub_runs_from cls s :
  (forall p, accents_apart (p :: s) = true ->
             accents_apart (p :: sub_runs_from cls SPACE false s) = true)
  /\ (accents_apart s = true ->
      accents_apart (32%N :: sub_runs_from cls SPACE true s) = true).
Proof.
  induction s as [|c s [IH1 IH2]]; [split; intros; apply apart_one|].
  assert (Htail : forall p, accents_apart (p :: c :: s) = true -> accents_apart s = true).
  { intros p H. change (p :: c :: s) with ([p; c] ++ s) in H.
    apply apart_app_inv in H. tauto. }
  split.
  - intros p H. cbn [sub_runs_from]. destruct (cls c).
    + change (SPACE ++ ?x) with (32%N :: x). rewrite apart_cons2.
      change (chr_eqb 32%N ACUTE) with false. rewrite andb_false_r.
      apply IH2. exact (Htail p H).
    + rewrite apart_cons2 in *. apply andb_true_iff in H. destruct H as [H1 H2].
      rewrite H1. apply IH1. exact H2.
  - intros H. cbn [sub_runs_from]. destruct (cls c).
    + apply IH2. change (c :: s) with ([c] ++ s) in H. apply apart_app_inv in H. tauto.
    + rewrite apart_cons2. change (composes 32%N) with false. apply IH1. exact H.
Qed.

Lemma apart_sub_runs cls s :
  accents_apart s = true -> accents_apart (sub_runs cls SPACE s) = true.
Proof.
  intros H. destruct (apart_sub_runs_from cls s) as [H1 _].
  assert (H32 : accents_apart (32%N :: s) = true).
  { destruct s as [|c s]; [reflexivity|]. rewrite apart_cons2. exact H. }
  specialize (H1 32%N H32). change (32%N :: ?x) with ([32%N] ++ x) in H1.
  apply apart_app_inv in H1. tauto.
Qed.

Lemma apart_strip cls s : accents_apart s = true -> accents_apart (strip cls s) = true.
Proof.
  intros H. unfold strip, lstrip.
  destruct (drop_while_suffix cls s) as [pre E]. rewrite E in H.
  apply apart_app_inv in H. destruct H as [_ H].
  destruct (rstrip_prefix cls (drop_while cls s)) as [t Et]. rewrite Et in H.
  apply apart_app_inv in H. tauto.
Qed.

Lemma apart_join (sep : char) ps :
  composes sep = false -> chr_eqb sep ACUTE = false ->
  accents_apart (join [sep] ps) = forallb accents_apart ps.
Proof.
  intros H1 H2. induction ps as [|p ps IH]; [reflexivity|].
  destruct ps as [|q ps]; [simpl; rewrite andb_true_r; reflexivity|].
  rewrite join_cons2. change ([sep] ++ ?x) with (sep :: x).
  rewrite apart_app_sep by assumption. rewrite IH. reflexivity.
Qed.

Lemma apart_pieces (sep : char) s :
  composes sep = false -> chr_eqb sep ACUTE = false ->
  accents_apart s = true -> Forall (fun p => accents_apart p = true) (split_on sep s).
Proof.
  intros H1 H2 H. rewrite <- (join_split sep s), (apart_join sep _ H1 H2) in H.
  rewrite forallb_forall in H. apply List.Forall_forall. exact H.
Qed.

Lemma join_Forall2 (R : char -> char -> Prop) (sep : char) ps qs :
  R sep sep -> Forall2 (Forall2 R) ps qs -> Forall2 R (join [sep] ps) (join [sep] qs).
Proof.
  intros Hsep H. induction H as [|p q ps qs Hp Hps IH]; [constructor|].
  destruct Hps as [|p' q' ps qs Hp' Hps]; [exact Hp|].
  rewrite !join_cons2. apply Forall2_app; [exact Hp|].
  constructor; [exact Hsep|exact IH].
Qed.

Lemma map_pieces_Forall2 (R : char -> char -> Prop) (P : char -> Prop) sep f s :
  R sep sep -> (forall x, Forall P x -> Forall2 R x (f x)) ->
  Forall P s -> Forall2 R s (map_pieces sep f s).
Proof.
  intros Hsep Hf Hs. rewrite <- (join_split sep s) at 1. unfold map_pieces.
  apply join_Forall2; [exact Hsep|].
  pose proof (split_where_Forall (fun c => chr_eqb c sep) P s Hs) as Hp.
  fold (split_on sep s) in Hp.
  induction Hp as [|x l Hx Hl IH]; constructor; auto.
Qed.

(** ** The name normalizer on accented text *)

Lemma unify_char_spec c : unify_char c = if char_in APOSTROPHES c then 39%N else c.
Proof.
  unfold unify_char, APOSTROPHES, char_in, chr_eqb. simpl.
  repeat match goal with
         | |- context [(c =? ?b)%N] => destruct (N.eqb_spec c b); [subst c; reflexivity|]
         end.
  reflexivity.
Qed.

Lemma unify_char_role c :
  composes (unify_char c) = composes c
  /\ chr_eqb (unify_char c) ACUTE = chr_eqb c ACUTE.
Proof.
  rewrite unify_char_spec. unfold APOSTROPHES, char_in, chr_eqb. simpl.
  repeat match goal with
         | |- context [(c =? ?b)%N] =>
             destruct (N.eqb_spec c b); [subst c; split; reflexivity|]
         end.
  simpl. split; [reflexivity|]. apply N.eqb_neq. assumption.
Qed.

Lemma accented_cases c : accented c = true -> plain c = true \/ c = ACUTE.
Proof. unfold accented, chr_eqb. rewrite orb_true_iff, N.eqb_eq. tauto. Qed.

Lemma accented_spaced s :
  Forall (fun c => accented c = true) s -> forallb spaced s = true.
Proof.
  intros H. apply forallb_forall. rewrite List.Forall_forall in H. intros c Hc.
  unfold spaced. rewrite (H c Hc). reflexivity.
Qed.

Lemma accented_forallb s :
  Forall (fun c => accented c = true) s -> forallb accented s = true.
Proof. intros H. apply forallb_forall. rewrite List.Forall_forall in H. exact H. Qed.

Lemma accented_no_nbsp s :
  Forall (fun c => accented c = true) s -> Forall (fun c => c <> NBSP) s.
Proof.
  intros H. eapply Forall_impl; [exact H|]. intros c Hc ->. discriminate Hc.
Qed.

Lemma well_accented_plain s : is_plain s = true -> well_accented s.
Proof.
  intros H. apply is_plain_Forall in H. split.
  - eapply Forall_impl; [exact H|]. intros c Hc. unfold accented. rewrite Hc. reflexivity.
  - apply apart_without. eapply Forall_impl; [exact H|]. intros c Hc ->. discriminate Hc.
Qed.

Section AccentedStages.
Context {UT : Unicode} {UM : UnicodeMarks UT}.

Lemma isspace_accented c : accented c = true -> isspace c = plain_space c.
Proof.
  intros H. apply accented_cases in H. destruct H as [H| ->].
  - apply isspace_plain. exact H.
  - apply isspace_acute.
Qed.

Lemma normalize_spaces_accented s :
  well_accented s -> normalize_spaces s = strip isspace (sub_runs isspace SPACE s).
Proof.
  intros [Ha Hp]. unfold normalize_spaces.
  rewrite nfkc_spaced by (try apply accented_spaced; assumption).
  rewrite !(replace1_absent NBSP SPACE s) by (apply accented_no_nbsp; exact Ha). reflexivity.
Qed.

Lemma sub_runs_well cls s : well_accented s -> well_accented (sub_runs cls SPACE s).
Proof.
  intros [Ha Hp]. split; [|apply apart_sub_runs; exact Hp].
  apply sub_runs_from_Forall; [repeat constructor|].
  eapply Forall_impl; [exact Ha|]. auto.
Qed.

Lemma strip_well cls s : well_accented s -> well_accented (strip cls s).
Proof.
  intros [Ha Hp]. split; [apply strip_Forall; exact Ha|apply apart_strip; exact Hp].
Qed.

Lemma normalize_spaces_well s : well_accented s -> well_accented (normalize_spaces s).
Proof.
  intros H. rewrite (normalize_spaces_accented s H). apply strip_well, sub_runs_well, H.
Qed.

Lemma unify_well s : well_accented s -> well_accented (_unify_apostrophes s).
Proof.
  intros [Ha Hp]. rewrite unify_map. split.
  - apply Forall_map. eapply Forall_impl; [exact Ha|]. intros c Hc. simpl.
    apply accented_cases in Hc. destruct Hc as [Hc| ->]; [|reflexivity].
    unfold accented. destruct (unify_char_plain c Hc) as [-> _]. reflexivity.
  - rewrite (apart_map unify_char s unify_char_role). exact Hp.
Qed.

(** The string the name normalizer splits into tokens. *)
Lemma tidied_well s :
  well_accented s ->
  well_accented (normalize_spaces (sub_runs is_punct SPACE
                                     (normalize_spaces (_unify_apostrophes s)))).
Proof.
  intros H. apply normalize_spaces_well, sub_runs_well, normalize_spaces_well, unify_well, H.
Qed.

Lemma pieces_well (sep : char) s :
  composes sep = false -> chr_eqb sep ACUTE = false ->
  well_accented s -> Forall well_accented (split_on sep s).
Proof.
  intros H1 H2 [Ha Hp].
  pose proof (split_where_Forall (fun c => chr_eqb c sep) _ s Ha) as Hf.
  pose proof (apart_pieces sep s H1 H2 Hp) as Hq. fold (split_on sep s) in Hf.
  rewrite List.Forall_forall in *. intros p Hin. split; auto.
Qed.

Lemma fio_tokens_well s : well_accented s -> Forall well_accented (fio_tokens s).
Proof.
  intros H. unfold fio_tokens. pose proof (tidied_well s H) as H4.
  change (ch " ") with 32%N.
  pose proof (pieces_well 32%N _ eq_refl eq_refl H4) as Hp.
  rewrite List.Forall_forall in *. intros t Ht. apply filter_In in Ht. apply Hp, Ht.
Qed.

Lemma title_part_accented x :
  Forall (fun c => accented c = true) x ->
  title_part x = match x with [] => [] | c :: r => plain_upper c :: map plain_lower r end.
Proof.
  destruct x as [|c r]; [reflexivity|]. intros H.
  apply Forall_cons in H. destruct H as [Hc Hr].
  unfold title_part. simpl.
  rewrite upper_accented by (simpl; rewrite Hc; reflexivity).
  unfold slice_from. simpl. rewrite lower_accented by (apply accented_forallb; exact Hr).
  reflexivity.
Qed.

Lemma title_part_case x :
  Forall (fun c => accented c = true) x -> Forall2 case_of x (title_part x).
Proof.
  intros H. rewrite (title_part_accented x H). destruct x as [|c r]; [constructor|].
  constructor; [right; left; reflexivity|].
  clear. induction r; constructor; [right; right; reflexivity|assumption].
Qed.

Lemma title_hyphen_case t :
  Forall (fun c => accented c = true) t -> Forall2 case_of t (title_hyphen_pieces t).
Proof.
  intros H. unfold title_hyphen_pieces.
  apply (map_pieces_Forall2 case_of (fun c => accented c = true)); [left; reflexivity| |exact H].
  intros p Hp. unfold title_apostrophe_pieces.
  apply (map_pieces_Forall2 case_of (fun c => accented c = true)); [left; reflexivity| |exact Hp].
  intros x Hx. apply title_part_case. exact Hx.
Qed.

Lemma smart_title_case t :
  Forall (fun c => accented c = true) t ->
  Forall2 case_of (strip isspace t) (_smart_title t).
Proof.
  intros H. rewrite smart_title_unfold.
  destruct (strip isspace t) as [|c r] eqn:E; [constructor|].
  cbn [is_empty]. rewrite <- E. apply title_hyphen_case. apply strip_Forall. exact H.
Qed.

Lemma case_of_well s s' : Forall2 case_of s s' -> well_accented s -> well_accented s'.
Proof.
  intros H [Ha Hp]. split.
  - clear Hp. induction H as [|c c' s s' Hc Hs IH]; [constructor|].
    apply Forall_cons in Ha. destruct Ha as [Hca Hsa].
    constructor; [eapply case_of_accented; eauto|auto].
  - rewrite <- Hp. apply apart_Forall2.
    eapply Forall2_impl; [exact H|]. intros c c' Hc. apply case_of_role. exact Hc.
Qed.

Lemma smart_title_well t : well_accented t -> well_accented (_smart_title t).
Proof.
  intros H. apply (case_of_well (strip isspace t)).
  - apply smart_title_case, H.
  - apply strip_well, H.
Qed.

Lemma normalize_fio_string_well s : well_accented s -> well_accented (normalize_fio_string s).
Proof.
  intros H. rewrite normalize_fio_string_tokens.
  pose proof (fio_tokens_well s H) as Ht.
  assert (Hw : Forall well_accented (map _smart_title (fio_tokens s))).
  { apply Forall_map. eapply Forall_impl; [exact Ht|]. intros t. apply smart_title_well. }
  split.
  - apply join_Forall; [repeat constructor|].
    eapply Forall_impl; [exact Hw|]. intros t [Ha _]. exact Ha.
  - change SPACE with [32%N]. rewrite (apart_join 32%N) by reflexivity.
    apply forallb_forall. rewrite List.Forall_forall in Hw. intros t Hin. apply (Hw t Hin).
Qed.

End AccentedStages.

(** ** An accent written as a plain character *)

(** The name normalizer does to an accent what it does to a plain character
    that is no letter, no white space and no separator.  Writing the accent
    as such a character takes a name into the plain alphabet, and the
    normalizer commutes with it. *)
Section Relabel.
Context {UT : Unicode} {UM : UnicodeMarks UT}.
Variable u : char.
Hypothesis u_inert : u = 95%N \/ u = 35%N.

Let is_accented (c : char) : Prop := accented c = true.

Lemma relabel_other c : c <> ACUTE -> relabel u c = c.
Proof.
  intros H. unfold relabel. destruct (chr_eqb c ACUTE) eqn:E; [|reflexivity].
  apply chr_eqb_eq in E. contradiction.
Qed.

Lemma relabel_acute : relabel u ACUTE = u.
Proof. reflexivity. Qed.

Lemma relabel_cases c : (c = ACUTE /\ relabel u c = u) \/ (c <> ACUTE /\ relabel u c = c).
Proof.
  destruct (N.eq_dec c ACUTE) as [->|H]; [left; auto|right; split; [exact H|]].
  apply relabel_other. exact H.
Qed.

Lemma relabel_plain c : accented c = true -> plain (relabel u c) = true.
Proof.
  intros H. apply accented_cases in H. destruct H as [H| ->].
  - rewrite relabel_other; [exact H|]. intros ->. discriminate H.
  - rewrite relabel_acute. destruct u_inert as [-> | ->]; reflexivity.
Qed.

Lemma relabel_is_plain s :
  Forall (fun c => accented c = true) s -> is_plain (map (relabel u) s) = true.
Proof.
  intros H. apply is_plain_Forall, Forall_map. eapply Forall_impl; [exact H|].
  intros c Hc. apply relabel_plain. exact Hc.
Qed.

Lemma relabel_space c : accented c = true -> isspace (relabel u c) = isspace c.
Proof.
  intros H. destruct (relabel_cases c) as [[-> ->]|[_ ->]]; [|reflexivity].
  rewrite isspace_acute. rewrite isspace_plain by (destruct u_inert as [-> | ->]; reflexivity).
  destruct u_inert as [-> | ->]; reflexivity.
Qed.

Lemma relabel_decimal c : accented c = true -> isdecimal (relabel u c) = isdecimal c.
Proof.
  intros H. destruct (relabel_cases c) as [[-> ->]|[_ ->]]; [|reflexivity].
  rewrite isdecimal_acute.
  rewrite isdecimal_plain by (destruct u_inert as [-> | ->]; reflexivity).
  destruct u_inert as [-> | ->]; reflexivity.
Qed.

Lemma relabel_punct c : is_punct (relabel u c) = is_punct c.
Proof.
  destruct (relabel_cases c) as [[-> ->]|[_ ->]]; [|reflexivity].
  destruct u_inert as [-> | ->]; reflexivity.
Qed.

Lemma relabel_mark (x c : char) :
  x <> ACUTE -> x <> 95%N -> x <> 35%N -> chr_eqb (relabel u c) x = chr_eqb c x.
Proof.
  intros H1 H2 H3. destruct (relabel_cases c) as [[-> ->]|[_ ->]]; [|reflexivity].
  apply chr_eqb_iff. destruct u_inert as [-> | ->]; split; intros E; congruence.
Qed.

Lemma relabel_upper c : plain_upper (relabel u c) = relabel u (plain_upper c).
Proof.
  destruct (relabel_cases c) as [[-> ->]|[H ->]].
  - destruct u_inert as [-> | ->]; reflexivity.
  - rewrite relabel_other; [reflexivity|]. rewrite plain_upper_acute. exact H.
Qed.

Lemma relabel_lower c : plain_lower (relabel u c) = relabel u (plain_lower c).
Proof.
  destruct (relabel_cases c) as [[-> ->]|[H ->]].
  - destruct u_inert as [-> | ->]; reflexivity.
  - rewrite relabel_other; [reflexivity|]. rewrite plain_lower_acute. exact H.
Qed.

Lemma relabel_unify_char c : unify_char (relabel u c) = relabel u (unify_char c).
Proof.
  destruct (relabel_cases c) as [[-> ->]|[H ->]].
  - destruct u_inert as [-> | ->]; reflexivity.
  - rewrite relabel_other; [reflexivity|].
    destruct (unify_char_role c) as [_ Hr]. intros E. rewrite E in Hr.
    symmetry in Hr. apply chr_eqb_eq in Hr. contradiction.
Qed.

Lemma relabel_unify s :
  _unify_apostrophes (map (relabel u) s) = map (relabel u) (_unify_apostrophes s).
Proof. rewrite !unify_map, !map_map. apply map_ext. intros c. apply relabel_unify_char. Qed.

Lemma relabel_space_word : map (relabel u) SPACE = SPACE.
Proof. reflexivity. Qed.

Lemma relabel_normalize_spaces s :
  well_accented s -> normalize_spaces (map (relabel u) s) = map (relabel u) (normalize_spaces s).
Proof.
  intros H. pose proof H as [Ha Hp].
  rewrite (normalize_spaces_accented s H).
  rewrite (normalize_spaces_plain _ (relabel_is_plain s Ha)).
  unfold sub_runs.
  rewrite (sub_runs_from_map (relabel u) is_accented isspace SPACE false s Ha);
    [|intros c Hc; apply relabel_space; exact Hc|exact relabel_space_word].
  apply (strip_map (relabel u) is_accented).
  - apply sub_runs_from_Forall; [repeat constructor|].
    eapply Forall_impl; [exact Ha|]. auto.
  - intros c Hc. apply relabel_space. exact Hc.
Qed.

Lemma relabel_sub_punct s :
  sub_runs is_punct SPACE (map (relabel u) s) = map (relabel u) (sub_runs is_punct SPACE s).
Proof.
  unfold sub_runs. apply (sub_runs_from_map (relabel u) (fun _ => True)).
  - apply List.Forall_forall. auto.
  - intros c _. apply relabel_punct.
  - exact relabel_space_word.
Qed.

Lemma relabel_split_on (x : char) s :
  x <> ACUTE -> x <> 95%N -> x <> 35%N ->
  split_on x (map (relabel u) s) = map (map (relabel u)) (split_on x s).
Proof.
  intros H1 H2 H3. unfold split_on. apply (split_where_map (relabel u) (fun _ => True)).
  - apply List.Forall_forall. auto.
  - intros c _. apply relabel_mark; assumption.
Qed.

Lemma relabel_fio_tokens s :
  well_accented s -> fio_tokens (map (relabel u) s) = map (map (relabel u)) (fio_tokens s).
Proof.
  intros H. unfold fio_tokens.
  pose proof (unify_well s H) as H1.
  pose proof (normalize_spaces_well _ H1) as H2.
  pose proof (sub_runs_well is_punct _ H2) as H3.
  rewrite relabel_unify, (relabel_normalize_spaces _ H1), relabel_sub_punct,
    (relabel_normalize_spaces _ H3).
  change (ch " ") with 32%N. rewrite relabel_split_on by discriminate.
  apply filter_nonempty_map.
Qed.

Lemma relabel_title_part x :
  Forall (fun c => accented c = true) x ->
  title_part (map (relabel u) x) = map (relabel u) (title_part x).
Proof.
  intros H. rewrite (title_part_accented x H).
  rewrite (title_part_plain _ (relabel_is_plain x H)).
  destruct x as [|c r]; [reflexivity|]. simpl. rewrite relabel_upper. f_equal.
  rewrite !map_map. apply map_ext. intros y. apply relabel_lower.
Qed.

Lemma relabel_map_pieces (sep : char) (f : str -> str) s :
  sep <> ACUTE -> sep <> 95%N -> sep <> 35%N ->
  Forall (fun c => accented c = true) s ->
  (forall x, Forall (fun c => accented c = true) x ->
             f (map (relabel u) x) = map (relabel u) (f x)) ->
  map_pieces sep f (map (relabel u) s) = map (relabel u) (map_pieces sep f s).
Proof.
  intros H1 H2 H3 Hs Hf. unfold map_pieces.
  rewrite relabel_split_on by assumption.
  rewrite <- (join_map (relabel u) [sep]).
  replace (map (relabel u) [sep]) with [sep]
    by (simpl; rewrite relabel_other by exact H1; reflexivity).
  f_equal. rewrite !map_map. apply map_ext_in. intros x Hx. apply Hf.
  pose proof (split_where_Forall (fun c => chr_eqb c sep) _ s Hs) as Hp.
  rewrite List.Forall_forall in Hp. apply Hp. exact Hx.
Qed.

Lemma relabel_title_hyphen t :
  Forall (fun c => accented c = true) t ->
  title_hyphen_pieces (map (relabel u) t) = map (relabel u) (title_hyphen_pieces t).
Proof.
  intros H. unfold title_hyphen_pieces.
  apply relabel_map_pieces; [discriminate|discriminate|discriminate|exact H|].
  intros p Hp. unfold title_apostrophe_pieces.
  apply relabel_map_pieces; [discriminate|discriminate|discriminate|exact Hp|].
  intros x Hx. apply relabel_title_part. exact Hx.
Qed.

Lemma relabel_smart_title t :
  Forall (fun c => accented c = true) t ->
  _smart_title (map (relabel u) t) = map (relabel u) (_smart_title t).
Proof.
  intros H. rewrite !smart_title_unfold.
  rewrite (strip_map (relabel u) is_accented isspace t H)
    by (intros c Hc; apply relabel_space; exact Hc).
  destruct (strip isspace t) as [|c r] eqn:E; [reflexivity|].
  cbn [map is_empty]. rewrite <- E. change (relabel u c :: map (relabel u) r)
    with (map (relabel u) (c :: r)). rewrite <- E.
  apply relabel_title_hyphen. apply strip_Forall. exact H.
Qed.

Lemma relabel_normalize_fio_string s :
  well_accented s ->
  normalize_fio_string (map (relabel u) s) = map (relabel u) (normalize_fio_string s).
Proof.
  intros H. rewrite !normalize_fio_string_tokens, (relabel_fio_tokens s H).
  rewrite <- relabel_space_word at 1. rewrite <- join_map. f_equal.
  rewrite !map_map. apply map_ext_in. intros t Ht. apply relabel_smart_title.
  pose proof (fio_tokens_well s H) as Hw. rewrite List.Forall_forall in Hw.
  apply (Hw t Ht).
Qed.

End Relabel.

(** ** Names and titles on the wider alphabet *)

(** Two ways of writing the accent tell all strings apart. *)
Lemma relabel_injective x y :
  map (relabel 95%N) x = map (relabel 95%N) y ->
  map (relabel 35%N) x = map (relabel 35%N) y -> x = y.
Proof.
  revert y. induction x as [|a x IH]; intros [|c y] H1 H2; try discriminate; [reflexivity|].
  simpl in H1, H2. injection H1 as Ha Hx. injection H2 as Hb Hy.
  f_equal; [|apply IH; assumption].
  unfold relabel in Ha, Hb.
  destruct (chr_eqb a ACUTE) eqn:Ea, (chr_eqb c ACUTE) eqn:Ec.
  - apply chr_eqb_eq in Ea, Ec. congruence.
  - subst c. discriminate Hb.
  - subst a. discriminate Hb.
  - exact Ha.
Qed.

Lemma split_first_app sep s l r : split_first sep s = Some (l, r) -> s = l ++ sep :: r.
Proof.
  revert l. induction s as [|c s IH]; intros l E; simpl in E; [discriminate|].
  destruct (chr_eqb c sep) eqn:Ec.
  - apply chr_eqb_eq in Ec. injection E as <- <-. subst c. reflexivity.
  - destruct (split_first sep s) as [[l' r']|]; [|discriminate].
    injection E as <- <-. simpl. f_equal. apply IH. reflexivity.
Qed.

Section WiderAlphabet.
Context {UT : Unicode} {UM : UnicodeMarks UT}.

Lemma relabel_idempotent u s :
  u = 95%N \/ u = 35%N -> well_accented s ->
  map (relabel u) (normalize_fio_string (normalize_fio_string s))
  = map (relabel u) (normalize_fio_string s).
Proof.
  intros Hu H. pose proof (normalize_fio_string_well s H) as Hy.
  rewrite <- (relabel_normalize_fio_string u Hu _ Hy).
  rewrite <- (relabel_normalize_fio_string u Hu _ H).
  apply normalize_fio_string_idempotent. apply relabel_is_plain; [exact Hu|apply H].
Qed.

(** The front of the normalizer takes a text to accented text. *)
Lemma text_char_cases c :
  text_char c = true ->
  plain c = true \/ c = ACUTE \/ c = NBSP \/ char_in APOSTROPHES c = true.
Proof.
  unfold text_char, spaced, accented, chr_eqb.
  rewrite !orb_true_iff, !N.eqb_eq. tauto.
Qed.

Lemma settled_char c :
  text_char c = true ->
  accented (if chr_eqb (unify_char c) NBSP then 32%N else unify_char c) = true.
Proof.
  intros H. apply text_char_cases in H. destruct H as [H|[->|[->|H]]]; try reflexivity.
  - destruct (unify_char_plain c H) as [Hp _].
    destruct (chr_eqb (unify_char c) NBSP); [reflexivity|].
    unfold accented. rewrite Hp. reflexivity.
  - rewrite unify_char_spec, H. reflexivity.
Qed.

Lemma settled_map raw :
  settled raw = map (fun c => if chr_eqb (unify_char c) NBSP then 32%N else unify_char c) raw.
Proof.
  unfold settled. change SPACE with [32%N]. rewrite replace1_map, unify_map, map_map.
  reflexivity.
Qed.

Lemma settled_well raw : is_text raw = true -> well_accented (settled raw).
Proof.
  unfold is_text. intros H. apply andb_true_iff in H. destruct H as [Hc Hp].
  rewrite settled_map. split.
  - apply Forall_map. apply List.Forall_forall. intros c Hin. simpl.
    apply settled_char. rewrite forallb_forall in Hc. auto.
  - rewrite apart_map; [exact Hp|]. intros c.
    destruct (unify_char_role c) as [H1 H2].
    destruct (chr_eqb (unify_char c) NBSP) eqn:E; [|auto].
    apply chr_eqb_eq in E. rewrite E in H1, H2. rewrite <- H1, <- H2. split; reflexivity.
Qed.

Lemma unified_spaced raw :
  is_text raw = true ->
  forallb spaced (_unify_apostrophes raw) = true
  /\ accents_apart (_unify_apostrophes raw) = true.
Proof.
  unfold is_text. intros H. apply andb_true_iff in H. destruct H as [Hc Hp].
  rewrite unify_map. split.
  - apply forallb_forall. intros y Hy. apply in_map_iff in Hy. destruct Hy as (c & <- & Hin).
    rewrite forallb_forall in Hc. specialize (Hc c Hin).
    apply text_char_cases in Hc. destruct Hc as [H|[->|[->|H]]]; try reflexivity.
    + destruct (unify_char_plain c H) as [Hq _]. unfold spaced, accented. rewrite Hq. reflexivity.
    + rewrite unify_char_spec, H. reflexivity.
  - rewrite (apart_map unify_char raw unify_char_role). exact Hp.
Qed.

Lemma unify_settled raw : _unify_apostrophes (settled raw) = settled raw.
Proof.
  rewrite unify_map, settled_map, map_map. apply map_ext. intros c.
  rewrite !unify_char_spec.
  destruct (char_in APOSTROPHES c) eqn:E; [reflexivity|].
  destruct (chr_eqb c NBSP); [reflexivity|]. rewrite E. reflexivity.
Qed.

Lemma fio_tokens_settled raw : is_text raw = true -> fio_tokens raw = fio_tokens (settled raw).
Proof.
  intros H. unfold fio_tokens. rewrite unify_settled.
  destruct (unified_spaced raw H) as [Hs Hp].
  rewrite (normalize_spaces_accented _ (settled_well raw H)).
  unfold normalize_spaces at 2. rewrite (nfkc_spaced _ Hs Hp).
  fold (settled raw).
  rewrite (replace1_absent NBSP SPACE (settled raw))
    by (apply accented_no_nbsp, (settled_well raw H)).
  reflexivity.
Qed.

Lemma normalize_fio_string_settled raw :
  is_text raw = true -> normalize_fio_string raw = normalize_fio_string (settled raw).
Proof.
  intros H. rewrite !normalize_fio_string_tokens, (fio_tokens_settled raw H). reflexivity.
Qed.

(** *** The title *)

Lemma normalize_phone_no_acute phone :
  Forall (fun c => c <> ACUTE) (normalize_phone_e164_ua phone).
Proof.
  destruct (normalize_phone_parts phone) as (body & -> & Hd & _).
  apply Forall_app. split.
  - repeat (constructor; [discriminate|]). constructor.
  - apply List.Forall_forall. intros c Hc ->.
    rewrite forallb_forall in Hd. specialize (Hd _ Hc).
    rewrite isdecimal_acute in Hd. discriminate.
Qed.

Section RelabelTitle.
Variable u : char.
Hypothesis u_inert : u = 95%N \/ u = 35%N.

Lemma relabel_fixed s : Forall (fun c => c <> ACUTE) s -> map (relabel u) s = s.
Proof.
  intros H. rewrite <- (map_id s) at 2. apply map_ext_in.
  rewrite List.Forall_forall in H. intros c Hc. apply relabel_other. auto.
Qed.

Lemma relabel_split_first (sep : char) s :
  sep <> ACUTE -> sep <> 95%N -> sep <> 35%N ->
  split_first sep (map (relabel u) s)
  = match split_first sep s with
    | Some (l, r) => Some (map (relabel u) l, map (relabel u) r)
    | None => None
    end.
Proof.
  intros H1 H2 H3. induction s as [|c s IH]; [reflexivity|]. simpl.
  rewrite (relabel_mark u u_inert sep c H1 H2 H3), IH.
  destruct (chr_eqb c sep); [reflexivity|].
  destruct (split_first sep s) as [[l r]|]; reflexivity.
Qed.

Lemma relabel_has_lf s : existsb (chr_eqb LF) (map (relabel u) s) = existsb (chr_eqb LF) s.
Proof.
  induction s as [|c s IH]; [reflexivity|]. cbn [map existsb]. rewrite IH.
  assert (E : chr_eqb LF (relabel u c) = chr_eqb LF c).
  { unfold chr_eqb. rewrite (N.eqb_sym LF (relabel u c)), (N.eqb_sym LF c).
    apply (relabel_mark u u_inert LF c); discriminate. }
  rewrite E. reflexivity.
Qed.

Lemma relabel_drop_final_lf s :
  drop_final_lf (map (relabel u) s) = map (relabel u) (drop_final_lf s).
Proof.
  unfold drop_final_lf. rewrite <- map_rev.
  destruct (rev s) as [|c r]; [reflexivity|]. simpl.
  rewrite (relabel_mark u u_inert LF c) by discriminate.
  destruct (chr_eqb c LF); [|reflexivity]. rewrite map_rev. reflexivity.
Qed.

Lemma relabel_match_name s :
  match_name_comma_rest (map (relabel u) s)
  = match match_name_comma_rest s with
    | Some (l, r) => Some (map (relabel u) l, map (relabel u) r)
    | None => None
    end.
Proof.
  unfold match_name_comma_rest. change (ch ",") with 44%N.
  rewrite relabel_split_first by discriminate.
  destruct (split_first 44%N s) as [[l r]|]; [|reflexivity].
  rewrite relabel_drop_final_lf, !relabel_has_lf.
  destruct (existsb (chr_eqb LF) l || existsb (chr_eqb LF) (drop_final_lf r)); reflexivity.
Qed.

Lemma relabel_keep_decimal s :
  Forall (fun c => accented c = true) s ->
  keep isdecimal (map (relabel u) s) = keep isdecimal s.
Proof.
  induction 1 as [|c s Hc Hs IH]; [reflexivity|]. unfold keep in *. simpl.
  rewrite (relabel_decimal u u_inert c Hc), IH.
  destruct (isdecimal c) eqn:E; [|reflexivity]. f_equal.
  apply relabel_other. intros ->. rewrite isdecimal_acute in E. discriminate.
Qed.

Lemma match_name_well s l r :
  match_name_comma_rest s = Some (l, r) -> well_accented s ->
  well_accented l /\ Forall (fun c => accented c = true) r.
Proof.
  intros E [Ha Hp].
  destruct (match_name_comma_rest_Forall _ s l r E Ha) as [Hl Hr].
  split; [|exact Hr]. split; [exact Hl|].
  unfold match_name_comma_rest in E.
  destruct (split_first (ch ",") s) as [[l' r']|] eqn:Es; [|discriminate].
  destruct (existsb (chr_eqb LF) l' || existsb (chr_eqb LF) (drop_final_lf r'));
    [discriminate|].
  injection E as <- _. apply split_first_app in Es. rewrite Es in Hp.
  apply apart_app_inv in Hp. tauto.
Qed.

Lemma relabel_title_for_compare t :
  well_accented t ->
  normalize_folder_title_for_compare (map (relabel u) t)
  = map (relabel u) (normalize_folder_title_for_compare t).
Proof.
  intros H. unfold normalize_folder_title_for_compare.
  pose proof (unify_well t H) as H1.
  pose proof (normalize_spaces_well _ H1) as H2.
  rewrite (relabel_unify u u_inert), (relabel_normalize_spaces u u_inert _ H1).
  rewrite relabel_match_name.
  destruct (match_name_comma_rest (normalize_spaces (_unify_apostrophes t)))
    as [[l r]|] eqn:E.
  - destruct (match_name_well _ l r E H2) as [Hl Hr].
    rewrite (strip_map (relabel u) (fun c => accented c = true) isspace l (proj1 Hl))
      by (intros c Hc; apply (relabel_space u u_inert); exact Hc).
    rewrite (strip_map (relabel u) (fun c => accented c = true) isspace r Hr)
      by (intros c Hc; apply (relabel_space u u_inert); exact Hc).
    rewrite (relabel_normalize_fio_string u u_inert _ (strip_well isspace l Hl)).
    rewrite (relabel_keep_decimal _ (strip_Forall _ isspace r Hr)).
    rewrite !map_app. f_equal. f_equal.
    set (right := strip isspace r).
    assert (Ep : normalize_phone_e164_ua (map (relabel u) right)
                 = normalize_phone_e164_ua right).
    { rewrite <- (normalize_phone_of_its_digits (map (relabel u) right)).
      unfold right. rewrite (relabel_keep_decimal _ (strip_Forall _ isspace r Hr)).
      apply normalize_phone_of_its_digits. }
    rewrite Ep. symmetry.
    destruct (is_empty (keep isdecimal right)); apply relabel_fixed, normalize_phone_no_acute.
  - apply (relabel_normalize_fio_string u u_inert _ H2).
Qed.

End RelabelTitle.

Lemma ascii_digits_plain phone :
  ascii_digits phone = true -> is_plain (keep isdecimal phone) = true.
Proof.
  unfold ascii_digits, is_plain. rewrite !forallb_forall. intros H c Hc.
  specialize (H c Hc). unfold plain_digit in H. unfold plain.
  apply andb_true_iff in H. destruct H as [_ H]. apply N.leb_le in H.
  destruct (N.ltb_spec c 128); [reflexivity|lia].
Qed.

Lemma built_title_well s phone :
  well_accented s -> is_plain phone = true ->
  well_accented (normalize_fio_string s ++ COMMA_SPACE ++ normalize_phone_e164_ua phone).
Proof.
  intros H Hd. pose proof (normalize_fio_string_well s H) as [Ha Hp].
  assert (Hq : is_plain (32%N :: normalize_phone_e164_ua phone) = true).
  { destruct (normalize_phone_plain phone Hd) as (body & -> & _ & _ & Hb).
    apply is_plain_cons. split; [reflexivity|]. apply words_plain.
    apply Forall_app. split; [|exact Hb]. repeat (constructor; [reflexivity|]). constructor. }
  apply well_accented_plain in Hq. destruct Hq as [Hqa Hqp].
  change (COMMA_SPACE ++ ?x) with (44%N :: 32%N :: x). split.
  - apply Forall_app. split; [exact Ha|]. constructor; [reflexivity|exact Hqa].
  - rewrite apart_app_sep by reflexivity. rewrite Hp. exact Hqp.
Qed.

End WiderAlphabet.

Section WiderTitles.
Context {UT : Unicode} {UM : UnicodeMarks UT}.

Lemma relabel_roundtrip u s d :
  u = 95%N \/ u = 35%N -> well_accented s -> is_plain d = true ->
  map (relabel u)
    (normalize_folder_title_for_compare
       (normalize_fio_string s ++ COMMA_SPACE ++ normalize_phone_e164_ua d))
  = map (relabel u) (normalize_fio_string s ++ COMMA_SPACE ++ normalize_phone_e164_ua d).
Proof.
  intros Hu H Hd.
  rewrite <- (relabel_title_for_compare u Hu _ (built_title_well s d H Hd)).
  rewrite !map_app.
  rewrite (relabel_fixed u COMMA_SPACE) by (repeat constructor; discriminate).
  rewrite (relabel_fixed u _ (normalize_phone_no_acute d)).
  rewrite <- (relabel_normalize_fio_string u Hu s H).
  apply (title_roundtrip (map (relabel u) s) d); [|exact Hd].
  apply relabel_is_plain; [exact Hu|apply H].
Qed.

End WiderTitles.

(** C4, as amended.  The phone normalizer is idempotent on every string.
    The name normalizer is idempotent on every text: a string of ASCII and
    basic Cyrillic, the apostrophes that [_unify_apostrophes] replaces,
    no-break spaces and acute accents, where no accent stands directly
    after a letter it composes with under NFKC.  Both are total: each is a
    function of the model defined on every string, with no failing case. *)
Theorem normalizers_idempotent_on_text :
  forall (UT : Unicode) (UM : UnicodeMarks UT) (raw phone : str),
    is_text raw = true ->
    normalize_fio_string (normalize_fio_string raw) = normalize_fio_string raw
    /\ normalize_phone_e164_ua (normalize_phone_e164_ua phone)
       = normalize_phone_e164_ua phone.
Proof.
  intros UT UM raw phone H. split.
  - rewrite (normalize_fio_string_settled raw H).
    apply relabel_injective; apply relabel_idempotent; auto using settled_well.
  - apply normalize_phone_idempotent.
Qed.

Lemma normalizers_idempotent_on_text_witness :
  @normalize_fio_string py_tables (@normalize_fio_string py_tables typed_name)
  = @normalize_fio_string py_tables typed_name
  /\ @normalize_phone_e164_ua py_tables (@normalize_phone_e164_ua py_tables typed_phone)
     = @normalize_phone_e164_ua py_tables typed_phone.
Proof.
  apply (normalizers_idempotent_on_text py_tables py_marks typed_name typed_phone).
  vm_compute. reflexivity.
Defined.

(** C2, as amended.  For every name that is a text (ASCII and basic
    Cyrillic, the apostrophes that [_unify_apostrophes] replaces, no-break
    spaces and acute accents, none directly after a letter it composes
    with) and every phone whose decimal digits are ASCII digits, whatever
    stands between them, empty or not, with digits or not, parsing the
    built folder title for comparison gives back the normalized name, a
    comma and a space, and the canonical phone. *)
Theorem built_title_roundtrip_on_text :
  forall (UT : Unicode) (UM : UnicodeMarks UT) (fio phone : str),
    is_text fio = true -> ascii_digits phone = true ->
    normalize_folder_title_for_compare (build_folder_title fio phone)
    = normalize_fio_string fio ++ U ", " ++ normalize_phone_e164_ua phone.
Proof.
  intros UT UM fio phone Hf Hp. unfold build_folder_title.
  rewrite (normalize_fio_string_settled fio Hf).
  rewrite <- (normalize_phone_of_its_digits phone).
  apply relabel_injective; apply relabel_roundtrip;
    auto using settled_well, ascii_digits_plain.
Qed.

Lemma built_title_roundtrip_on_text_witness :
  @normalize_folder_title_for_compare py_tables
    (@build_folder_title py_tables typed_name typed_phone)
  = @normalize_fio_string py_tables typed_name ++ U ", "
    ++ @normalize_phone_e164_ua py_tables typed_phone.
Proof.
  apply (built_title_roundtrip_on_text py_tables py_marks typed_name typed_phone).
  - vm_compute. reflexivity.
  - vm_compute. reflexivity.
Defined.
